(** * Smart Video Clipper: interval planning, argument construction, job driver

    A shallow embedding of [processVideo] and [generateClipName] of the
    component [App] of the clipping UI, and the properties of the
    specification that concern them.

    Numbers.  The planner is embedded twice.  [Planner] takes JavaScript
    numbers as exact rationals ([Q]), as the data model of the
    specification speaks of real numbers of seconds: no rounding, no
    [NaN], no infinity, numeric equality ([===] on numbers) is [Qeq]; the
    job driver, the argument builder and the clip names work on its
    intervals.  [Planner64] takes them as IEEE doubles ([Double.number]: a
    finite value held as the rational it denotes, the two infinities and
    [NaN]), every sum and difference rounded to the nearest double with
    ties to even and overflow to infinity; the properties of the planned
    sequence that depend on the tests [m > lastTime + 0.1] and
    [current < duration] are stated on it.  Numbers are printed
    ([toString], [toFixed]) with all their digits, as JavaScript prints
    whole numbers below 2^53.

    Strings.  JavaScript strings are modelled as [string] (sequences of
    8-bit characters). *)

From Stdlib Require Import QArith Qround Qminmax Qabs Qpower Lqa ZArith Lia List Bool.
From Stdlib Require Import String Ascii.
Import ListNotations.

Local Open Scope Q_scope.

(** ** Planner *)

Module Planner.

(** [{ start, end }], the objects pushed onto [intervals]. *)
Record interval : Type := mkInterval { start : Q; end_ : Q }.

(** [trimSettings].  [duration] and [remainderThreshold] hold the values
    that [parseFloat] returns for them. *)
Record trimSettings : Type := mkTrim {
  duration : Q;
  autoFit : string;          (* 'merge', 'discard' *)
  remainderThreshold : Q;
  mode : string;             (* 'copy', 'encode' *)
  template : string
}.

(** [DEFAULT_TRIM_SETTINGS]. *)
Definition defaultTrim : trimSettings :=
  mkTrim 30 "merge" 5 "copy" "{name}_part{index}_{start}-{end}".

(** The default settings with another remainder policy and threshold. *)
Definition trimWith (clip : Q) (policy : string) (threshold : Q) : trimSettings :=
  mkTrim clip policy threshold (mode defaultTrim) (template defaultTrim).

Definition Qltb (x y : Q) : bool := negb (Qle_bool y x).

(** [Array.prototype.sort((a, b) => a - b)]: the stable ascending sort,
    written as insertion from the right. *)
Fixpoint insert (x : Q) (l : list Q) : list Q :=
  match l with
  | [] => [x]
  | y :: l' => if Qle_bool x y then x :: y :: l' else y :: insert x l'
  end.

Definition sort (l : list Q) : list Q := fold_right insert [] l.

(** The marker loop:
      for (let m of sortedMarkers) {
        if (m > lastTime + 0.1) intervals.push({ start: lastTime, end: m });
        lastTime = m;
      } *)
Fixpoint markerLoop (sortedMarkers : list Q) (lastTime : Q)
    (intervals : list interval) : list interval :=
  match sortedMarkers with
  | [] => intervals
  | m :: rest =>
      let intervals' :=
        if Qltb (lastTime + (1 # 10)) m
        then intervals ++ [mkInterval lastTime m]
        else intervals in
      markerLoop rest m intervals'
  end.

(** "Split by markers". *)
Definition splitByMarkers (videoDuration : Q) (markers : list Q) : list interval :=
  markerLoop (sort (markers ++ [videoDuration])) 0 [].

(** State of the "auto split" loop: the cursor [current] and the array
    [intervals]. *)
Record loopState : Type := mkLoop { current : Q; intervals : list interval }.

(** Outcome of one pass through the body of the [while]: the loop goes
    back to its condition, or leaves through a [break]. *)
Inductive bodyResult : Type :=
| Continue (s : loopState)
| Break (s : loopState).

Section AutoSplit.

Variable videoDuration : Q.       (* the [duration] state of the component *)
Variable ts : trimSettings.

Let clipDur := duration ts.

(** One pass through the body of [while (current < duration)]. *)
Definition loopBody (s : loopState) : bodyResult :=
  let end0 := Qmin (current s + clipDur) videoDuration in
  let remainder := videoDuration - end0 in
  let push e := intervals s ++ [mkInterval (current s) e] in
  let finish e :=
    (* intervals.push({start: current, end}); current = end;
       if (current >= duration) break; *)
    if Qle_bool videoDuration e
    then Break (mkLoop e (push e))
    else Continue (mkLoop e (push e)) in
  if Qltb 0 remainder && Qltb remainder (remainderThreshold ts) then
    if String.eqb (autoFit ts) "merge" then finish videoDuration
    else if String.eqb (autoFit ts) "discard" then
      Break (mkLoop videoDuration (push end0))
    else finish end0
  else finish end0.

(** The [while] loop, bounded by [fuel] passes; [None] when the fuel
    does not suffice.  The second component counts the passes made. *)
Fixpoint autoSplitLoop (fuel : nat) (s : loopState) (passes : nat)
    : option (loopState * nat) :=
  if Qltb (current s) videoDuration then
    match fuel with
    | O => None
    | S fuel' =>
        match loopBody s with
        | Break s' => Some (s', S passes)
        | Continue s' => autoSplitLoop fuel' s' (S passes)
        end
    end
  else Some (s, passes).

(** "Auto split by duration". *)
Definition autoSplit (fuel : nat) : option (list interval) :=
  option_map (fun r => intervals (fst r)) (autoSplitLoop fuel (mkLoop 0 []) 0).

End AutoSplit.

(** The number of passes that always suffices (for a positive clip
    duration): [ceil(duration / clipDur)]. *)
Definition passBound (videoDuration : Q) (ts : trimSettings) : nat :=
  Z.to_nat (Qceiling (videoDuration / duration ts)).

(** The planning part of [processVideo]: markers when there are some,
    fixed-length clips otherwise. *)
Definition planIntervals (fuel : nat) (videoDuration : Q) (markers : list Q)
    (ts : trimSettings) : option (list interval) :=
  if Nat.ltb 0 (List.length markers)
  then Some (splitByMarkers videoDuration markers)
  else autoSplit videoDuration ts fuel.

(** [intervals[0].start == 0], [intervals[i].end == intervals[i+1].start]
    for all [i], and [intervals[last].end == d]. *)
Definition sequenceInvariant (d : Q) (l : list interval) : Prop :=
  (exists iv, nth_error l 0 = Some iv /\ start iv == 0) /\
  (forall i a b, nth_error l i = Some a -> nth_error l (S i) = Some b ->
                 end_ a == start b) /\
  (exists iv, nth_error l (pred (List.length l)) = Some iv /\ end_ iv == d).

(** The same, as a path: [l] leads from [a] to [b] without gap. *)
Fixpoint chain (a : Q) (l : list interval) (b : Q) : Prop :=
  match l with
  | [] => a == b
  | iv :: l' => start iv == a /\ chain (end_ iv) l' b
  end.

(** An interval inside [[0, hi]], of positive length. *)
Definition within (hi : Q) (iv : interval) : Prop :=
  0 <= start iv /\ start iv < end_ iv /\ end_ iv <= hi.

(** The remainder [duration - end] that the pass producing [iv] computed
    before it applied the policy. *)
Definition remainderOf (d : Q) (ts : trimSettings) (iv : interval) : Q :=
  d - Qmin (start iv + duration ts) d.

Definition loopInv (d : Q) (s : loopState) : Prop :=
  current s < d /\ 0 <= current s /\
  chain 0 (intervals s) (current s) /\
  Forall (within (current s)) (intervals s).

Definition loopPost (d : Q) (ts : trimSettings) (s : loopState) : Prop :=
  exists l last,
    intervals s = l ++ [last] /\
    chain 0 (intervals s) (end_ last) /\
    Forall (within (end_ last)) (intervals s) /\
    end_ last <= d /\
    (autoFit ts <> "discard"%string -> end_ last == d) /\
    (autoFit ts = "discard"%string ->
       (end_ last < d <->
        0 < remainderOf d ts last /\ remainderOf d ts last < remainderThreshold ts)).

(** Boundaries in ascending order, starting at or after [prev]. *)
Fixpoint ascending (prev : Q) (bs : list Q) : Prop :=
  match bs with
  | [] => True
  | b :: r => prev <= b /\ ascending b r
  end.

(** No boundary lies a positive distance of at most 0.1 after its
    predecessor. *)
Fixpoint noSliver (prev : Q) (bs : list Q) : Prop :=
  match bs with
  | [] => True
  | b :: r => (b <= prev \/ prev + (1 # 10) < b) /\ noSliver b r
  end.

(** Every boundary lies at most 0.1 after its predecessor. *)
Fixpoint allClose (prev : Q) (bs : list Q) : Prop :=
  match bs with
  | [] => True
  | b :: r => b <= prev + (1 # 10) /\ allClose b r
  end.

(** Total length of a sequence of intervals. *)
Fixpoint sumLen (l : list interval) : Q :=
  match l with
  | [] => 0
  | iv :: l' => (end_ iv - start iv) + sumLen l'
  end.

(** The markers that the walk keeps: those more than 0.1 after the
    cursor, which moves to every marker it passes. *)
Fixpoint countKept (cursor : Q) (sorted : list Q) : nat :=
  match sorted with
  | [] => 0
  | m :: r => (if Qltb (cursor + (1 # 10)) m then 1 else 0) + countKept m r
  end.

(** The number of sorted markers after epsilon-collapsing. *)
Definition collapsedMarkerCount (markers : list Q) : nat :=
  countKept 0 (sort markers).

(** Intervals of positive length in ascending order, none starting
    before [lo] or before the end of its predecessor. *)
Fixpoint increasing (lo : Q) (l : list interval) : Prop :=
  match l with
  | [] => True
  | iv :: l' => lo <= start iv /\ start iv < end_ iv /\ increasing (end_ iv) l'
  end.

(** Markers as the data model has them: inside [[0, d]]. *)
Definition validMarkers (d : Q) (markers : list Q) : Prop :=
  Forall (fun m => 0 <= m /\ m <= d) markers.




(** The test [remainder > 0 && remainder < remainderThreshold]. *)
Definition belowThreshold (ts : trimSettings) (r : Q) : Prop :=
  0 < r /\ r < remainderThreshold ts.

(** [autoFit] is one of the two policies of the selector. *)
Definition knownPolicy (ts : trimSettings) : Prop :=
  autoFit ts = "merge"%string \/ autoFit ts = "discard"%string.



(** 1 when the duration lies more than 0.1 after the largest marker. *)
Definition tailKept (d : Q) (markers : list Q) : nat :=
  if Qltb (last (sort markers) 0 + (1 # 10)) d then 1%nat else 0%nat.

End Planner.

(** ** The JavaScript string operations the component uses *)

Module JS.

Local Open Scope string_scope.
Local Open Scope Z_scope.

Definition digitChar (d : Z) : ascii := ascii_of_N (48 + Z.to_N d).

(** Decimal digits of a non-negative integer, most significant first,
    put in front of [acc]. *)
Fixpoint digitsFuel (fuel : nat) (n : Z) (acc : string) : string :=
  let acc' := String (digitChar (n mod 10)) acc in
  match fuel with
  | O => acc'
  | S fuel' => if n <? 10 then acc' else digitsFuel fuel' (n / 10) acc'
  end.

(** [Number.prototype.toString] on a non-negative integer: all its
    digits, as JavaScript prints the whole numbers below 2^53. *)
Definition natString (n : Z) : string :=
  digitsFuel (Z.to_nat (Z.log2 n)) n EmptyString.

(** [Number.prototype.toString] on an integer. *)
Definition intString (z : Z) : string :=
  if z <? 0 then "-" ++ natString (- z) else natString z.

Fixpoint repeatChar (c : ascii) (n : nat) : string :=
  match n with
  | O => EmptyString
  | S n' => String c (repeatChar c n')
  end.

(** [String.prototype.padStart(n, c)] with a one-character filler. *)
Definition padStart (s : string) (n : nat) (c : ascii) : string :=
  repeatChar c (n - String.length s) ++ s.

(** [Number.prototype.toFixed(3)]: the sign, then the integer nearest to
    [|x| * 1000] (the larger one on a tie) written with at least four
    digits and a point before the last three.  (JavaScript does so below
    10^21 and prints an exponent from there on.) *)
Definition toFixed3 (x : Q) : string :=
  let neg := Planner.Qltb x 0 in
  let ax := if neg then Qopp x else x in
  let n := Qfloor (ax * 1000 + (1 # 2))%Q in
  let m := padStart (natString n) 4 "0" in
  let k := String.length m in
  (if neg then "-" else EmptyString)
    ++ substring 0 (k - 3) m ++ "." ++ substring (k - 3) 3 m.

(** [Math.floor(x).toString()]. *)
Definition floorString (x : Q) : string := intString (Qfloor x).

(** [s.startsWith(pat)]. *)
Fixpoint startsWith (pat s : string) : bool :=
  match pat, s with
  | EmptyString, _ => true
  | String a pat', String b s' => Ascii.eqb a b && startsWith pat' s'
  | String _ _, EmptyString => false
  end.

(** [s.slice(n)]. *)
Fixpoint skip (n : nat) (s : string) : string :=
  match n, s with
  | O, _ => s
  | S n', String _ t => skip n' t
  | S _, EmptyString => EmptyString
  end.

(** The first occurrence of [pat] in [s]: the text before it and the
    text after it. *)
Fixpoint splitFirst (pat s : string) : option (string * string) :=
  if startsWith pat s
  then Some (EmptyString, skip (String.length pat) s)
  else match s with
       | EmptyString => None
       | String c s' =>
           match splitFirst pat s' with
           | Some (b, a) => Some (String c b, a)
           | None => None
           end
       end.

(** [s.includes(pat)]. *)
Definition includes (pat s : string) : bool :=
  match splitFirst pat s with
  | Some _ => true
  | None => false
  end.

(** The replacement text of [String.prototype.replace] for a string
    pattern: [$$], [$&], [$`] and [$'] are expanded, every other
    character stands for itself. *)
Fixpoint getSubstitution (matched before after repl : string) : string :=
  match repl with
  | EmptyString => EmptyString
  | String c t =>
      if Ascii.eqb c "$" then
        match t with
        | String c' t' =>
            if Ascii.eqb c' "$" then String "$" (getSubstitution matched before after t')
            else if Ascii.eqb c' "&" then matched ++ getSubstitution matched before after t'
            else if Ascii.eqb c' "`" then before ++ getSubstitution matched before after t'
            else if Ascii.eqb c' "'" then after ++ getSubstitution matched before after t'
            else String c (getSubstitution matched before after t)
        | EmptyString => String c EmptyString
        end
      else String c (getSubstitution matched before after t)
  end.

(** [s.replace(pat, repl)] with a string pattern: the first occurrence
    only. *)
Definition replace (s pat repl : string) : string :=
  match splitFirst pat s with
  | Some (b, a) => b ++ getSubstitution pat b a repl ++ a
  | None => s
  end.

(** The tail that [[^/.]+$] accepts: not empty, no slash, no point. *)
Definition isExtension (t : string) : bool :=
  negb (String.eqb t EmptyString)
  && forallb (fun c => negb (Ascii.eqb c "/") && negb (Ascii.eqb c "."))
             (list_ascii_of_string t).

(** [name.replace(/\.[^/.]+$/, '')]. *)
Fixpoint removeExtension (name : string) : string :=
  match name with
  | EmptyString => EmptyString
  | String c t =>
      if Ascii.eqb c "." && isExtension t then EmptyString
      else String c (removeExtension t)
  end.

(** [s.endsWith(';') ? s.slice(0, -1) : s]. *)
Fixpoint dropFinalSemicolon (s : string) : string :=
  match s with
  | EmptyString => EmptyString
  | String c EmptyString => if Ascii.eqb c ";" then EmptyString else s
  | String c t => String c (dropFinalSemicolon t)
  end.

(** Every character of [s] satisfies [p]. *)
Fixpoint allChars (p : ascii -> bool) (s : string) : bool :=
  match s with
  | EmptyString => true
  | String c t => p c && allChars p t
  end.

(** A decimal digit. *)
Definition isDigit (c : ascii) : bool :=
  (48 <=? Z.of_nat (nat_of_ascii c)) && (Z.of_nat (nat_of_ascii c) <=? 57).

(** A non-empty string of decimal digits. *)
Definition digitString (s : string) : bool :=
  negb (String.eqb s EmptyString) && allChars isDigit s.

(** A string without any decimal digit. *)
Definition noDigits (s : string) : bool := allChars (fun c => negb (isDigit c)) s.

(** The number a string of decimal digits denotes. *)
Fixpoint decodeFrom (acc : Z) (s : string) : Z :=
  match s with
  | EmptyString => acc
  | String c t => decodeFrom (acc * 10 + (Z.of_nat (nat_of_ascii c) - 48)) t
  end.

Definition decode (s : string) : Z := decodeFrom 0 s.

(** [s.includes(c)] for a single character. *)
Fixpoint hasChar (c : ascii) (s : string) : bool :=
  match s with
  | EmptyString => false
  | String c' t => Ascii.eqb c c' || hasChar c t
  end.

End JS.

(** ** Clip names *)

Module Names.

Local Open Scope string_scope.

(** [generateClipName(index, start, end)], with the name of [videoFile]
    and the template of [trimSettings] as parameters. *)
Definition generateClipName (videoFileName template : string)
    (index : nat) (start end_ : Q) : string :=
  let baseName := JS.removeExtension videoFileName in
  let s1 := JS.replace template "{name}" baseName in
  let s2 := JS.replace s1 "{part}"
              (JS.padStart (JS.natString (Z.of_nat (index + 1))) 3 "0") in
  let s3 := JS.replace s2 "{index}" (JS.natString (Z.of_nat (index + 1))) in
  let s4 := JS.replace s3 "{start}" (JS.floorString start) in
  let s5 := JS.replace s4 "{end}" (JS.floorString end_) in
  s5 ++ ".mp4".

(** *** The shape of a generated name *)

(** The four tokens that are replaced by numbers. *)
Inductive slot : Type := PartSlot | IndexSlot | StartSlot | EndSlot.

Definition slotToken (k : slot) : string :=
  match k with
  | PartSlot => "{part}"
  | IndexSlot => "{index}"
  | StartSlot => "{start}"
  | EndSlot => "{end}"
  end.

(** The replacement [generateClipName] passes for each token. *)
Definition slotValue (index : nat) (start end_ : Q) (k : slot) : string :=
  match k with
  | PartSlot => JS.padStart (JS.natString (Z.of_nat (index + 1))) 3 "0"
  | IndexSlot => JS.natString (Z.of_nat (index + 1))
  | StartSlot => JS.floorString start
  | EndSlot => JS.floorString end_
  end.

(** A template in which some tokens have been replaced: a first piece
    of literal text, then values each followed by literal text. *)
Definition filled : Type := string * list (slot * string).

Fixpoint renderTail (val : slot -> string) (rest : list (slot * string)) : string :=
  match rest with
  | [] => EmptyString
  | (k, x) :: rest' => val k ++ x ++ renderTail val rest'
  end.

Definition render (val : slot -> string) (t : filled) : string :=
  fst t ++ renderTail val (snd t).

(** Replacing the first occurrence of the token of [k] in the literal
    text. *)
Fixpoint fill (k : slot) (x0 : string) (rest : list (slot * string)) : filled :=
  match JS.splitFirst (slotToken k) x0 with
  | Some (b, a) => (b, (k, a) :: rest)
  | None =>
      match rest with
      | [] => (x0, [])
      | (k', x1) :: rest' =>
          let t := fill k x1 rest' in (x0, (k', fst t) :: snd t)
      end
  end.

(** The four replacements in the order of [generateClipName]. *)
Definition nameStructure (s1 : string) : filled :=
  let t2 := fill PartSlot s1 [] in
  let t3 := fill IndexSlot (fst t2) (snd t2) in
  let t4 := fill StartSlot (fst t3) (snd t3) in
  fill EndSlot (fst t4) (snd t4).

(** The token occurs in some piece of literal text. *)
Definition literalIncludes (tok : string) (t : filled) : bool :=
  JS.includes tok (fst t) || existsb (fun p => JS.includes tok (snd p)) (snd t).

(** A token: an opening brace, a body without braces, a closing
    brace. *)
Definition isToken (t : string) : Prop :=
  exists body, t = String "{" (body ++ "}")
               /\ JS.hasChar "{" body = false /\ JS.hasChar "}" body = false.

End Names.

(** ** Engine arguments *)

Module Builder.

Local Open Scope string_scope.

(** [premiumSettings]. *)
Record premiumSettings : Type := mkPremium {
  watermark : string;
  resize : string;           (* 'none', '9:16' *)
  normalize : bool;
  quality : string           (* 'Low', 'Medium', 'High' *)
}.

(** [PREMIUM_SETTINGS]. *)
Definition defaultPremium : premiumSettings := mkPremium EmptyString "none" false "Medium".

(** Truthiness of a string: not empty. *)
Definition truthy (s : string) : bool := negb (String.eqb s EmptyString).

(** The condition under which the streams are copied. *)
Definition copyPath (ts : Planner.trimSettings) (ps : premiumSettings) : bool :=
  String.eqb (Planner.mode ts) "copy" && String.eqb (resize ps) "none"
  && negb (normalize ps) && negb (truthy (watermark ps)).

(** [filterComplex] and [lastLabel] after the two conditional stages. *)
Definition filterGraph (ps : premiumSettings) : string * string :=
  let '(fc1, label1) :=
    if String.eqb (resize ps) "9:16" then
      ("[0:v]scale=1080:1920:force_original_aspect_ratio=increase,crop=1080:1920,boxblur=20:10[bg];"
       ++ "[0:v]scale=1080:1920:force_original_aspect_ratio=decrease[fg];"
       ++ "[bg][fg]overlay=(W-w)/2:(H-h)/2[v];", "[v]")
    else (EmptyString, "[0:v]") in
  if truthy (watermark ps) then
    (fc1 ++ label1 ++ "drawtext=text='" ++ watermark ps
       ++ "':x=w-tw-20:y=h-th-20:fontsize=48:fontcolor=white:shadowcolor=black:shadowx=2:shadowy=2[v_out];",
     "[v_out]")
  else (fc1, label1).

(** The tokens pushed in the encoding branch. *)
Definition encodeArgs (ps : premiumSettings) : list string :=
  let '(filterComplex, lastLabel) := filterGraph ps in
  (if truthy filterComplex
   then ["-filter_complex"; JS.dropFinalSemicolon filterComplex;
         "-map"; lastLabel; "-map"; "0:a?"]
   else [])
  ++ (if normalize ps then ["-af"; "loudnorm"] else [])
  ++ ["-c:v"; "libx264"; "-preset"; "veryfast"; "-crf";
      if String.eqb (quality ps) "High" then "18"
      else if String.eqb (quality ps) "Medium" then "23" else "28"]
  ++ ["-c:a"; "aac"; "-b:a"; "128k"].

(** The argument array [args] handed to [ffmpeg.exec] for one interval. *)
Definition buildArgs (ts : Planner.trimSettings) (ps : premiumSettings)
    (inputName outputName : string) (iv : Planner.interval) : list string :=
  let clipDur := (Planner.end_ iv - Planner.start iv)%Q in
  ["-ss"; JS.toFixed3 (Planner.start iv); "-i"; inputName;
   "-t"; JS.toFixed3 clipDur]
  ++ (if copyPath ts ps then ["-c"; "copy"] else encodeArgs ps)
  ++ [outputName].

(** The arguments of the thumbnail extraction. *)
Definition thumbArgs (inputName thumbName : string) (iv : Planner.interval)
    : list string :=
  ["-ss"; JS.toFixed3 (Planner.start iv); "-i"; inputName;
   "-vframes"; "1"; "-q:v"; "2"; thumbName].

(** One of the three transforms is switched on. *)
Definition transformActive (ps : premiumSettings) : bool :=
  String.eqb (resize ps) "9:16" || normalize ps || truthy (watermark ps).

(** The values [resize] takes: the button toggles between the two. *)
Definition validResize (ps : premiumSettings) : Prop :=
  resize ps = "none" \/ resize ps = "9:16".

(** The options that introduce a filter stage: the video filter graph
    and the audio filter. *)
Definition filterToken (t : string) : bool :=
  String.eqb t "-filter_complex" || String.eqb t "-af".

Definition emitsFilter (args : list string) : bool := existsb filterToken args.

End Builder.

(** ** The job driver *)

Module Driver.

Local Open Scope string_scope.

(** What an asynchronous call gives back: its value, or the message of
    the error it throws. *)
Inductive outcome (A : Type) : Type :=
| Returned (a : A)
| Thrown (msg : string).
Arguments Returned {A} a.
Arguments Thrown {A} msg.

Inductive messageType : Type := info | success | error.

Record message : Type := mkMessage { text : string; type : messageType }.

Section WithEngine.

(** The processing engine, an external collaborator: the contents of
    files, the state of its virtual file system, and its three
    operations. *)
Context {data : Type} {engineState : Type}.
Variable writeFile : string -> data -> engineState -> outcome unit * engineState.
Variable exec : list string -> engineState -> outcome unit * engineState.
Variable readFile : string -> engineState -> outcome data * engineState.

(** [videoFile]: its name and what [fetchFile] reads from it. *)
Record videoFile : Type := mkVideo { fileName : string; contents : data }.

(** An element of [clips].  [url] and [thumbUrl] stand for the object
    URLs of the blobs, [None] for the empty [thumbUrl]; the random [id]
    is left out. *)
Record clip : Type := mkClip {
  url : data;
  thumbUrl : option data;
  name : string;
  index : nat;
  startTime : Q;
  endTime : Q;
  duration : Q
}.

(** An element of [history] (without its clock values). *)
Record historyEntry : Type := mkHistory { historyName : string; clipsCount : nat }.

(** The state the driver reads and writes: the ref [shouldProcessRef],
    the React state it sets, and the engine.  [execLog] is a ghost
    trace of the argument arrays passed to [ffmpeg.exec], oldest
    first. *)
Record appState : Type := mkApp {
  shouldProcess : bool;
  isProcessing : bool;
  progress : Q;
  currentTask : string;
  clips : list clip;
  appMessage : message;
  history : list historyEntry;
  engine : engineState;
  execLog : list (list string)
}.

Definition setShouldProcess (b : bool) (st : appState) : appState :=
  mkApp b (isProcessing st) (progress st) (currentTask st) (clips st)
        (appMessage st) (history st) (engine st) (execLog st).
Definition setIsProcessing (b : bool) (st : appState) : appState :=
  mkApp (shouldProcess st) b (progress st) (currentTask st) (clips st)
        (appMessage st) (history st) (engine st) (execLog st).
Definition setProgress (x : Q) (st : appState) : appState :=
  mkApp (shouldProcess st) (isProcessing st) x (currentTask st) (clips st)
        (appMessage st) (history st) (engine st) (execLog st).
Definition setCurrentTask (t : string) (st : appState) : appState :=
  mkApp (shouldProcess st) (isProcessing st) (progress st) t (clips st)
        (appMessage st) (history st) (engine st) (execLog st).
Definition setClips (l : list clip) (st : appState) : appState :=
  mkApp (shouldProcess st) (isProcessing st) (progress st) (currentTask st) l
        (appMessage st) (history st) (engine st) (execLog st).
Definition setMessage (m : message) (st : appState) : appState :=
  mkApp (shouldProcess st) (isProcessing st) (progress st) (currentTask st)
        (clips st) m (history st) (engine st) (execLog st).
Definition addHistory (h : historyEntry) (st : appState) : appState :=
  mkApp (shouldProcess st) (isProcessing st) (progress st) (currentTask st)
        (clips st) (appMessage st) (h :: history st) (engine st) (execLog st).
Definition setEngine (e : engineState) (st : appState) : appState :=
  mkApp (shouldProcess st) (isProcessing st) (progress st) (currentTask st)
        (clips st) (appMessage st) (history st) e (execLog st).
Definition logExec (args : list string) (st : appState) : appState :=
  mkApp (shouldProcess st) (isProcessing st) (progress st) (currentTask st)
        (clips st) (appMessage st) (history st) (engine st)
        (execLog st ++ [args])%list.

(** Computations of the driver: they read and write the state and
    either return or throw. *)
Definition M (A : Type) : Type := appState -> outcome A * appState.

Definition ret {A} (a : A) : M A := fun st => (Returned a, st).
Definition bind {A B} (m : M A) (k : A -> M B) : M B :=
  fun st =>
    match m st with
    | (Returned a, st') => k a st'
    | (Thrown msg, st') => (Thrown msg, st')
    end.
Definition update (f : appState -> appState) : M unit :=
  fun st => (Returned tt, f st).
Definition read {A} (f : appState -> A) : M A :=
  fun st => (Returned (f st), st).
(** [try { body } catch (e) { handler(e.message) }]. *)
Definition tryCatch {A} (body : M A) (handler : string -> M A) : M A :=
  fun st =>
    match body st with
    | (Returned a, st') => (Returned a, st')
    | (Thrown msg, st') => handler msg st'
    end.

Notation "x <- m ;; k" := (bind m (fun x => k))
  (at level 61, m at next level, right associativity).
Notation "m ;;; k" := (bind m (fun _ => k))
  (at level 61, right associativity).

(** [await ffmpeg.exec(args)]. *)
Definition ffmpegExec (args : list string) : M unit :=
  fun st =>
    let '(r, e) := exec args (engine st) in
    (r, setEngine e (logExec args st)).

(** [await ffmpeg.readFile(name)]. *)
Definition ffmpegReadFile (fname : string) : M data :=
  fun st => let '(r, e) := readFile fname (engine st) in (r, setEngine e st).

(** [await ffmpeg.writeFile(name, bytes)]. *)
Definition ffmpegWriteFile (fname : string) (bytes : data) : M unit :=
  fun st => let '(r, e) := writeFile fname bytes (engine st) in (r, setEngine e st).

(** [cancelProcessing], the handler of the cancel button. *)
Definition cancelProcessing : M unit :=
  update (fun st =>
    setMessage (mkMessage "Membatalkan proses..." info) (setShouldProcess false st)).

(** What the user does while the driver is suspended in an [await]:
    the cancel button is pressed, or it is not. *)
Definition userEvent (pressed : bool) : M unit :=
  if pressed then cancelProcessing else ret tt.

(** The user during one job: whether the cancel button is pressed
    while the input file is written, and whether it is pressed while
    interval [i] is processed. *)
Record user : Type := mkUser {
  cancelBefore : bool;
  cancelDuring : nat -> bool
}.

(** The cancel button has been pressed by the end of pass [j]. *)
Definition pressedBy (u : user) (j : nat) : bool :=
  cancelBefore u || existsb (cancelDuring u) (seq 0 (S j)).

Section Job.

Variable file : videoFile.
Variable ts : Planner.trimSettings.
Variable ps : Builder.premiumSettings.
Variable u : user.

Definition inputName : string := "input_" ++ fileName file.

Definition taskText (i total : nat) : string :=
  "Memotong bagian " ++ JS.natString (Z.of_nat (i + 1)) ++ " dari "
    ++ JS.natString (Z.of_nat total) ++ "...".

(** The thumbnail of the interval: [Some] blob, or [None] when the
    extraction or the read throws. *)
Definition makeThumbnail (i : nat) (iv : Planner.interval) : M (option data) :=
  let thumbName := "thumb_" ++ JS.natString (Z.of_nat i) ++ ".jpg" in
  tryCatch
    (ffmpegExec (Builder.thumbArgs inputName thumbName iv) ;;;
     thumbData <- ffmpegReadFile thumbName ;;
     ret (Some thumbData))
    (fun _ => ret None).

(** The body of the [for] loop after the cancellation check. *)
Definition processInterval (i total : nat) (iv : Planner.interval)
    (generatedClips : list clip) : M (list clip) :=
  let start := Planner.start iv in
  let end_ := Planner.end_ iv in
  let clipDur := (end_ - start)%Q in
  let outputName := Names.generateClipName (fileName file) (Planner.template ts)
                      i start end_ in
  update (setCurrentTask (taskText i total)) ;;;
  userEvent (cancelDuring u i) ;;;
  ffmpegExec (Builder.buildArgs ts ps inputName outputName iv) ;;;
  bytes <- ffmpegReadFile outputName ;;
  thumb <- makeThumbnail i iv ;;
  let newClip := mkClip bytes thumb outputName i start end_ clipDur in
  let generatedClips' := (generatedClips ++ [newClip])%list in
  update (setClips generatedClips') ;;;
  update (setProgress ((inject_Z (Z.of_nat (i + 1))
                        / inject_Z (Z.of_nat total)) * 100)%Q) ;;;
  ret generatedClips'.

(** [for (let i = 0; i < intervals.length; i++)], from index [i] on;
    [rest] are the intervals not yet visited. *)
Fixpoint forIntervals (i total : nat) (rest : list Planner.interval)
    (generatedClips : list clip) : M (list clip) :=
  match rest with
  | [] => ret generatedClips
  | iv :: rest' =>
      keepGoing <- read shouldProcess ;;
      if negb keepGoing && Nat.ltb 0 i then
        update (setMessage (mkMessage "Proses dibatalkan." info)) ;;;
        ret generatedClips
      else
        generatedClips' <- processInterval i total iv generatedClips ;;
        forIntervals (S i) total rest' generatedClips'
  end.

(** The [try] block of [processVideo], given the planned
    intervals. *)
Definition tryBlock (intervals : list Planner.interval) : M unit :=
  update (setCurrentTask "Menyiapkan file...") ;;;
  userEvent (cancelBefore u) ;;;
  ffmpegWriteFile inputName (contents file) ;;;
  if Nat.eqb (List.length intervals) 0 then
    update (setMessage (mkMessage "Tidak ada klip yang dapat dibuat." error)) ;;;
    update (setIsProcessing false)
  else
    generatedClips <- forIntervals 0 (List.length intervals) intervals [] ;;
    keepGoing <- read shouldProcess ;;
    if keepGoing then
      update (addHistory (mkHistory (fileName file) (List.length generatedClips))) ;;;
      update (setMessage (mkMessage "Selesai! Semua klip telah diproses." success))
    else ret tt.

(** [processVideo] once the file is chosen and the engine loaded. *)
Definition runJob (intervals : list Planner.interval) : M unit :=
  update (setShouldProcess true) ;;;
  update (setIsProcessing true) ;;;
  update (setProgress 0) ;;;
  update (setClips []) ;;;
  tryCatch (tryBlock intervals)
    (fun msg => update (setMessage
       (mkMessage ("Terjadi kesalahan saat memproses: " ++ msg) error))) ;;;
  (* finally *)
  update (setIsProcessing false) ;;;
  update (setCurrentTask EmptyString) ;;;
  update (setShouldProcess false).

(** The name of the clip of interval [i]. *)
Definition clipName (i : nat) (iv : Planner.interval) : string :=
  Names.generateClipName (fileName file) (Planner.template ts) i
    (Planner.start iv) (Planner.end_ iv).

(** The name of the thumbnail of interval [i]. *)
Definition thumbName (i : nat) : string :=
  "thumb_" ++ JS.natString (Z.of_nat i) ++ ".jpg".

(** The clip recorded for interval [i] from the bytes of the main
    output and a thumbnail, if any. *)
Definition clipOf (i : nat) (iv : Planner.interval) (bytes : data)
    (thumb : option data) : clip :=
  mkClip bytes thumb (clipName i iv) i (Planner.start iv) (Planner.end_ iv)
         (Planner.end_ iv - Planner.start iv)%Q.

(** The clip [c] is the record of interval [i]. *)
Definition recordsInterval (i : nat) (iv : Planner.interval) (c : clip) : Prop :=
  name c = clipName i iv /\ index c = i /\
  startTime c = Planner.start iv /\ endTime c = Planner.end_ iv /\
  duration c = (Planner.end_ iv - Planner.start iv)%Q.

(** The clips [cs] are the records of the intervals [ivs], in their
    order, numbered from [i]. *)
Fixpoint recordsFrom (i : nat) (ivs : list Planner.interval) (cs : list clip)
    : Prop :=
  match ivs, cs with
  | [], [] => True
  | iv :: ivs', c :: cs' => recordsInterval i iv c /\ recordsFrom (S i) ivs' cs'
  | _, _ => False
  end.

(** The engine extracts interval [i] and gives its output back, in
    whatever state it is. *)
Definition extracts (i : nat) (iv : Planner.interval) : Prop :=
  forall e, exists e1 bytes e2,
    exec (Builder.buildArgs ts ps inputName (clipName i iv) iv) e
    = (Returned tt, e1) /\
    readFile (clipName i iv) e1 = (Returned bytes, e2).

(** The extraction of interval [i] fails with [msg], in whatever state
    the engine is. *)
Definition failsWith (i : nat) (iv : Planner.interval) (msg : string) : Prop :=
  forall e, exists e1,
    exec (Builder.buildArgs ts ps inputName (clipName i iv) iv) e
    = (Thrown msg, e1).

End Job.

(** [processVideo].  [None] when the planning loop does not finish
    within [fuel] passes. *)
Definition processVideo (fuel : nat) (file : option videoFile) (loaded : bool)
    (videoDuration : Q) (markers : list Q)
    (ts : Planner.trimSettings) (ps : Builder.premiumSettings) (u : user)
    (st : appState) : option appState :=
  match file with
  | None => Some st
  | Some f =>
      if negb loaded then Some st
      else
        match Planner.planIntervals fuel videoDuration markers ts with
        | None => None
        | Some intervals => Some (snd (runJob f ts ps u intervals st))
        end
  end.

End WithEngine.

(** A sample engine that never fails; reading a file gives back its
    name. *)
Definition okWrite (fname contents : string) (e : unit) : outcome unit * unit :=
  (Returned tt, e).
Definition okExec (args : list string) (e : unit) : outcome unit * unit :=
  (Returned tt, e).
Definition okRead (fname : string) (e : unit) : outcome string * unit :=
  (Returned fname, e).

(** A sample engine on which the extraction of a single frame fails. *)
Definition noThumbExec (args : list string) (e : unit) : outcome unit * unit :=
  if existsb (String.eqb "-vframes") args
  then (Thrown "frame extraction failed", e)
  else (Returned tt, e).

(** The state of the component once a file is loaded. *)
Definition loadedState : appState (data := string) (engineState := unit) :=
  mkApp false false 0 EmptyString [] (mkMessage "Video dimuat: movie.mp4" success)
        [] tt [].

Definition movie : videoFile := mkVideo "movie.mp4" "bytes of movie.mp4".

(** A user who never presses the cancel button, and one who presses it
    while the input file is being written. *)
Definition patientUser : user := mkUser false (fun _ => false).
Definition earlyCancelUser : user := mkUser true (fun _ => false).

(** A user who presses the cancel button while interval [j] is
    processed. *)
Definition cancelAt (j : nat) : user := mkUser false (Nat.eqb j).

(** A sample engine on which the extraction of the clips from 60 seconds
    on fails. *)
Definition shortExec (args : list string) (e : unit) : outcome unit * unit :=
  if existsb (String.eqb "60.000") args
  then (Thrown "out of memory", e)
  else (Returned tt, e).

End Driver.

(** ** The marker list *)

Module Markers.

(** [markers.includes(time)]: numbers are compared by value. *)
Definition includesTime (time : Q) (markers : list Q) : bool :=
  existsb (Qeq_bool time) markers.

(** [addMarker]; [currentTime] is [None] when there is no video
    element. *)
Definition addMarker (currentTime : option Q) (markers : list Q) : list Q :=
  match currentTime with
  | None => markers
  | Some time =>
      if includesTime time markers then markers
      else Planner.sort (markers ++ [time])
  end.

(** [l.filter((v, i) => keep(v, i))], the indices counted from [i0]. *)
Fixpoint filterIndexed {A : Type} (keep : A -> nat -> bool) (i0 : nat)
    (l : list A) : list A :=
  match l with
  | [] => []
  | v :: r =>
      if keep v i0 then v :: filterIndexed keep (S i0) r
      else filterIndexed keep (S i0) r
  end.

(** [removeMarker(index)]. *)
Definition removeMarker (index : nat) (markers : list Q) : list Q :=
  filterIndexed (fun _ i => negb (Nat.eqb i index)) 0 markers.

(** What the user does to the marker list of one video. *)
Inductive markerEvent : Type :=
| AddAt (time : Q)
| RemoveAt (index : nat).

Definition onMarkerEvent (markers : list Q) (ev : markerEvent) : list Q :=
  match ev with
  | AddAt time => addMarker (Some time) markers
  | RemoveAt index => removeMarker index markers
  end.

(** The marker list after a sequence of events, from the empty list
    that choosing a file leaves. *)
Definition markersAfter (events : list markerEvent) : list Q :=
  fold_left onMarkerEvent events [].

(** The playback position of an added marker lies within the video. *)
Definition eventWithin (d : Q) (ev : markerEvent) : Prop :=
  match ev with
  | AddAt time => 0 <= time /\ time <= d
  | RemoveAt _ => True
  end.

(** Strictly ascending above [lo]. *)
Fixpoint strictFrom (lo : Q) (l : list Q) : Prop :=
  match l with
  | [] => True
  | b :: r => lo < b /\ strictFrom b r
  end.

(** Strictly ascending: sorted, and no two markers equal. *)
Definition strictlyAscending (l : list Q) : Prop :=
  match l with
  | [] => True
  | a :: r => strictFrom a r
  end.

End Markers.

(** ** Times as shown to the user *)

Module Display.

Local Open Scope string_scope.

(** Truncation toward zero, the quotient of the [%] of JavaScript. *)
Definition jsTrunc (x : Q) : Z :=
  if Planner.Qltb x 0 then Qceiling x else Qfloor x.

(** [x % y] on numbers: the remainder has the sign of [x]. *)
Definition jsRem (x y : Q) : Q := x - y * inject_Z (jsTrunc (x / y)).

(** [v.toString().padStart(2, '0')]. *)
Definition pad2 (v : Z) : string := JS.padStart (JS.intString v) 2 "0".

(** [l.join(sep)]. *)
Fixpoint join (sep : string) (l : list string) : string :=
  match l with
  | [] => EmptyString
  | x :: r =>
      match r with
      | [] => x
      | _ :: _ => x ++ sep ++ join sep r
      end
  end.

(** [formatTime(seconds)], for times below 2^53 seconds, whose hours,
    minutes and seconds are printed with all their digits. *)
Definition formatTime (seconds : Q) : string :=
  let h := Qfloor (seconds / 3600) in
  let m := Qfloor (jsRem seconds 3600 / 60) in
  let s := Qfloor (jsRem seconds 60) in
  join ":"
    (Markers.filterIndexed
       (fun v i => negb (String.eqb v "00") || Nat.ltb 0 i) 0
       (map pad2 [h; m; s])).

End Display.

(** ** Loading the engine *)

Module Loader.

Local Open Scope string_scope.

(** The state [loadWithRetry] writes: [loaded] and [message]; two ghost
    counters record how often the engine's [load] was called and how
    often the one-second pause was taken. *)
Record loaderState : Type := mkLoader {
  loaded : bool;
  loaderMessage : Driver.message;
  loadCalls : nat;
  pauses : nat
}.

Section WithLoad.

(** Whether the [try] body of attempt [i] (the two [toBlobURL] calls
    and [ffmpeg.load]) resolves. *)
Variable load : nat -> bool.

(** The [for] loop of [loadWithRetry] from attempt [i] on, with
    [remaining] attempts left. *)
Fixpoint attempt (retries remaining i : nat) (st : loaderState)
    : bool * loaderState :=
  match remaining with
  | O => (false, st)
  | S remaining' =>
      let st1 :=
        mkLoader (loaded st)
          (Driver.mkMessage
             ("Memuat FFmpeg... (" ++ JS.natString (Z.of_nat (i + 1)) ++ "/"
                ++ JS.natString (Z.of_nat retries) ++ ")") Driver.info)
          (S (loadCalls st)) (pauses st) in
      if load i then
        (true, mkLoader true (Driver.mkMessage "FFmpeg siap!" Driver.success)
                 (loadCalls st1) (pauses st1))
      else if Nat.eqb i (retries - 1) then
        (false,
         mkLoader (loaded st1)
           (Driver.mkMessage
              "Gagal memuat FFmpeg. Pastikan browser mendukung SharedArrayBuffer."
              Driver.error)
           (loadCalls st1) (pauses st1))
      else
        attempt retries remaining' (S i)
          (mkLoader (loaded st1) (loaderMessage st1) (loadCalls st1)
             (S (pauses st1)))
  end.

(** [loadWithRetry(retries)]. *)
Definition loadWithRetry (retries : nat) (st : loaderState) : bool * loaderState :=
  attempt retries retries 0 st.

(** [loadFFmpeg]: the default of three attempts. *)
Definition loadFFmpeg (st : loaderState) : loaderState :=
  snd (loadWithRetry 3 st).

End WithLoad.

End Loader.

(** ** The archive of all clips *)

Module Archive.

Local Open Scope string_scope.

(** [s.split('.')[0]]. *)
Fixpoint firstSegment (s : string) : string :=
  match s with
  | EmptyString => EmptyString
  | String c t => if Ascii.eqb c "." then EmptyString else String c (firstSegment t)
  end.

(** The download name of the archive in [handleDownloadAll]. *)
Definition zipName (fileName : string) : string :=
  firstSegment fileName ++ "_clips.zip".

End Archive.

(** ** The first version of the component *)

Module Legacy.

Local Open Scope string_scope.

(** An element of [clips] (without its object URL). *)
Record clip : Type := mkClip {
  name : string;
  index : nat;
  startTime : Q;
  endTime : Q
}.

Definition clipDuration : Q := 30.

(** [Math.ceil(duration / clipDuration)]. *)
Definition numberOfClips (duration : Q) : Z := Qceiling (duration / clipDuration).

(** The clip pushed in pass [i]. *)
Definition clipAt (duration : Q) (i : nat) : clip :=
  let startTime := inject_Z (Z.of_nat i) * clipDuration in
  mkClip ("clip-" ++ JS.natString (Z.of_nat (i + 1)) ++ ".mp4") i startTime
         (Qmin (startTime + clipDuration) duration).

(** The arguments of the extraction of pass [i]. *)
Definition execArgs (fileName : string) (duration : Q) (i : nat) : list string :=
  ["-ss"; JS.natString (Z.of_nat i * 30); "-i"; fileName; "-t"; "30";
   "-c"; "copy"; name (clipAt duration i)].

(** [for (let i = 0; i < numberOfClips; i++)], from pass [i] on with
    [remaining] passes left. *)
Fixpoint clipLoop (duration : Q) (remaining i : nat) (generatedClips : list clip)
    : list clip :=
  match remaining with
  | O => generatedClips
  | S remaining' =>
      clipLoop duration remaining' (S i) (generatedClips ++ [clipAt duration i])
  end.

(** The clips of a video of the given duration once every extraction
    has succeeded. *)
Definition generatedClips (duration : Q) : list clip :=
  clipLoop duration (Z.to_nat (numberOfClips duration)) 0 [].

(** The part of the video a clip stands for. *)
Definition clipInterval (c : clip) : Planner.interval :=
  Planner.mkInterval (startTime c) (endTime c).

End Legacy.

(** ** The settings panels *)

Module Settings.

Local Open Scope string_scope.

(** The options of the selector of the clip duration, and the number
    [parseFloat] reads from the value of each. *)
Inductive durationOption : Type := Seconds15 | Seconds30 | Seconds60 | Seconds90.

Definition durationValue (o : durationOption) : Q :=
  match o with
  | Seconds15 => 15
  | Seconds30 => 30
  | Seconds60 => 60
  | Seconds90 => 90
  end.

(** The options of the selector of the remainder policy. *)
Inductive autoFitOption : Type := Merge | Discard.

Definition autoFitValue (o : autoFitOption) : string :=
  match o with
  | Merge => "merge"
  | Discard => "discard"
  end.

(** What the user does on the two settings panels. *)
Inductive settingsEvent : Type :=
| SelectDuration (o : durationOption)
| SelectAutoFit (o : autoFitOption)
| ClickCopy
| ClickEncode
| EditTemplate (t : string)
| ToggleResize
| ToggleNormalize
| EditWatermark (w : string).

Record settings : Type := mkSettings {
  trim : Planner.trimSettings;
  premium : Builder.premiumSettings
}.

(** The two [useState] initial values. *)
Definition initialSettings : settings :=
  mkSettings Planner.defaultTrim Builder.defaultPremium.

(** The [onChange] and [onClick] handlers of the panels. *)
Definition onEvent (s : settings) (ev : settingsEvent) : settings :=
  let ts := trim s in
  let ps := premium s in
  match ev with
  | SelectDuration o =>
      mkSettings (Planner.mkTrim (durationValue o) (Planner.autoFit ts)
                    (Planner.remainderThreshold ts) (Planner.mode ts)
                    (Planner.template ts)) ps
  | SelectAutoFit o =>
      mkSettings (Planner.mkTrim (Planner.duration ts) (autoFitValue o)
                    (Planner.remainderThreshold ts) (Planner.mode ts)
                    (Planner.template ts)) ps
  | ClickCopy =>
      mkSettings (Planner.mkTrim (Planner.duration ts) (Planner.autoFit ts)
                    (Planner.remainderThreshold ts) "copy" (Planner.template ts)) ps
  | ClickEncode =>
      mkSettings (Planner.mkTrim (Planner.duration ts) (Planner.autoFit ts)
                    (Planner.remainderThreshold ts) "encode" (Planner.template ts)) ps
  | EditTemplate t =>
      mkSettings (Planner.mkTrim (Planner.duration ts) (Planner.autoFit ts)
                    (Planner.remainderThreshold ts) (Planner.mode ts) t) ps
  | ToggleResize =>
      mkSettings ts
        (Builder.mkPremium (Builder.watermark ps)
           (if String.eqb (Builder.resize ps) "9:16" then "none" else "9:16")
           (Builder.normalize ps) (Builder.quality ps))
  | ToggleNormalize =>
      mkSettings ts
        (Builder.mkPremium (Builder.watermark ps) (Builder.resize ps)
           (negb (Builder.normalize ps)) (Builder.quality ps))
  | EditWatermark w =>
      mkSettings ts
        (Builder.mkPremium w (Builder.resize ps) (Builder.normalize ps)
           (Builder.quality ps))
  end.

(** The settings after a sequence of events. *)
Definition settingsAfter (events : list settingsEvent) : settings :=
  fold_left onEvent events initialSettings.

(** What holds of the settings whatever the user does. *)
Definition reachable (s : settings) : Prop :=
  In (Planner.duration (trim s)) [15; 30; 60; 90] /\
  Planner.knownPolicy (trim s) /\
  Planner.remainderThreshold (trim s) = 5 /\
  (Planner.mode (trim s) = "copy" \/ Planner.mode (trim s) = "encode") /\
  Builder.validResize (premium s) /\
  Builder.quality (premium s) = "Medium".

End Settings.

(** ** Numbers as the engine has them *)

Module Double.

(** A JavaScript number: a finite double, given by its exact rational
    value, an infinity, or [NaN].  The sign of a zero is not kept. *)
Inductive number : Type :=
| Finite (q : Q)
| PosInfinity
| NegInfinity
| NaN.

Definition zero : number := Finite 0.

(** [floor(log2 x)] of a positive rational. *)
Definition ilog2 (x : Q) : Z :=
  let l := (Z.log2 (Qnum x) - Z.log2 (Zpos (Qden x)))%Z in
  if Qle_bool (2 ^ l) x then l else (l - 1)%Z.

(** The exponent of the unit in the last place at [x]: 53 significant
    bits, and no exponent below that of the subnormal numbers. *)
Definition ulpExp (x : Q) : Z := Z.max (-1074) (ilog2 (Qabs x) - 52).

(** The nearest integer, the even one of two at equal distance. *)
Definition rne (y : Q) : Z :=
  let f := Qfloor y in
  match Qcompare (y - inject_Z f) (1 # 2) with
  | Lt => f
  | Gt => (f + 1)%Z
  | Eq => if Z.even f then f else (f + 1)%Z
  end.

(** Rounding to the nearest double (ties to even), the exponent not yet
    bounded above. *)
Definition roundQ (x : Q) : Q :=
  if Qeq_bool x 0 then 0
  else inject_Z (rne (x / 2 ^ ulpExp x)) * 2 ^ ulpExp x.

(** [Number.MAX_VALUE]. *)
Definition maxDouble : Q := inject_Z (2 ^ 53 - 1) * 2 ^ 971.

(** The double that an exact result is rounded to; beyond the largest
    double it is an infinity. *)
Definition round (x : Q) : number :=
  let r := roundQ x in
  if Planner.Qltb maxDouble r then PosInfinity
  else if Planner.Qltb r (- maxDouble) then NegInfinity
  else Finite r.

(** [a + b]. *)
Definition add (a b : number) : number :=
  match a, b with
  | NaN, _ | _, NaN => NaN
  | Finite x, Finite y => round (x + y)
  | PosInfinity, NegInfinity | NegInfinity, PosInfinity => NaN
  | PosInfinity, _ | _, PosInfinity => PosInfinity
  | NegInfinity, _ | _, NegInfinity => NegInfinity
  end.

(** [- a]. *)
Definition opp (a : number) : number :=
  match a with
  | Finite x => Finite (- x)
  | PosInfinity => NegInfinity
  | NegInfinity => PosInfinity
  | NaN => NaN
  end.

(** [a - b]. *)
Definition sub (a b : number) : number := add a (opp b).

(** [a < b]. *)
Definition ltb (a b : number) : bool :=
  match a, b with
  | NaN, _ | _, NaN => false
  | Finite x, Finite y => Planner.Qltb x y
  | _, NegInfinity => false
  | NegInfinity, _ => true
  | PosInfinity, _ => false
  | _, PosInfinity => true
  end.

(** [a <= b]. *)
Definition leb (a b : number) : bool :=
  match a, b with
  | NaN, _ | _, NaN => false
  | Finite x, Finite y => Qle_bool x y
  | NegInfinity, _ => true
  | _, PosInfinity => true
  | _, NegInfinity => false
  | PosInfinity, _ => false
  end.

(** [a > b] and [a >= b]. *)
Definition gtb (a b : number) : bool := ltb b a.
Definition geb (a b : number) : bool := leb b a.

(** [Math.min(a, b)]. *)
Definition min (a b : number) : number :=
  match a, b with
  | NaN, _ | _, NaN => NaN
  | _, _ => if leb a b then a else b
  end.

(** The literal [0.1]: the double 3602879701896397 / 2^55. *)
Definition tenthQ : Q := 3602879701896397 # 36028797018963968.
Definition tenth : number := Finite tenthQ.

(** The same value on both sides: [===] on numbers other than [NaN]. *)
Definition sameValue (a b : number) : Prop :=
  match a, b with
  | Finite x, Finite y => x == y
  | PosInfinity, PosInfinity => True
  | NegInfinity, NegInfinity => True
  | NaN, NaN => True
  | _, _ => False
  end.

(** The same number with its fraction in lowest terms. *)
Definition canon (a : number) : number :=
  match a with
  | Finite q => Finite (Qred q)
  | _ => a
  end.

End Double.

(** ** The planner in double arithmetic *)

Module Planner64.

Import Double.

(** [{ start, end }], the objects pushed onto [intervals]. *)
Record interval : Type := mkInterval { start : number; end_ : number }.

(** [Array.prototype.sort((a, b) => a - b)] as in [Planner.sort]: the
    difference of two doubles is positive exactly when the first is the
    larger.  (With a [NaN] in the array the order depends on the
    engine; the properties below take arrays without one.) *)
Fixpoint insert (x : number) (l : list number) : list number :=
  match l with
  | [] => [x]
  | y :: l' => if leb x y then x :: y :: l' else y :: insert x l'
  end.

Definition sort (l : list number) : list number := fold_right insert [] l.

(** The test [m > lastTime + 0.1] of the marker loop. *)
Definition guard (lastTime m : number) : bool := gtb m (add lastTime tenth).

(** The marker loop:
      for (let m of sortedMarkers) {
        if (m > lastTime + 0.1) intervals.push({ start: lastTime, end: m });
        lastTime = m;
      } *)
Fixpoint markerLoop (sortedMarkers : list number) (lastTime : number)
    (intervals : list interval) : list interval :=
  match sortedMarkers with
  | [] => intervals
  | m :: rest =>
      let intervals' :=
        if guard lastTime m
        then intervals ++ [mkInterval lastTime m]
        else intervals in
      markerLoop rest m intervals'
  end.

(** "Split by markers". *)
Definition splitByMarkers (videoDuration : number) (markers : list number)
    : list interval :=
  markerLoop (sort (markers ++ [videoDuration])) zero [].

(** State of the "auto split" loop. *)
Record loopState : Type := mkLoop { current : number; intervals : list interval }.

Inductive bodyResult : Type :=
| Continue (s : loopState)
| Break (s : loopState).

Section AutoSplit.

Variable videoDuration : number.  (* [duration]: what the video element reports *)
Variable ts : Planner.trimSettings.

(** [parseFloat(trimSettings.duration)] and
    [parseFloat(trimSettings.remainderThreshold)]: finite doubles. *)
Let clipDur : number := Finite (Planner.duration ts).
Let threshold : number := Finite (Planner.remainderThreshold ts).

(** One pass through the body of [while (current < duration)]. *)
Definition loopBody (s : loopState) : bodyResult :=
  let end0 := min (add (current s) clipDur) videoDuration in
  let remainder := sub videoDuration end0 in
  let push e := intervals s ++ [mkInterval (current s) e] in
  let finish e :=
    (* intervals.push({start: current, end}); current = end;
       if (current >= duration) break; *)
    if geb e videoDuration
    then Break (mkLoop e (push e))
    else Continue (mkLoop e (push e)) in
  if gtb remainder zero && ltb remainder threshold then
    if String.eqb (Planner.autoFit ts) "merge" then finish videoDuration
    else if String.eqb (Planner.autoFit ts) "discard" then
      Break (mkLoop videoDuration (push end0))
    else finish end0
  else finish end0.

(** The [while] loop, bounded by [fuel] passes; [None] when the fuel
    does not suffice.  The second component counts the passes made. *)
Fixpoint autoSplitLoop (fuel : nat) (s : loopState) (passes : nat)
    : option (loopState * nat) :=
  if ltb (current s) videoDuration then
    match fuel with
    | O => None
    | S fuel' =>
        match loopBody s with
        | Break s' => Some (s', S passes)
        | Continue s' => autoSplitLoop fuel' s' (S passes)
        end
    end
  else Some (s, passes).

(** "Auto split by duration". *)
Definition autoSplit (fuel : nat) : option (list interval) :=
  option_map (fun r => intervals (fst r)) (autoSplitLoop fuel (mkLoop zero []) 0).

(** The remainder [duration - end] that the pass starting at the start
    of [iv] computes, and its test against the threshold. *)
Definition remainderOf (iv : interval) : number :=
  sub videoDuration (min (add (start iv) clipDur) videoDuration).

Definition belowThreshold (iv : interval) : bool :=
  gtb (remainderOf iv) zero && ltb (remainderOf iv) threshold.

End AutoSplit.

(** The planning part of [processVideo]. *)
Definition planIntervals (fuel : nat) (videoDuration : number)
    (markers : list number) (ts : Planner.trimSettings)
    : option (list interval) :=
  if Nat.ltb 0 (List.length markers)
  then Some (splitByMarkers videoDuration markers)
  else autoSplit videoDuration ts fuel.

(** A number of passes that suffices when every sum advances the cursor
    by half a clip length at least: [ceil(2 * duration / clipDur)]. *)
Definition passBound (videoDuration : Q) (ts : Planner.trimSettings) : nat :=
  Z.to_nat (Qceiling (2 * videoDuration / Planner.duration ts)).

(** An interval with finite ends. *)
Definition fromQ (iv : Planner.interval) : interval :=
  mkInterval (Finite (Planner.start iv)) (Finite (Planner.end_ iv)).

(** The same intervals with every fraction in lowest terms. *)
Definition canonical (l : list interval) : list interval :=
  map (fun iv => mkInterval (canon (start iv)) (canon (end_ iv))) l.

(** [intervals[0].start == 0], [intervals[i].end == intervals[i+1].start]
    for all [i], and [intervals[last].end == d]. *)
Definition sequenceInvariant (d : number) (l : list interval) : Prop :=
  (exists iv, nth_error l 0 = Some iv /\ sameValue (start iv) zero) /\
  (forall i a b, nth_error l i = Some a -> nth_error l (S i) = Some b ->
                 sameValue (end_ a) (start b)) /\
  (exists iv, nth_error l (pred (List.length l)) = Some iv /\
              sameValue (end_ iv) d).

(** [l] leads from [a] to [b], each interval starting with the very
    end of its predecessor. *)
Fixpoint linked (a : number) (l : list interval) (b : number) : Prop :=
  match l with
  | [] => a = b
  | iv :: l' => start iv = a /\ linked (end_ iv) l' b
  end.

(** What the loop keeps between passes, and how it ends. *)
Definition loopInv (d : number) (ts : Planner.trimSettings) (s : loopState)
    : Prop :=
  ltb (current s) d = true /\
  linked zero (intervals s) (current s) /\
  Forall (fun iv => leb (end_ iv) d = true) (intervals s) /\
  (Planner.autoFit ts = "discard"%string ->
   Forall (fun iv => belowThreshold d ts iv = false) (intervals s)).

Definition loopPost (d : number) (ts : Planner.trimSettings) (s : loopState)
    : Prop :=
  exists l final,
    intervals s = l ++ [final] /\
    linked zero (intervals s) (end_ final) /\
    Forall (fun iv => leb (end_ iv) d = true) (intervals s) /\
    (Planner.autoFit ts <> "discard"%string -> sameValue (end_ final) d) /\
    (Planner.autoFit ts = "discard"%string ->
       Forall (fun iv => belowThreshold d ts iv = false) l /\
       (ltb (end_ final) d = true <-> belowThreshold d ts final = true)).

(** The rounding slack around the 0.1 of the marker test for boundaries
    up to [d]. *)
Definition slack (d : Q) : Q := (d + 1) * 2 ^ (-52).

(** No boundary lies a positive distance of at most 0.1 + [m] after its
    predecessor. *)
Fixpoint clearGaps (m : Q) (prev : Q) (bs : list Q) : Prop :=
  match bs with
  | [] => True
  | b :: r => (b <= prev \/ prev + (1 # 10) + m < b) /\ clearGaps m b r
  end.

(** Every boundary lies more than 0.1 + [m] after its predecessor. *)
Fixpoint wideGaps (m : Q) (prev : Q) (bs : list Q) : Prop :=
  match bs with
  | [] => True
  | b :: r => prev + (1 # 10) + m < b /\ wideGaps m b r
  end.

(** No distance between a boundary and its predecessor lies within [m]
    of 0.1. *)
Fixpoint noBand (m : Q) (prev : Q) (bs : list Q) : Prop :=
  match bs with
  | [] => True
  | b :: r =>
      (b < prev + (1 # 10) - m \/ prev + (1 # 10) + m < b) /\ noBand m b r
  end.

(** The boundaries that pass the test of the loop, and those that do
    not. *)
Fixpoint noSliver (prev : Q) (bs : list Q) : Prop :=
  match bs with
  | [] => True
  | b :: r =>
      (b <= prev \/ guard (Finite prev) (Finite b) = true) /\ noSliver b r
  end.

Fixpoint allClose (prev : Q) (bs : list Q) : Prop :=
  match bs with
  | [] => True
  | b :: r => guard (Finite prev) (Finite b) = false /\ allClose b r
  end.

(** Every boundary lies less than [g] after its predecessor, and every
    boundary lies at most [g] after it. *)
Fixpoint gapsBelow (g : Q) (prev : Q) (bs : list Q) : Prop :=
  match bs with
  | [] => True
  | b :: r => b < prev + g /\ gapsBelow g b r
  end.

Fixpoint gapsWithin (g : Q) (prev : Q) (bs : list Q) : Prop :=
  match bs with
  | [] => True
  | b :: r => b <= prev + g /\ gapsWithin g b r
  end.

(** The number of boundaries that lie more than 0.1 after their
    predecessor in the sorted list (0 before the first). *)
Definition distantBoundaries (bs : list Q) : nat :=
  List.length
    (filter (fun p => Planner.Qltb (fst p + (1 # 10)) (snd p))
            (combine (0 :: bs) bs)).

End Planner64.

Import Planner.

(** * Properties of the planner *)

Lemma Qltb_lt x y : Qltb x y = true <-> x < y.
Proof.
  unfold Qltb. rewrite negb_true_iff.
  destruct (Qle_bool y x) eqn:E.
  - apply Qle_bool_iff in E. split; [discriminate | intros H; lra].
  - split; [intros _ | reflexivity].
    destruct (Qlt_le_dec x y) as [H | H]; [exact H |].
    apply Qle_bool_iff in H. congruence.
Qed.

Lemma Qltb_ge x y : Qltb x y = false <-> y <= x.
Proof.
  unfold Qltb. rewrite negb_false_iff. apply Qle_bool_iff.
Qed.

Lemma chain_snoc a l m b :
  chain a l m -> chain a (l ++ [mkInterval m b]) b.
Proof.
  revert a. induction l as [| iv l IH]; simpl; intros a H.
  - split; [symmetry; exact H | reflexivity].
  - destruct H as [H1 H2]. split; [exact H1 | apply IH; exact H2].
Qed.

Lemma chain_end_eq a l b b' : b == b' -> chain a l b -> chain a l b'.
Proof.
  intros E. revert a. induction l as [| iv l IH]; simpl; intros a H.
  - rewrite H. exact E.
  - destruct H as [H1 H2]. split; [exact H1 | apply IH; exact H2].
Qed.

Lemma chain_consecutive a l b i x y :
  chain a l b -> nth_error l i = Some x -> nth_error l (S i) = Some y ->
  end_ x == start y.
Proof.
  revert a i. induction l as [| iv l IH]; intros a i H Hx Hy.
  - destruct i; discriminate.
  - destruct H as [_ H]. destruct i as [| i].
    + simpl in Hx. injection Hx as <-. destruct l as [| iv' l]; [discriminate |].
      simpl in Hy. injection Hy as <-. destruct H as [H _]. symmetry. exact H.
    + simpl in Hx. exact (IH _ _ H Hx Hy).
Qed.

Lemma chain_last a l b :
  l <> [] -> chain a l b ->
  exists iv, nth_error l (pred (List.length l)) = Some iv /\ end_ iv == b.
Proof.
  revert a. induction l as [| iv l IH]; intros a Hne H; [congruence |].
  destruct H as [_ H]. destruct l as [| iv' l].
  - exists iv. split; [reflexivity | exact H].
  - destruct (IH (end_ iv)) as [z [Hz1 Hz2]]; [discriminate | exact H |].
    exists z. split; [exact Hz1 | exact Hz2].
Qed.

Lemma chain_invariant d l :
  l <> [] -> chain 0 l d -> sequenceInvariant d l.
Proof.
  intros Hne H. repeat split.
  - destruct l as [| iv l]; [congruence |]. exists iv.
    split; [reflexivity | apply H].
  - intros i x y. apply (chain_consecutive _ _ _ _ _ _ H).
  - apply (chain_last _ _ _ Hne H).
Qed.

Lemma invariant_chain_from a d l :
  (exists iv, nth_error l 0 = Some iv /\ start iv == a) ->
  (forall i x y, nth_error l i = Some x -> nth_error l (S i) = Some y ->
                 end_ x == start y) ->
  (exists iv, nth_error l (pred (List.length l)) = Some iv /\ end_ iv == d) ->
  chain a l d.
Proof.
  revert a. induction l as [| x l IH]; intros a [iv [H0 Hs]] Hc [z [Hz Hd]].
  - discriminate.
  - simpl in H0. injection H0 as <-. split; [exact Hs |].
    destruct l as [| y l].
    + simpl in Hz. injection Hz as <-. exact Hd.
    + apply IH.
      * exists y. split; [reflexivity |]. symmetry. apply (Hc 0%nat x y); reflexivity.
      * intros i u v Hu Hv. apply (Hc (S i) u v); assumption.
      * exists z. split; [exact Hz | exact Hd].
Qed.

Lemma invariant_chain d l : sequenceInvariant d l -> l <> [] /\ chain 0 l d.
Proof.
  intros [H0 [Hc Hl]]. split.
  - destruct H0 as [iv [H0 _]]. destruct l; discriminate.
  - apply invariant_chain_from; assumption.
Qed.

Lemma fuel_succ_Q (n : nat) : inject_Z (Z.of_nat (S n)) == inject_Z (Z.of_nat n) + 1.
Proof.
  rewrite Nat2Z.inj_succ. unfold Z.succ. rewrite inject_Z_plus. reflexivity.
Qed.

Section AutoSplitFacts.

Variable d : Q.
Variable ts : trimSettings.
Hypothesis clip_pos : 0 < duration ts.


(** The fuel [passBound] covers the whole length. *)
Lemma passBound_enough fuel :
  (passBound d ts <= fuel)%nat ->
  d - 0 <= inject_Z (Z.of_nat fuel) * duration ts.
Proof.
  intros Hf. unfold passBound in Hf.
  assert (H1 : d / duration ts <= inject_Z (Qceiling (d / duration ts)))
    by apply Qle_ceiling.
  assert (H2 : inject_Z (Qceiling (d / duration ts)) <= inject_Z (Z.of_nat fuel)).
  { rewrite <- Zle_Qle. lia. }
  assert (H3 : d == (d / duration ts) * duration ts).
  { field. lra. }
  rewrite H3 at 1. unfold Qminus. rewrite Qplus_0_r.
  apply Qmult_le_compat_r; lra.
Qed.

(** What one pass does, by cases. *)
Lemma loopBody_spec s :
  current s < d ->
  let end0 := Qmin (current s + duration ts) d in
  let push e := intervals s ++ [mkInterval (current s) e] in
  (loopBody d ts s = Continue (mkLoop end0 (push end0)) /\
     end0 == current s + duration ts /\ end0 < d /\
     (autoFit ts = "discard"%string ->
      ~ (0 < d - end0 /\ d - end0 < remainderThreshold ts)))
  \/ (exists e, loopBody d ts s = Break (mkLoop e (push e)) /\ e == d /\
                current s < e /\
                (autoFit ts = "discard"%string -> e = end0))
  \/ (autoFit ts = "discard"%string /\
      loopBody d ts s = Break (mkLoop d (push end0)) /\
      current s < end0 /\
      0 < d - end0 /\ d - end0 < remainderThreshold ts).
Proof.
  intros Hlt end0 push.
  assert (Hmin : end0 <= d) by apply Q.le_min_r.
  assert (Hcases : (end0 == current s + duration ts /\ current s + duration ts <= d)
                   \/ (end0 == d /\ d <= current s + duration ts)).
  { unfold end0. destruct (Q.min_spec (current s + duration ts) d) as [[H1 H2] | [H1 H2]].
    - left. split; [exact H2 | lra].
    - right. split; [exact H2 | exact H1]. }
  assert (Hcur : current s < end0) by (destruct Hcases as [[H1 _] | [H1 _]]; lra).
  assert (Hfin : forall e, (e = end0 \/ e = d) ->
     (if Qle_bool d e then Break (mkLoop e (push e)) else Continue (mkLoop e (push e)))
     = Continue (mkLoop end0 (push end0)) /\ e = end0 /\ end0 < d
     \/ (if Qle_bool d e then Break (mkLoop e (push e)) else Continue (mkLoop e (push e)))
        = Break (mkLoop e (push e)) /\ e == d).
  { intros e He. destruct (Qle_bool d e) eqn:E.
    - right. split; [reflexivity |]. apply Qle_bool_iff in E.
      destruct He as [-> | ->]; lra.
    - left. assert (Hed : e < d).
      { destruct (Qlt_le_dec e d) as [H | H]; [exact H |].
        apply Qle_bool_iff in H. congruence. }
      destruct He as [-> | ->]; [| lra].
      repeat split; try reflexivity. exact Hed. }
  unfold loopBody. fold end0. fold push.
  destruct (Qltb 0 (d - end0) && Qltb (d - end0) (remainderThreshold ts)) eqn:Erem.
  - apply andb_true_iff in Erem. destruct Erem as [E1 E2].
    apply Qltb_lt in E1. apply Qltb_lt in E2.
    destruct (String.eqb (autoFit ts) "merge") eqn:Em.
    + apply String.eqb_eq in Em.
      destruct (Hfin d (or_intror eq_refl)) as [[_ [H _]] | [H1 H2]].
      * exfalso. rewrite <- H in E1. lra.
      * right. left. exists d. split; [exact H1 |]. split; [reflexivity |].
        split; [exact Hlt |]. intros Hd. rewrite Hd in Em. discriminate.
    + destruct (String.eqb (autoFit ts) "discard") eqn:Edis.
      * apply String.eqb_eq in Edis. right. right. repeat split; assumption.
      * apply String.eqb_neq in Edis.
        destruct (Hfin end0 (or_introl eq_refl)) as [[H1 [_ H3]] | [H1 H2]].
        -- left. split; [exact H1 |]. split; [| split; [exact H3 |]].
           ++ destruct Hcases as [[Ha _] | [Ha _]]; [exact Ha | lra].
           ++ intros Hd. contradiction.
        -- right. left. exists end0. split; [exact H1 |]. split; [exact H2 |].
           split; [exact Hcur |]. reflexivity.
  - assert (Hnot : ~ (0 < d - end0 /\ d - end0 < remainderThreshold ts)).
    { intros [Ha Hb]. apply Qltb_lt in Ha. apply Qltb_lt in Hb.
      rewrite Ha, Hb in Erem. discriminate. }
    destruct (Hfin end0 (or_introl eq_refl)) as [[H1 [_ H3]] | [H1 H2]].
    + left. split; [exact H1 |]. split; [| split; [exact H3 |]].
      * destruct Hcases as [[Ha _] | [Ha _]]; [exact Ha | lra].
      * intros _. exact Hnot.
    + right. left. exists end0. split; [exact H1 |]. split; [exact H2 |].
      split; [exact Hcur |]. reflexivity.
Qed.

End AutoSplitFacts.

Lemma within_weaken a b l : a <= b -> Forall (within a) l -> Forall (within b) l.
Proof.
  intros Hab H. induction H as [| iv l [H1 [H2 H3]] _ IH]; constructor.
  - repeat split; [exact H1 | exact H2 | lra].
  - exact IH.
Qed.

Lemma autoSplitLoop_more_fuel d ts fuel fuel' s k r :
  (fuel <= fuel')%nat ->
  autoSplitLoop d ts fuel s k = Some r -> autoSplitLoop d ts fuel' s k = Some r.
Proof.
  revert fuel' s k. induction fuel as [| fuel IH]; intros fuel' s k Hle H.
  - simpl in H. destruct fuel'; simpl;
      destruct (Qltb (current s) d); try discriminate; exact H.
  - destruct fuel' as [| fuel']; [lia |]. simpl in H |- *.
    destruct (Qltb (current s) d); [| exact H].
    destruct (loopBody d ts s) as [s' | s']; [| exact H].
    apply IH; [lia | exact H].
Qed.

Lemma loopBody_keeps d ts s :
  0 < duration ts -> loopInv d s -> current s < d ->
  match loopBody d ts s with
  | Continue s' => loopInv d s' /\ current s + duration ts <= current s'
  | Break s' => loopPost d ts s'
  end.
Proof.
  intros Hc [_ [H0 [Hch Hw]]] Hlt.
  destruct (loopBody_spec d ts Hc s Hlt)
    as [[-> [He [Hed _]]] | [[e [-> [He [Hce Hd]]]] | [Hdis [-> [Hce [Hr1 Hr2]]]]]].
  - split; [| simpl; lra]. unfold loopInv; simpl.
    split; [exact Hed |]. split; [lra |]. split; [apply chain_snoc; exact Hch |].
    apply Forall_app. split.
    + apply (within_weaken (current s)); [lra | exact Hw].
    + constructor; [| constructor]. unfold within; simpl. lra.
  - exists (intervals s), (mkInterval (current s) e). simpl.
    split; [reflexivity |]. split; [apply chain_snoc; exact Hch |].
    split; [| split; [lra |]].
    + apply Forall_app. split.
      * apply (within_weaken (current s)); [lra | exact Hw].
      * constructor; [| constructor]. unfold within; simpl. lra.
    + split; [intros _; exact He |].
      intros Hdis. specialize (Hd Hdis). unfold remainderOf; simpl.
      rewrite <- Hd. split; [intros H; lra | intros [H _]; lra].
  - exists (intervals s), (mkInterval (current s) (Qmin (current s + duration ts) d)).
    simpl. split; [reflexivity |]. split; [apply chain_snoc; exact Hch |].
    split; [| split; [lra |]].
    + apply Forall_app. split.
      * apply (within_weaken (current s)); [lra | exact Hw].
      * constructor; [| constructor]. unfold within; simpl. lra.
    + split; [intros Hn; contradiction |].
      intros _. unfold remainderOf; simpl. split; [intros _; split; assumption | intros _; lra].
Qed.


(** Whatever the fuel, a run that returns ends in the postcondition. *)
Lemma autoSplitLoop_partial d ts (Inv Post : loopState -> Prop) :
  (forall s, Inv s -> current s < d ->
     match loopBody d ts s with
     | Continue s' => Inv s'
     | Break s' => Post s'
     end) ->
  (forall s, Inv s -> d <= current s -> Post s) ->
  forall fuel s k s' n,
    Inv s -> autoSplitLoop d ts fuel s k = Some (s', n) -> Post s'.
Proof.
  intros Hbody Hexit. induction fuel as [| fuel IH]; intros s k s' n HI H.
  - simpl in H. destruct (Qltb (current s) d) eqn:E; [discriminate |].
    injection H as <- _. apply Hexit; [exact HI | apply Qltb_ge; exact E].
  - simpl in H. destruct (Qltb (current s) d) eqn:E.
    + apply Qltb_lt in E. specialize (Hbody s HI E).
      destruct (loopBody d ts s) as [s1 | s1].
      * apply (IH s1 (S k) s' n Hbody H).
      * injection H as <- _. exact Hbody.
    + injection H as <- _. apply Hexit; [exact HI | apply Qltb_ge; exact E].
Qed.

Lemma autoSplitLoop_post d ts fuel s n :
  0 < d -> 0 < duration ts ->
  autoSplitLoop d ts fuel (mkLoop 0 []) 0 = Some (s, n) -> loopPost d ts s.
Proof.
  intros Hd Hc H.
  apply (autoSplitLoop_partial d ts (loopInv d) (loopPost d ts)) with
    (fuel := fuel) (s := mkLoop 0 []) (k := 0%nat) (n := n).
  - intros s0 HI Hlt. pose proof (loopBody_keeps d ts s0 Hc HI Hlt) as Hk.
    destruct (loopBody d ts s0); [apply Hk | exact Hk].
  - intros s0 [HI _] Hge. lra.
  - unfold loopInv; simpl. repeat split; try lra. constructor.
  - exact H.
Qed.

Lemma last_cons_default (b : Q) r p : last (b :: r) p = last r b.
Proof.
  revert b p. induction r as [| c r IH]; intros b p; [reflexivity |].
  change (last (b :: c :: r) p) with (last (c :: r) p).
  rewrite !IH. reflexivity.
Qed.

Lemma markerLoop_acc bs prev acc :
  markerLoop bs prev acc = acc ++ markerLoop bs prev [].
Proof.
  revert prev acc. induction bs as [| b r IH]; intros prev acc; simpl.
  - symmetry. apply app_nil_r.
  - destruct (Qltb (prev + (1 # 10)) b).
    + rewrite (IH b (acc ++ _)), (IH b [_]). rewrite app_assoc. reflexivity.
    + apply IH.
Qed.

Lemma insert_ascending p x l : p <= x -> ascending p l -> ascending p (insert x l).
Proof.
  revert p. induction l as [| y l IH]; intros p Hpx H; simpl.
  - split; [exact Hpx | exact I].
  - destruct H as [Hpy H]. destruct (Qle_bool x y) eqn:E.
    + apply Qle_bool_iff in E. simpl. repeat split; assumption.
    + simpl. split; [exact Hpy |]. apply IH; [| exact H].
      destruct (Qlt_le_dec y x) as [Hlt | Hle]; [lra |].
      apply Qle_bool_iff in Hle. congruence.
Qed.

Lemma sort_ascending p l : Forall (fun m => p <= m) l -> ascending p (sort l).
Proof.
  induction 1 as [| x l Hx _ IH]; simpl; [exact I |].
  apply insert_ascending; assumption.
Qed.

Lemma insert_snoc x l d : x <= d -> insert x (l ++ [d]) = insert x l ++ [d].
Proof.
  intros Hx. induction l as [| y l IH]; simpl.
  - apply Qle_bool_iff in Hx. rewrite Hx. reflexivity.
  - destruct (Qle_bool x y); [reflexivity |]. rewrite IH. reflexivity.
Qed.

(** With every marker at most [d], the appended [d] stays last. *)
Lemma sort_snoc ms d :
  Forall (fun m => m <= d) ms -> sort (ms ++ [d]) = sort ms ++ [d].
Proof.
  induction 1 as [| x l Hx _ IH]; [reflexivity |].
  change (insert x (sort (l ++ [d])) = insert x (sort l) ++ [d]).
  rewrite IH. apply insert_snoc. exact Hx.
Qed.

Lemma markerLoop_chain bs prev acc a :
  ascending prev bs -> noSliver prev bs -> chain a acc prev ->
  chain a (markerLoop bs prev acc) (last bs prev).
Proof.
  revert prev acc. induction bs as [| b r IH]; intros prev acc Ha Hn Hc.
  - exact Hc.
  - rewrite last_cons_default. destruct Ha as [Hpb Ha]. destruct Hn as [Hb Hn].
    simpl. apply IH; [exact Ha | exact Hn |].
    destruct (Qltb (prev + (1 # 10)) b) eqn:E.
    + apply chain_snoc. exact Hc.
    + apply Qltb_ge in E. apply (chain_end_eq _ _ prev); [lra | exact Hc].
Qed.

Lemma sumLen_app l1 l2 : sumLen (l1 ++ l2) == sumLen l1 + sumLen l2.
Proof.
  induction l1 as [| iv l1 IH]; simpl; [lra | rewrite IH; lra].
Qed.

Lemma chain_sumLen a l b : chain a l b -> sumLen l == b - a.
Proof.
  revert a. induction l as [| iv l IH]; simpl; intros a H.
  - lra.
  - destruct H as [H1 H2]. rewrite (IH _ H2). lra.
Qed.

(** The emitted intervals never cover more than the span of the
    boundaries, and cover all of it only when no sliver was skipped. *)
Lemma markerLoop_sumLen bs prev :
  ascending prev bs ->
  sumLen (markerLoop bs prev []) <= last bs prev - prev /\
  (sumLen (markerLoop bs prev []) == last bs prev - prev -> noSliver prev bs).
Proof.
  revert prev. induction bs as [| b r IH]; intros prev Ha.
  - simpl. split; [lra | intros _; exact I].
  - rewrite last_cons_default. destruct Ha as [Hpb Ha].
    destruct (IH b Ha) as [IH1 IH2]. simpl markerLoop.
    destruct (Qltb (prev + (1 # 10)) b) eqn:E.
    + rewrite markerLoop_acc. rewrite sumLen_app. simpl sumLen.
      apply Qltb_lt in E. split; [lra |].
      intros Heq. split; [right; exact E | apply IH2; lra].
    + apply Qltb_ge in E. split; [lra |].
      intros Heq. split; [left; lra | apply IH2; lra].
Qed.

Lemma markerLoop_empty bs prev :
  markerLoop bs prev [] = [] <-> allClose prev bs.
Proof.
  revert prev. induction bs as [| b r IH]; intros prev; simpl.
  - split; [intros _; exact I | reflexivity].
  - destruct (Qltb (prev + (1 # 10)) b) eqn:E.
    + apply Qltb_lt in E. rewrite markerLoop_acc. split.
      * intros H. destruct (app_eq_nil _ _ H) as [H1 _]. discriminate.
      * intros [H _]. lra.
    + apply Qltb_ge in E. rewrite IH. split; [intros H; split; assumption | intros [_ H]; exact H].
Qed.

Lemma allClose_bound bs prev :
  allClose prev bs ->
  last bs prev <= prev + (1 # 10) * inject_Z (Z.of_nat (List.length bs)).
Proof.
  revert prev. induction bs as [| b r IH]; intros prev H.
  - cbn [last List.length]. change (inject_Z (Z.of_nat 0)) with 0. lra.
  - rewrite last_cons_default. destruct H as [H1 H2]. specialize (IH b H2).
    change (List.length (b :: r)) with (S (List.length r)).
    rewrite fuel_succ_Q. lra.
Qed.

Lemma markerLoop_length bs prev :
  List.length (markerLoop bs prev []) = countKept prev bs.
Proof.
  revert prev. induction bs as [| b r IH]; intros prev; simpl; [reflexivity |].
  destruct (Qltb (prev + (1 # 10)) b).
  - rewrite markerLoop_acc. rewrite length_app. rewrite IH. reflexivity.
  - rewrite IH. reflexivity.
Qed.

Lemma countKept_app l1 l2 p :
  countKept p (l1 ++ l2) = (countKept p l1 + countKept (last l1 p) l2)%nat.
Proof.
  revert p. induction l1 as [| b r IH]; intros p; [reflexivity |].
  rewrite last_cons_default. simpl. rewrite IH. lia.
Qed.

Lemma validMarkers_le d ms : validMarkers d ms -> Forall (fun m => m <= d) ms.
Proof. apply Forall_impl. intros m [_ H]. exact H. Qed.

Lemma validMarkers_boundaries d ms :
  0 <= d -> validMarkers d ms -> Forall (fun m => 0 <= m) (ms ++ [d]).
Proof.
  intros Hd H. apply Forall_app. split.
  - revert H. apply Forall_impl. intros m [Hm _]. exact Hm.
  - constructor; [exact Hd | constructor].
Qed.

Lemma splitByMarkers_last d ms :
  validMarkers d ms -> last (sort (ms ++ [d])) 0 = d.
Proof.
  intros H. rewrite (sort_snoc _ _ (validMarkers_le _ _ H)). apply last_last.
Qed.

Lemma insert_In x y l : In y (insert x l) -> y = x \/ In y l.
Proof.
  induction l as [| z l IH]; simpl.
  - intros [H | []]. left. symmetry. exact H.
  - destruct (Qle_bool x z); simpl.
    + intros [H | H]; [left; symmetry; exact H | right; exact H].
    + intros [H | H]; [right; left; exact H |].
      destruct (IH H) as [H' | H']; [left; exact H' | right; right; exact H'].
Qed.

Lemma sort_In y l : In y (sort l) -> In y l.
Proof.
  induction l as [| x l IH]; simpl; [tauto |].
  intros H. destruct (insert_In _ _ _ H) as [H' | H'].
  - left. symmetry. exact H'.
  - right. apply IH. exact H'.
Qed.

Lemma insert_length x l : List.length (insert x l) = S (List.length l).
Proof.
  induction l as [| z l IH]; simpl; [reflexivity |].
  destruct (Qle_bool x z); simpl; [reflexivity | rewrite IH; reflexivity].
Qed.

Lemma sort_length l : List.length (sort l) = List.length l.
Proof.
  induction l as [| x l IH]; simpl; [reflexivity |].
  rewrite insert_length. rewrite IH. reflexivity.
Qed.

Lemma allClose_of_range p bs :
  ascending p bs -> (forall b, In b bs -> b <= p + (1 # 10)) -> allClose p bs.
Proof.
  revert p. induction bs as [| b r IH]; intros p Ha Hr; [exact I |].
  destruct Ha as [Hpb Ha]. split; [apply Hr; left; reflexivity |].
  apply IH; [exact Ha |]. intros b' Hb'.
  specialize (Hr b' (or_intror Hb')). lra.
Qed.

(** Without markers and with a duration that is not positive the loop is
    never entered. *)
Lemma autoSplit_nonpositive fuel d ts : d <= 0 -> autoSplit d ts fuel = Some [].
Proof.
  intros Hd. unfold autoSplit.
  assert (E : Qltb 0 d = false) by (apply Qltb_ge; exact Hd).
  destruct fuel; simpl; rewrite E; reflexivity.
Qed.

(** In marker mode the sequence invariant holds exactly when the walk
    skips no sliver. *)
Lemma splitByMarkers_invariant_iff d ms :
  0 < d -> validMarkers d ms ->
  (sequenceInvariant d (splitByMarkers d ms) <-> noSliver 0 (sort (ms ++ [d]))).
Proof.
  intros Hd Hv. unfold splitByMarkers.
  assert (Hasc : ascending 0 (sort (ms ++ [d]))).
  { apply sort_ascending. apply validMarkers_boundaries; [lra | exact Hv]. }
  pose proof (splitByMarkers_last d ms Hv) as Hlast.
  split.
  - intros Hinv. apply invariant_chain in Hinv. destruct Hinv as [_ Hch].
    apply chain_sumLen in Hch.
    apply (markerLoop_sumLen _ _ Hasc). rewrite Hlast. exact Hch.
  - intros Hn.
    assert (Hch : chain 0 (markerLoop (sort (ms ++ [d])) 0 []) d).
    { rewrite <- Hlast at 2. apply markerLoop_chain; [exact Hasc | exact Hn |].
      simpl. reflexivity. }
    apply chain_invariant; [| exact Hch].
    intros Hnil. rewrite Hnil in Hch. simpl in Hch. lra.
Qed.

(** Two more shapes of the same behaviour: a marker 0.05 after another
    leaves a gap, and a duration 0.05 after the last marker is not
    reached. *)
Example marker_gap :
  planIntervals 0 20 [10; 201 # 20] defaultTrim
  = Some [mkInterval 0 10; mkInterval (201 # 20) 20].
Proof. reflexivity. Qed.

Example marker_short_end :
  planIntervals 0 (201 # 20) [10] defaultTrim = Some [mkInterval 0 10].
Proof. reflexivity. Qed.

(** In discard mode a threshold above the clip duration drops more than
    one clip length: 90 seconds in clips of 30 with threshold 50 keeps
    [0,30] and [30,60] only. *)
Example discard_large_threshold :
  planIntervals 3 90 [] (trimWith 30 "discard" 50)
  = Some [mkInterval 0 30; mkInterval 30 60].
Proof. reflexivity. Qed.

(** C5, as stated, fails: the planner does not return [0,30],[30,60],[60,95]
    for duration 95, clip duration 30, threshold 5, merge. *)
Lemma C5_counterexample :
  planIntervals (passBound 95 defaultTrim) 95 [] defaultTrim
  <> Some [mkInterval 0 30; mkInterval 30 60; mkInterval 60 95].
Proof. vm_compute. discriminate. Qed.

(** C5 (amended): for duration 95, clip duration 30, remainderThreshold 5
    and autoFit = merge the planner returns exactly
    [0,30],[30,60],[60,90],[90,95]: the remainder 5 after [60,90] equals the
    threshold, the comparison is strict, so no merge happens and the
    remainder becomes a fourth interval. *)
Theorem C5_boundary_scenario extra :
  planIntervals (4 + extra) 95 [] defaultTrim
  = Some [mkInterval 0 30; mkInterval 30 60; mkInterval 60 90; mkInterval 90 95].
Proof.
  unfold planIntervals, autoSplit. simpl Nat.ltb. cbv iota.
  rewrite (autoSplitLoop_more_fuel 95 defaultTrim 4 (4 + extra) (mkLoop 0 []) 0
             (mkLoop 95 [mkInterval 0 30; mkInterval 30 60; mkInterval 60 90;
                         mkInterval 90 95], 4%nat)).
  - reflexivity.
  - lia.
  - vm_compute. reflexivity.
Qed.

(** A clip of 65 seconds: the remainder 5 is below the threshold 6 and
    is merged into the second interval. *)
Example merge_changes_count :
  planIntervals 3 65 [] (trimWith 30 "merge" 6)
  = Some [mkInterval 0 30; mkInterval 30 65].
Proof. reflexivity. Qed.

(** With threshold 6 the remainder 5 is merged: three intervals. *)
Example merge_below_threshold :
  planIntervals 3 95 [] (trimWith 30 "merge" 6)
  = Some [mkInterval 0 30; mkInterval 30 60; mkInterval 60 95].
Proof. reflexivity. Qed.

(** * Properties of the argument builder *)

Import JS Names Builder.

Section BuilderFacts.

Local Open Scope string_scope.

Lemma hasChar_app c s1 s2 : hasChar c (s1 ++ s2) = hasChar c s1 || hasChar c s2.
Proof.
induction s1 as [| c' s1 IH]; simpl; [reflexivity |].
rewrite IH. apply orb_assoc.
Qed.

Lemma toFixed3_has_point x : hasChar "." (toFixed3 x) = true.
Proof.
unfold toFixed3. rewrite !hasChar_app. simpl. rewrite !orb_true_r. reflexivity.
Qed.

Lemma generateClipName_has_point f t i a b :
hasChar "." (generateClipName f t i a b) = true.
Proof.
unfold generateClipName. rewrite hasChar_app. simpl. apply orb_true_r.
Qed.

Lemma filterToken_no_point t : hasChar "." t = true -> filterToken t = false.
Proof.
intros H. unfold filterToken.
destruct (String.eqb t "-filter_complex") eqn:E1.
- apply String.eqb_eq in E1. subst t. discriminate.
- destruct (String.eqb t "-af") eqn:E2; [| reflexivity].
  apply String.eqb_eq in E2. subst t. discriminate.
Qed.



Lemma encodeArgs_reencodes ps :
exists pre crf,
  encodeArgs ps = (pre ++ ["-c:v"; "libx264"; "-preset"; "veryfast"; "-crf"; crf;
                           "-c:a"; "aac"; "-b:a"; "128k"])%list.
Proof.
unfold encodeArgs. destruct (filterGraph ps) as [fc lbl].
eexists. eexists. rewrite app_assoc. reflexivity.
Qed.

End BuilderFacts.

(** * Properties of the job driver *)

Import Driver.

Section DriverFacts.

Context {data : Type} {engineState : Type}.
Variable writeFile : string -> data -> engineState -> outcome unit * engineState.
Variable exec : list string -> engineState -> outcome unit * engineState.
Variable readFile : string -> engineState -> outcome data * engineState.

Variable file : videoFile (data := data).
Variable ts : trimSettings.
Variable ps : premiumSettings.
Variable u : user.

(** The thumbnail step never throws. *)
Lemma makeThumbnail_returns i iv (st : appState (data := data)) :
  exists thumb st',
    makeThumbnail exec readFile file i iv st = (Returned thumb, st') /\
    shouldProcess st' = shouldProcess st /\
    clips st' = clips st /\
    appMessage st' = appMessage st /\
    history st' = history st /\
    (forall msg e,
       exec (thumbArgs (inputName file) (thumbName i) iv) (engine st)
       = (Thrown msg, e) -> thumb = None).
Proof.
  unfold makeThumbnail, tryCatch, bind, ffmpegExec, ffmpegReadFile, ret.
  destruct (exec _ (engine st)) as [[[] | m] e] eqn:Ex; simpl.
  - destruct (readFile _ e) as [[d | m] e'] eqn:Er; simpl.
    + exists (Some d). eexists. split; [reflexivity |].
      repeat split; intros; discriminate.
    + exists None. eexists. split; [reflexivity |].
      repeat split.
  - exists None. eexists. split; [reflexivity |]. repeat split.
Qed.

(** One pass of the loop body when the main clip is produced: whatever
    the thumbnail step does, the clip is recorded. *)
Lemma processInterval_returns i total iv generated (st : appState)
      e1 bytes e2 :
  exec (buildArgs ts ps (inputName file) (clipName file ts i iv) iv) (engine st)
    = (Returned tt, e1) ->
  readFile (clipName file ts i iv) e1 = (Returned bytes, e2) ->
  exists thumb st',
    processInterval exec readFile file ts ps u i total iv generated st
      = (Returned (generated ++ [clipOf file ts i iv bytes thumb]), st') /\
    clips st' = generated ++ [clipOf file ts i iv bytes thumb] /\
    shouldProcess st' = shouldProcess st && negb (cancelDuring u i) /\
    history st' = history st /\
    (forall msg e,
       exec (thumbArgs (inputName file) (thumbName i) iv) e2 = (Thrown msg, e) ->
       thumb = None).
Proof.
  intros Hex Hrd.
  unfold processInterval, bind, update, userEvent, cancelProcessing, update, ret.
  fold (clipName file ts i iv).
  destruct (cancelDuring u i) eqn:Ec;
    unfold ffmpegExec, ffmpegReadFile; simpl; rewrite Hex; simpl; rewrite Hrd; simpl.
  all: match goal with
       | |- context [makeThumbnail _ _ _ ?j ?v ?s] =>
           destruct (makeThumbnail_returns j v s)
             as [thumb [st' [H1 [H2 [H3 [H4 [H5 H6]]]]]]];
           rewrite H1; simpl; exists thumb; eexists; split; [reflexivity |]
       end.
  all: simpl; split; [reflexivity |]; split;
    [rewrite H2; simpl; try rewrite andb_false_r; try rewrite andb_true_r; reflexivity |];
    split; [rewrite H5; reflexivity |].
  all: intros msg e He; apply (H6 msg e); exact He.
Qed.

(** The first pass of the loop does not look at the cancellation
    flag. *)
Lemma forIntervals_first_pass total iv rest generated (st : appState) :
  forIntervals exec readFile file ts ps u 0 total (iv :: rest) generated st
  = bind (processInterval exec readFile file ts ps u 0 total iv generated)
         (fun g => forIntervals exec readFile file ts ps u 1 total rest g) st.
Proof.
  simpl. unfold bind at 1. unfold read. simpl.
  rewrite andb_false_r. reflexivity.
Qed.

(** Later passes stop at a cleared flag. *)
Lemma forIntervals_cancelled i total iv rest generated (st : appState) :
  shouldProcess st = false ->
  forIntervals exec readFile file ts ps u (S i) total (iv :: rest) generated st
  = (Returned generated, setMessage (mkMessage "Proses dibatalkan." info) st).
Proof.
  intros H. simpl. unfold bind, read, update, ret. rewrite H. reflexivity.
Qed.

(** A job without intervals invokes the engine's [exec] not at all and,
    once the input file is written, reports that no clip can be made. *)
Lemma runJob_no_intervals (st : appState) :
  exists st',
    runJob writeFile exec readFile file ts ps u [] st = (Returned tt, st') /\
    execLog st' = execLog st /\
    clips st' = [] /\
    history st' = history st /\
    (forall e, writeFile (inputName file) (contents file) (engine st)
               = (Returned tt, e) ->
               appMessage st' = mkMessage "Tidak ada klip yang dapat dibuat." error).
Proof.
  unfold runJob, tryCatch, tryBlock, bind, update, userEvent, cancelProcessing,
    update, ret, ffmpegWriteFile.
  simpl.
  destruct (cancelBefore u); simpl;
    destruct (writeFile (inputName file) (contents file) (engine st))
      as [[[] | m] e] eqn:Ew; simpl;
    eexists; (split; [reflexivity |]); simpl; repeat split;
    intros e' He'; try discriminate; reflexivity.
Qed.

(** C9: when the loop reaches an interval (the flag is set, or it is the
    first pass), the main clip is produced and read back, and the
    thumbnail extraction fails, the pass does not throw: the clip is
    recorded with the bytes of the main output, the name, index and
    times of the interval and no thumbnail, [clips] is set to the list
    with that clip appended, and the loop goes on with the next
    interval. *)
Theorem C9_thumbnail_failure_recovered i total iv rest generated
    (st : appState) e1 bytes e2 msg e3 :
  shouldProcess st = true \/ i = 0%nat ->
  exec (buildArgs ts ps (inputName file) (clipName file ts i iv) iv) (engine st)
    = (Returned tt, e1) ->
  readFile (clipName file ts i iv) e1 = (Returned bytes, e2) ->
  exec (thumbArgs (inputName file) (thumbName i) iv) e2 = (Thrown msg, e3) ->
  exists st',
    processInterval exec readFile file ts ps u i total iv generated st
      = (Returned (generated ++ [clipOf file ts i iv bytes None]), st') /\
    clips st' = generated ++ [clipOf file ts i iv bytes None] /\
    url (clipOf file ts i iv bytes None) = bytes /\
    thumbUrl (clipOf file ts i iv bytes None) = None /\
    forIntervals exec readFile file ts ps u i total (iv :: rest) generated st
      = forIntervals exec readFile file ts ps u (S i) total rest
          (generated ++ [clipOf file ts i iv bytes None]) st'.
Proof.
  intros Hgo Hex Hrd Hth.
  destruct (processInterval_returns i total iv generated st e1 bytes e2 Hex Hrd)
    as [thumb [st' [H1 [H2 [_ [_ H5]]]]]].
  rewrite (H5 msg e3 Hth) in H1, H2.
  exists st'. split; [exact H1 |]. split; [exact H2 |].
  split; [reflexivity |]. split; [reflexivity |].
  simpl forIntervals. unfold bind at 1. unfold read.
  assert (Hc : negb (shouldProcess st) && Nat.ltb 0 i = false).
  { destruct Hgo as [-> | ->]; [reflexivity | apply andb_false_r]. }
  rewrite Hc. unfold bind. rewrite H1. reflexivity.
Qed.

End DriverFacts.

(** C2 (code at the failing input): the user presses cancel while the input
    file is written, before the loop starts; the first interval of a
    95-second clip is processed all the same (main clip and thumbnail),
    and the job stops only at the second pass. *)
Theorem C2_cancel_before_loop_processes_first :
  exists st',
    processVideo okWrite okExec okRead 4 (Some movie) true 95 [] defaultTrim
      defaultPremium earlyCancelUser loadedState = Some st' /\
    List.map name (clips st') = ["movie_part1_0-30.mp4"%string] /\
    List.length (execLog st') = 2%nat /\
    appMessage st' = mkMessage "Proses dibatalkan." info.
Proof.
  eexists. split; [vm_compute; reflexivity |].
  split; [reflexivity |]. split; reflexivity.
Qed.

Lemma C9_thumbnail_failure_recovered_witness :
  exists st',
    processInterval noThumbExec okRead movie defaultTrim defaultPremium patientUser
      0 3 (mkInterval 0 30) [] loadedState
    = (Returned [clipOf movie defaultTrim 0 (mkInterval 0 30)
                   "movie_part1_0-30.mp4"%string None], st') /\
    clips st' = [clipOf movie defaultTrim 0 (mkInterval 0 30)
                   "movie_part1_0-30.mp4"%string None].
Proof.
  destruct (C9_thumbnail_failure_recovered noThumbExec okRead movie defaultTrim
              defaultPremium patientUser 0 3 (mkInterval 0 30) [] [] loadedState
              tt "movie_part1_0-30.mp4"%string tt
              "frame extraction failed"%string tt)
    as [st' [H1 [H2 _]]].
  - right. reflexivity.
  - reflexivity.
  - reflexivity.
  - reflexivity.
  - exists st'. split; [exact H1 | exact H2].
Defined.

(** A whole job on the engine whose frame extraction fails: every clip
    is recorded, none has a thumbnail, and the job ends with success. *)
Example job_without_thumbnails :
  exists st',
    processVideo okWrite noThumbExec okRead 3 (Some movie) true 65 [] defaultTrim
      defaultPremium patientUser loadedState = Some st' /\
    List.map name (clips st')
    = ["movie_part1_0-30.mp4"; "movie_part2_30-60.mp4"; "movie_part3_60-65.mp4"]%string /\
    List.map thumbUrl (clips st') = [None; None; None] /\
    appMessage st' = mkMessage "Selesai! Semua klip telah diproses." success /\
    history st' = [mkHistory "movie.mp4" 3].
Proof.
  eexists. split; [vm_compute; reflexivity |]. repeat split.
Qed.

(** * Properties of the clip names *)

Section StringFacts.

Local Open Scope string_scope.

Lemma append_nil_r s : s ++ EmptyString = s.
Proof. induction s as [| c s IH]; simpl; [reflexivity | rewrite IH; reflexivity]. Qed.

Lemma append_assoc s1 s2 s3 : (s1 ++ s2) ++ s3 = s1 ++ s2 ++ s3.
Proof. induction s1 as [| c s1 IH]; simpl; [reflexivity | rewrite IH; reflexivity]. Qed.

Lemma length_append s1 s2 :
  String.length (s1 ++ s2) = (String.length s1 + String.length s2)%nat.
Proof. induction s1 as [| c s1 IH]; simpl; [reflexivity | rewrite IH; reflexivity]. Qed.

Lemma append_inv_head s a b : s ++ a = s ++ b -> a = b.
Proof.
  induction s as [| c s IH]; simpl; intros H; [exact H |].
  injection H as H. apply IH. exact H.
Qed.

Lemma append_inv_length a b x y :
  String.length a = String.length b -> a ++ x = b ++ y -> a = b /\ x = y.
Proof.
  revert b. induction a as [| c a IH]; intros [| c' b] Hl H; simpl in *;
    try discriminate.
  - split; [reflexivity | exact H].
  - injection H as -> H. injection Hl as Hl.
    destruct (IH b Hl H) as [-> ->]. split; reflexivity.
Qed.

Lemma append_inv_tail a b x : a ++ x = b ++ x -> a = b.
Proof.
  intros H. apply (append_inv_length a b x x); [| exact H].
  apply (f_equal String.length) in H. rewrite !length_append in H. lia.
Qed.

(** Two ways of cutting the same string. *)
Lemma append_eq_append x1 x2 y1 y2 :
  x1 ++ x2 = y1 ++ y2 ->
  exists l, (x1 = y1 ++ l /\ y2 = l ++ x2) \/ (y1 = x1 ++ l /\ x2 = l ++ y2).
Proof.
  revert y1. induction x1 as [| c x1 IH]; intros y1 H; simpl in H.
  - exists y1. right. split; [reflexivity | exact H].
  - destruct y1 as [| c' y1]; simpl in H.
    + exists (String c x1). left. split; [reflexivity | symmetry; exact H].
    + injection H as -> H. destruct (IH y1 H) as [l [[-> ->] | [-> ->]]].
      * exists l. left. split; reflexivity.
      * exists l. right. split; reflexivity.
Qed.

Lemma startsWith_append pat z : startsWith pat (pat ++ z) = true.
Proof.
  induction pat as [| c pat IH]; simpl; [reflexivity |].
  rewrite Ascii.eqb_refl. exact IH.
Qed.

Lemma startsWith_split pat s :
  startsWith pat s = true -> s = pat ++ skip (String.length pat) s.
Proof.
  revert s. induction pat as [| c pat IH]; intros s H; simpl; [reflexivity |].
  destruct s as [| c' s]; simpl in H; [discriminate |].
  apply andb_true_iff in H. destruct H as [H1 H2].
  apply Ascii.eqb_eq in H1. subst c'. simpl. rewrite <- (IH s H2). reflexivity.
Qed.

(** What [splitFirst] returns is an occurrence. *)
Lemma splitFirst_sound pat s b a :
  splitFirst pat s = Some (b, a) -> s = b ++ pat ++ a.
Proof.
  revert b. induction s as [| c s IH]; intros b H; simpl in H.
  - destruct (startsWith pat EmptyString) eqn:E; [| discriminate].
    injection H as <- <-. apply (startsWith_split _ _ E).
  - destruct (startsWith pat (String c s)) eqn:E.
    + injection H as <- <-. apply (startsWith_split _ _ E).
    + destruct (splitFirst pat s) as [[b' a'] |]; [| discriminate].
      injection H as <- <-. simpl. rewrite <- (IH b' eq_refl). reflexivity.
Qed.

(** Every occurrence is found. *)
Lemma splitFirst_complete pat u w : includes pat (u ++ pat ++ w) = true.
Proof.
  unfold includes. induction u as [| c u IH]; simpl.
  - destruct (pat ++ w) as [| c s] eqn:E; simpl;
      pose proof (startsWith_append pat w) as H; rewrite E in H.
    + rewrite H. reflexivity.
    + rewrite H. reflexivity.
  - destruct (startsWith pat (String c (u ++ pat ++ w))); [reflexivity |].
    destruct (splitFirst pat (u ++ pat ++ w)) as [[b a] |]; [reflexivity | discriminate].
Qed.

Lemma includes_occurs pat s :
  includes pat s = true -> exists u w, s = u ++ pat ++ w.
Proof.
  unfold includes. destruct (splitFirst pat s) as [[b a] |] eqn:E; [| discriminate].
  intros _. exists b, a. apply splitFirst_sound. exact E.
Qed.

Lemma startsWith_append_digit tok x c w :
  noDigits tok = true -> isDigit c = true ->
  startsWith tok (x ++ String c w) = startsWith tok x.
Proof.
  intros Ht Hc. revert x. induction tok as [| t0 tok IH]; intros x.
  - destruct x; reflexivity.
  - unfold noDigits in Ht. simpl in Ht. apply andb_true_iff in Ht.
    destruct Ht as [Ht0 Ht]. destruct x as [| xc x]; simpl.
    + destruct (Ascii.eqb t0 c) eqn:E; [| reflexivity].
      apply Ascii.eqb_eq in E. subst t0. rewrite Hc in Ht0. discriminate.
    + rewrite (IH Ht). reflexivity.
Qed.

Lemma startsWith_more tok x z :
  startsWith tok x = true -> startsWith tok (x ++ z) = true.
Proof.
  revert x. induction tok as [| t0 tok IH]; intros x H; [destruct x; reflexivity |].
  destruct x as [| xc x]; simpl in *; [discriminate |].
  apply andb_true_iff in H. destruct H as [H1 H2].
  rewrite H1. simpl. apply IH. exact H2.
Qed.

Lemma startsWith_less tok x z :
  startsWith tok (x ++ z) = true -> (String.length tok <= String.length x)%nat ->
  startsWith tok x = true.
Proof.
  revert x. induction tok as [| t0 tok IH]; intros x H Hl; [destruct x; reflexivity |].
  destruct x as [| xc x]; simpl in *; [lia |].
  apply andb_true_iff in H. destruct H as [H1 H2].
  rewrite H1. simpl. apply IH; [exact H2 | lia].
Qed.

Lemma skip_more tok x z :
  startsWith tok x = true ->
  skip (String.length tok) (x ++ z) = skip (String.length tok) x ++ z.
Proof.
  revert x. induction tok as [| t0 tok IH]; intros x H; [reflexivity |].
  destruct x as [| xc x]; simpl in *; [discriminate |].
  apply andb_true_iff in H. destruct H as [_ H2]. apply IH. exact H2.
Qed.

(** An occurrence found in [x] is still the first one in [x ++ z]. *)
Lemma splitFirst_hit tok x z b a :
  splitFirst tok x = Some (b, a) -> splitFirst tok (x ++ z) = Some (b, a ++ z).
Proof.
  revert b. induction x as [| c x IH]; intros b H.
  - simpl in H. destruct (startsWith tok EmptyString) eqn:E; [| discriminate].
    injection H as <- <-. destruct tok; [| discriminate]. simpl.
    destruct z; reflexivity.
  - simpl in H. destruct (startsWith tok (String c x)) eqn:E.
    + injection H as <- <-.
      change (String c x ++ z) with (String c (x ++ z)).
      change (splitFirst tok (String c (x ++ z)))
        with (if startsWith tok (String c (x ++ z))
              then Some (EmptyString, skip (String.length tok) (String c (x ++ z)))
              else match splitFirst tok (x ++ z) with
                   | Some (b, a) => Some (String c b, a)
                   | None => None
                   end).
      change (String c (x ++ z)) with (String c x ++ z).
      rewrite (startsWith_more _ _ z E). rewrite (skip_more _ _ z E). reflexivity.
    + destruct (splitFirst tok x) as [[b' a'] |] eqn:Es; [| discriminate].
      injection H as <- <-.
      change (String c x ++ z) with (String c (x ++ z)).
      change (splitFirst tok (String c (x ++ z)))
        with (if startsWith tok (String c (x ++ z))
              then Some (EmptyString, skip (String.length tok) (String c (x ++ z)))
              else match splitFirst tok (x ++ z) with
                   | Some (b, a) => Some (String c b, a)
                   | None => None
                   end).
      rewrite (IH b' eq_refl).
      destruct (startsWith tok (String c (x ++ z))) eqn:E'; [| reflexivity].
      exfalso. change (String c (x ++ z)) with (String c x ++ z) in E'.
      apply startsWith_less in E'; [congruence |].
      apply splitFirst_sound in Es. rewrite Es. simpl.
      rewrite !length_append. lia.
Qed.

Lemma splitFirst_digits tok v y :
  noDigits tok = true -> tok <> EmptyString -> allChars isDigit v = true ->
  splitFirst tok (v ++ y)
  = match splitFirst tok y with
    | Some (b, a) => Some (v ++ b, a)
    | None => None
    end.
Proof.
  intros Ht Hne. induction v as [| c v IH]; intros Hv.
  - simpl. destruct (splitFirst tok y) as [[b a] |]; reflexivity.
  - simpl in Hv. apply andb_true_iff in Hv. destruct Hv as [Hc Hv].
    change (String c v ++ y) with (String c (v ++ y)).
    change (splitFirst tok (String c (v ++ y)))
      with (if startsWith tok (String c (v ++ y))
            then Some (EmptyString, skip (String.length tok) (String c (v ++ y)))
            else match splitFirst tok (v ++ y) with
                 | Some (b, a) => Some (String c b, a)
                 | None => None
                 end).
    assert (E : startsWith tok (String c (v ++ y)) = false).
    { pose proof (startsWith_append_digit tok EmptyString c (v ++ y) Ht Hc) as H.
      simpl in H. rewrite H. destruct tok; [congruence | reflexivity]. }
    rewrite E. rewrite (IH Hv).
    destruct (splitFirst tok y) as [[b a] |]; reflexivity.
Qed.

(** Without an occurrence in [x], the search goes on behind a digit
    string. *)
Lemma splitFirst_skip tok x v y :
  noDigits tok = true -> tok <> EmptyString -> digitString v = true ->
  splitFirst tok x = None ->
  splitFirst tok (x ++ v ++ y)
  = match splitFirst tok y with
    | Some (b, a) => Some (x ++ v ++ b, a)
    | None => None
    end.
Proof.
  intros Ht Hne Hv. unfold digitString in Hv. apply andb_true_iff in Hv.
  destruct Hv as [Hv1 Hv2]. induction x as [| c x IH]; intros Hx.
  - simpl. apply splitFirst_digits; assumption.
  - simpl in Hx. destruct (startsWith tok (String c x)) eqn:E; [discriminate |].
    destruct (splitFirst tok x) as [[b' a'] |] eqn:Es; [discriminate |].
    change (String c x ++ v ++ y) with (String c (x ++ v ++ y)).
    change (splitFirst tok (String c (x ++ v ++ y)))
      with (if startsWith tok (String c (x ++ v ++ y))
            then Some (EmptyString, skip (String.length tok) (String c (x ++ v ++ y)))
            else match splitFirst tok (x ++ v ++ y) with
                 | Some (b, a) => Some (String c b, a)
                 | None => None
                 end).
    assert (E' : startsWith tok (String c (x ++ v ++ y)) = false).
    { destruct v as [| d v]; [discriminate |].
      simpl in Hv2. apply andb_true_iff in Hv2. destruct Hv2 as [Hd _].
      change (String c (x ++ String d v ++ y)) with (String c x ++ String d (v ++ y)).
      rewrite (startsWith_append_digit tok (String c x) d (v ++ y) Ht Hd). exact E. }
    rewrite E'. rewrite (IH eq_refl).
    destruct (splitFirst tok y) as [[b a] |]; reflexivity.
Qed.

Lemma getSubstitution_plain m b a r :
  hasChar "$" r = false -> getSubstitution m b a r = r.
Proof.
  induction r as [| c r IH]; intros H; [reflexivity |].
  cbn [hasChar] in H. apply orb_false_iff in H. destruct H as [H1 H2].
  cbn [getSubstitution]. rewrite Ascii.eqb_sym in H1. rewrite H1.
  rewrite (IH H2). reflexivity.
Qed.

Lemma replace_hit tok x z v b a :
  hasChar "$" v = false -> splitFirst tok x = Some (b, a) ->
  replace (x ++ z) tok v = b ++ v ++ a ++ z.
Proof.
  intros Hv H. unfold replace. rewrite (splitFirst_hit _ _ z _ _ H).
  rewrite (getSubstitution_plain _ _ _ _ Hv). reflexivity.
Qed.

Lemma replace_skip tok x v' y v :
  noDigits tok = true -> tok <> EmptyString -> digitString v' = true ->
  hasChar "$" v = false -> splitFirst tok x = None ->
  replace (x ++ v' ++ y) tok v = x ++ v' ++ replace y tok v.
Proof.
  intros Ht Hne Hv' Hv Hx. unfold replace.
  rewrite (splitFirst_skip tok x v' y Ht Hne Hv' Hx).
  destruct (splitFirst tok y) as [[b a] |]; [| reflexivity].
  rewrite !(getSubstitution_plain _ _ _ _ Hv). rewrite !append_assoc. reflexivity.
Qed.

End StringFacts.

Section NumberFacts.

Local Open Scope Z_scope.

Lemma digitChar_isDigit d : 0 <= d < 10 -> isDigit (digitChar d) = true.
Proof.
  intros H.
  assert (E : d = 0 \/ d = 1 \/ d = 2 \/ d = 3 \/ d = 4 \/ d = 5 \/ d = 6
              \/ d = 7 \/ d = 8 \/ d = 9) by lia.
  repeat (destruct E as [-> | E]; [reflexivity |]). subst d. reflexivity.
Qed.

Lemma digitChar_value d :
  0 <= d < 10 -> Z.of_nat (nat_of_ascii (digitChar d)) - 48 = d.
Proof.
  intros H.
  assert (E : d = 0 \/ d = 1 \/ d = 2 \/ d = 3 \/ d = 4 \/ d = 5 \/ d = 6
              \/ d = 7 \/ d = 8 \/ d = 9) by lia.
  repeat (destruct E as [-> | E]; [reflexivity |]). subst d. reflexivity.
Qed.

Lemma allChars_append p s1 s2 :
  allChars p (s1 ++ s2) = allChars p s1 && allChars p s2.
Proof.
  induction s1 as [| c s1 IH]; simpl; [reflexivity |].
  rewrite IH. apply andb_assoc.
Qed.

Lemma decodeFrom_append acc s1 s2 :
  decodeFrom acc (s1 ++ s2) = decodeFrom (decodeFrom acc s1) s2.
Proof.
  revert acc. induction s1 as [| c s1 IH]; intros acc; simpl; [reflexivity | apply IH].
Qed.

Lemma pow10_succ k : 10 ^ Z.of_nat (S k) = 10 * 10 ^ Z.of_nat k.
Proof. rewrite Nat2Z.inj_succ. apply Z.pow_succ_r. lia. Qed.

(** With enough fuel the digits put in front of [acc] are those of [n]:
    they decode to [n], and their number is the least [k] with
    [n < 10 ^ k] (at least one). *)
Lemma digitsFuel_spec fuel n acc :
  0 <= n < 2 ^ (Z.of_nat fuel + 1) ->
  exists ds,
    digitsFuel fuel n acc = (ds ++ acc)%string /\
    allChars isDigit ds = true /\
    (forall a, decodeFrom a ds = a * 10 ^ Z.of_nat (String.length ds) + n) /\
    (1 <= String.length ds)%nat /\
    n < 10 ^ Z.of_nat (String.length ds) /\
    (String.length ds = 1%nat \/ 10 ^ (Z.of_nat (String.length ds) - 1) <= n).
Proof.
  revert n acc. induction fuel as [| fuel IH]; intros n acc Hn.
  - change (2 ^ (Z.of_nat 0 + 1)) with 2 in Hn.
    simpl digitsFuel. rewrite Z.mod_small by lia.
    exists (String (digitChar n) EmptyString).
    split; [reflexivity |]. split; [simpl; rewrite digitChar_isDigit by lia; reflexivity |].
    split; [intros a; simpl; rewrite digitChar_value by lia; lia |].
    split; [simpl; lia |]. split; [simpl; lia | left; reflexivity].
  - simpl digitsFuel. destruct (n <? 10) eqn:E.
    + apply Z.ltb_lt in E. rewrite Z.mod_small by lia.
      exists (String (digitChar n) EmptyString).
      split; [reflexivity |]. split; [simpl; rewrite digitChar_isDigit by lia; reflexivity |].
      split; [intros a; simpl; rewrite digitChar_value by lia; lia |].
      split; [simpl; lia |]. split; [simpl; lia | left; reflexivity].
    + apply Z.ltb_ge in E.
      pose proof (Z.div_mod n 10 ltac:(lia)) as Hdm.
      pose proof (Z.mod_pos_bound n 10 ltac:(lia)) as Hmod.
      assert (Hq : 0 <= n / 10 < 2 ^ (Z.of_nat fuel + 1)).
      { split; [apply Z.div_pos; lia |].
        apply Z.div_lt_upper_bound; [lia |].
        replace (Z.of_nat (S fuel) + 1) with (Z.succ (Z.of_nat fuel + 1)) in Hn by lia.
        rewrite Z.pow_succ_r in Hn by lia. lia. }
      destruct (IH (n / 10) (String (digitChar (n mod 10)) acc) Hq)
        as [ds [H1 [H2 [H3 [H4 [H5 H6]]]]]].
      exists (ds ++ String (digitChar (n mod 10)) EmptyString)%string.
      assert (Hlen : String.length (ds ++ String (digitChar (n mod 10)) EmptyString)
                     = S (String.length ds)).
      { rewrite length_append. simpl. lia. }
      rewrite Hlen.
      split; [rewrite H1, append_assoc; reflexivity |].
      split; [rewrite allChars_append, H2; simpl;
              rewrite digitChar_isDigit by lia; reflexivity |].
      split; [intros a; rewrite decodeFrom_append, H3; cbn [decodeFrom];
              rewrite digitChar_value by lia; rewrite pow10_succ; lia |].
      split; [lia |]. rewrite pow10_succ. split; [lia |].
      right. replace (Z.of_nat (S (String.length ds)) - 1) with (Z.of_nat (String.length ds)) by lia.
      destruct H6 as [H6 | H6].
      * rewrite H6. change (10 ^ Z.of_nat 1) with 10. lia.
      * destruct (String.length ds) as [| k]; [lia |].
        rewrite pow10_succ.
        replace (Z.of_nat (S k) - 1) with (Z.of_nat k) in H6 by lia. lia.
Qed.

Lemma natString_fuel n : 0 <= n -> 0 <= n < 2 ^ (Z.of_nat (Z.to_nat (Z.log2 n)) + 1).
Proof.
  intros H. split; [exact H |].
  rewrite Z2Nat.id by apply Z.log2_nonneg.
  destruct (Z.eq_dec n 0) as [-> | Hz]; [reflexivity |].
  replace (Z.log2 n + 1) with (Z.succ (Z.log2 n)) by lia.
  apply Z.log2_spec. lia.
Qed.

Lemma natString_spec n :
  0 <= n ->
  allChars isDigit (natString n) = true /\
  decode (natString n) = n /\
  (1 <= String.length (natString n))%nat /\
  n < 10 ^ Z.of_nat (String.length (natString n)) /\
  (String.length (natString n) = 1%nat
   \/ 10 ^ (Z.of_nat (String.length (natString n)) - 1) <= n).
Proof.
  intros H. unfold natString.
  destruct (digitsFuel_spec _ n EmptyString (natString_fuel n H))
    as [ds [H1 [H2 [H3 [H4 [H5 H6]]]]]].
  rewrite H1, append_nil_r.
  split; [exact H2 |]. split; [unfold decode; rewrite H3; lia |].
  split; [exact H4 |]. split; [exact H5 | exact H6].
Qed.

Lemma natString_length_mono n m :
  0 <= n <= m ->
  (String.length (natString n) <= String.length (natString m))%nat.
Proof.
  intros [H0 Hnm].
  destruct (natString_spec n H0) as [_ [_ [Hn1 [_ Hn3]]]].
  destruct (natString_spec m ltac:(lia)) as [_ [_ [Hm1 [Hm2 _]]]].
  destruct Hn3 as [Hn3 | Hn3]; [lia |].
  destruct (le_lt_dec (String.length (natString n)) (String.length (natString m)))
    as [Hle | Hgt]; [exact Hle | exfalso].
  assert (Hp : 10 ^ Z.of_nat (String.length (natString m))
               <= 10 ^ (Z.of_nat (String.length (natString n)) - 1)).
  { apply Z.pow_le_mono_r; lia. }
  lia.
Qed.

Lemma natString_inj n m : 0 <= n -> 0 <= m -> natString n = natString m -> n = m.
Proof.
  intros Hn Hm E.
  destruct (natString_spec n Hn) as [_ [H1 _]].
  destruct (natString_spec m Hm) as [_ [H2 _]].
  rewrite <- H1, <- H2, E. reflexivity.
Qed.

Lemma natString_digitString n : 0 <= n -> digitString (natString n) = true.
Proof.
  intros H. destruct (natString_spec n H) as [H1 [_ [H2 _]]].
  unfold digitString. rewrite H1.
  destruct (natString n); [simpl in H2; lia | reflexivity].
Qed.

End NumberFacts.

Section NameFacts.

Local Open Scope string_scope.

Lemma repeatChar_length c n : String.length (repeatChar c n) = n.
Proof. induction n as [| n IH]; simpl; [reflexivity | rewrite IH; reflexivity]. Qed.

Lemma padStart_length s n c :
  String.length (padStart s n c) = Nat.max n (String.length s).
Proof. unfold padStart. rewrite length_append, repeatChar_length. lia. Qed.

Lemma padStart_digitString s n :
  digitString s = true -> digitString (padStart s n "0") = true.
Proof.
  unfold digitString, padStart. intros H. apply andb_true_iff in H.
  destruct H as [H1 H2]. rewrite allChars_append, H2, andb_true_r.
  assert (Hr : allChars isDigit (repeatChar "0" (n - String.length s)) = true).
  { induction (n - String.length s)%nat as [| k IH]; [reflexivity | exact IH]. }
  rewrite Hr, andb_true_r.
  destruct (repeatChar "0" (n - String.length s)); [exact H1 | reflexivity].
Qed.

Lemma padStart_decode s n : decode (padStart s n "0") = decode s.
Proof.
  unfold decode, padStart. rewrite decodeFrom_append.
  induction (n - String.length s)%nat as [| k IH]; [reflexivity | exact IH].
Qed.

Lemma floorString_nonneg x : 0 <= x -> floorString x = natString (Qfloor x).
Proof.
  intros H. unfold floorString, intString.
  assert (Hf : (0 <= Qfloor x)%Z).
  { change 0%Z with (Qfloor 0). apply Qfloor_resp_le. exact H. }
  destruct (Qfloor x <? 0)%Z eqn:E; [apply Z.ltb_lt in E; lia | reflexivity].
Qed.

Lemma slotValue_digitString i s e k :
  0 <= s -> 0 <= e -> digitString (slotValue i s e k) = true.
Proof.
  intros Hs He.
  assert (Hf : forall x, 0 <= x -> (0 <= Qfloor x)%Z).
  { intros x Hx. change 0%Z with (Qfloor 0). apply Qfloor_resp_le. exact Hx. }
  destruct k; simpl.
  - apply padStart_digitString. apply natString_digitString. lia.
  - apply natString_digitString. lia.
  - rewrite floorString_nonneg by exact Hs. apply natString_digitString. apply Hf, Hs.
  - rewrite floorString_nonneg by exact He. apply natString_digitString. apply Hf, He.
Qed.

(** The values of a later interval are at least as long. *)
Lemma slotValue_length_mono i j s s' e e' k :
  (i <= j)%nat -> 0 <= s -> s <= s' -> 0 <= e -> e <= e' ->
  (String.length (slotValue i s e k) <= String.length (slotValue j s' e' k))%nat.
Proof.
  intros Hij Hs Hss He Hee.
  assert (Hf : forall x, 0 <= x -> (0 <= Qfloor x)%Z).
  { intros x Hx. change 0%Z with (Qfloor 0). apply Qfloor_resp_le. exact Hx. }
  assert (Hi : (String.length (natString (Z.of_nat (i + 1)))
                <= String.length (natString (Z.of_nat (j + 1))))%nat)
    by (apply natString_length_mono; lia).
  destruct k; simpl.
  - rewrite !padStart_length. lia.
  - exact Hi.
  - rewrite !floorString_nonneg by lra. apply natString_length_mono.
    split; [apply Hf, Hs | apply Qfloor_resp_le, Hss].
  - rewrite !floorString_nonneg by lra. apply natString_length_mono.
    split; [apply Hf, He | apply Qfloor_resp_le, Hee].
Qed.

(** The values of the two index-bearing tokens determine the index. *)
Lemma slotValue_index_inj i j s s' e e' k :
  k = PartSlot \/ k = IndexSlot ->
  slotValue i s e k = slotValue j s' e' k -> i = j.
Proof.
  intros [-> | ->] H; simpl in H.
  - apply (f_equal decode) in H. rewrite !padStart_decode in H.
    destruct (natString_spec (Z.of_nat (i + 1)) ltac:(lia)) as [_ [H1 _]].
    destruct (natString_spec (Z.of_nat (j + 1)) ltac:(lia)) as [_ [H2 _]].
    rewrite H1, H2 in H. lia.
  - apply natString_inj in H; lia.
Qed.

Lemma digit_not_dollar v : allChars isDigit v = true -> hasChar "$" v = false.
Proof.
  induction v as [| c v IH]; intros H; [reflexivity |].
  cbn [allChars] in H. apply andb_true_iff in H. destruct H as [H1 H2].
  cbn [hasChar]. rewrite (IH H2), orb_false_r.
  destruct (Ascii.eqb "$" c) eqn:E; [| reflexivity].
  apply Ascii.eqb_eq in E. subst c. discriminate.
Qed.

Lemma digitString_no_dollar v : digitString v = true -> hasChar "$" v = false.
Proof.
  unfold digitString. intros H. apply andb_true_iff in H.
  apply digit_not_dollar. apply H.
Qed.

Lemma slotToken_noDigits k : noDigits (slotToken k) = true.
Proof. destruct k; reflexivity. Qed.

Lemma slotToken_nonempty k : slotToken k <> EmptyString.
Proof. destruct k; discriminate. Qed.

(** One replacement of [generateClipName], seen on the structure. *)
Lemma replace_render val k x0 rest :
  (forall k', digitString (val k') = true) ->
  replace (x0 ++ renderTail val rest) (slotToken k) (val k)
  = render val (fill k x0 rest).
Proof.
  intros Hval. revert x0. induction rest as [| [k' x1] rest IH]; intros x0.
  - simpl renderTail. rewrite append_nil_r. unfold replace, render. simpl fill.
    destruct (splitFirst (slotToken k) x0) as [[b a] |]; simpl.
    + rewrite (getSubstitution_plain _ _ _ _ (digitString_no_dollar _ (Hval k))).
      rewrite append_nil_r. reflexivity.
    + rewrite append_nil_r. reflexivity.
  - cbn [renderTail fill].
    destruct (splitFirst (slotToken k) x0) as [[b a] |] eqn:E.
    + rewrite (replace_hit _ _ _ _ _ _ (digitString_no_dollar _ (Hval k)) E).
      unfold render. simpl. rewrite ?append_assoc. reflexivity.
    + rewrite (replace_skip _ _ _ _ _ (slotToken_noDigits k) (slotToken_nonempty k)
                 (Hval k') (digitString_no_dollar _ (Hval k)) E).
      rewrite IH. unfold render. simpl. reflexivity.
Qed.

(** [generateClipName] fills the structure of the template with the
    values of the interval. *)
Lemma generateClipName_render file tmpl i s e :
  0 <= s -> 0 <= e ->
  generateClipName file tmpl i s e
  = render (slotValue i s e)
      (nameStructure (replace tmpl "{name}" (removeExtension file))) ++ ".mp4".
Proof.
  intros Hs He. unfold generateClipName, nameStructure.
  set (s1 := replace tmpl "{name}" (removeExtension file)).
  set (val := slotValue i s e).
  assert (Hval : forall k, digitString (val k) = true)
    by (intros k; apply slotValue_digitString; assumption).
  pose proof (replace_render val PartSlot s1 [] Hval) as H2.
  simpl renderTail in H2. rewrite append_nil_r in H2.
  change (replace s1 "{part}" (padStart (natString (Z.of_nat (i + 1))) 3 "0"))
    with (replace s1 (slotToken PartSlot) (val PartSlot)).
  rewrite H2. unfold render at 1.
  change (natString (Z.of_nat (i + 1))) with (val IndexSlot).
  change "{index}" with (slotToken IndexSlot).
  rewrite (replace_render val IndexSlot _ _ Hval). unfold render at 1.
  change (floorString s) with (val StartSlot).
  change "{start}" with (slotToken StartSlot).
  rewrite (replace_render val StartSlot _ _ Hval). unfold render at 1.
  change (floorString e) with (val EndSlot).
  change "{end}" with (slotToken EndSlot).
  rewrite (replace_render val EndSlot _ _ Hval). reflexivity.
Qed.

Lemma renderTail_length_le val1 val2 rest :
  (forall k, In k (map fst rest) ->
             (String.length (val1 k) <= String.length (val2 k))%nat) ->
  (String.length (renderTail val1 rest) <= String.length (renderTail val2 rest))%nat.
Proof.
  induction rest as [| [k x] rest IH]; intros H; simpl; [lia |].
  rewrite !length_append.
  specialize (H k (or_introl eq_refl)) as Hk.
  assert (Hr : (String.length (renderTail val1 rest)
                <= String.length (renderTail val2 rest))%nat).
  { apply IH. intros k' Hk'. apply H. right. exact Hk'. }
  lia.
Qed.

(** Two fillings of the same structure, the values of the second at
    least as long as those of the first, give the same text only when
    all values agree. *)
Lemma renderTail_inj val1 val2 rest :
  (forall k, In k (map fst rest) ->
             (String.length (val1 k) <= String.length (val2 k))%nat) ->
  renderTail val1 rest = renderTail val2 rest ->
  forall k, In k (map fst rest) -> val1 k = val2 k.
Proof.
  induction rest as [| [k x] rest IH]; intros Hlen Heq k0 Hk0; [destruct Hk0 |].
  simpl in Heq.
  assert (Hr : (String.length (renderTail val1 rest)
                <= String.length (renderTail val2 rest))%nat).
  { apply renderTail_length_le. intros k' Hk'. apply Hlen. right. exact Hk'. }
  pose proof (Hlen k (or_introl eq_refl)) as Hk.
  assert (Hl : String.length (val1 k) = String.length (val2 k)).
  { apply (f_equal String.length) in Heq. rewrite !length_append in Heq. lia. }
  destruct (append_inv_length _ _ _ _ Hl Heq) as [Hv Hrest].
  apply append_inv_head in Hrest.
  destruct Hk0 as [<- | Hk0]; [exact Hv |].
  apply IH; [| exact Hrest | exact Hk0].
  intros k' Hk'. apply Hlen. right. exact Hk'.
Qed.

Lemma fill_keeps_slots k x0 rest k' :
  In k' (map fst rest) -> In k' (map fst (snd (fill k x0 rest))).
Proof.
  revert x0. induction rest as [| [k1 x1] rest IH]; intros x0 H; [destruct H |].
  cbn [fill]. destruct (splitFirst (slotToken k) x0) as [[b a] |].
  - right. exact H.
  - simpl. destruct H as [H | H]; [left; exact H | right; apply IH; exact H].
Qed.

Lemma fill_adds_slot k x0 rest :
  literalIncludes (slotToken k) (x0, rest) = true ->
  In k (map fst (snd (fill k x0 rest))).
Proof.
  unfold literalIncludes, includes. simpl fst. simpl snd.
  revert x0. induction rest as [| [k1 x1] rest IH]; intros x0 H.
  - cbn [fill]. destruct (splitFirst (slotToken k) x0) as [[b a] |].
    + left. reflexivity.
    + discriminate.
  - cbn [fill]. destruct (splitFirst (slotToken k) x0) as [[b a] |].
    + left. reflexivity.
    + simpl. right. apply IH. simpl in H. exact H.
Qed.

Lemma includes_append_l pat x z : includes pat x = true -> includes pat (x ++ z) = true.
Proof.
  unfold includes. destruct (splitFirst pat x) as [[b a] |] eqn:E; [| discriminate].
  intros _. rewrite (splitFirst_hit _ _ z _ _ E). reflexivity.
Qed.

Lemma includes_append_r pat z y : includes pat y = true -> includes pat (z ++ y) = true.
Proof.
  intros H. destruct (includes_occurs _ _ H) as [u [w ->]].
  rewrite <- append_assoc. apply splitFirst_complete.
Qed.

Lemma token_inner_brace t c l0 r :
  isToken t -> t = String c l0 ++ String "{" r -> False.
Proof.
  intros [body [-> [H1 _]]] H. simpl in H. injection H as _ H.
  apply (f_equal (hasChar "{")) in H. rewrite !hasChar_app in H.
  rewrite H1 in H. simpl in H. rewrite orb_true_r in H. discriminate.
Qed.

Lemma token_same_start t t' a w :
  isToken t -> isToken t' -> t ++ a = t' ++ w -> t = t'.
Proof.
  intros [body [-> [_ H1]]] [body' [-> [_ H1']]] H.
  simpl in H. injection H as H. rewrite !append_assoc in H.
  destruct (append_eq_append _ _ _ _ H) as [l [[Hb Hl] | [Hb Hl]]].
  - destruct l as [| c l]; [rewrite append_nil_r in Hb; subst; reflexivity |].
    exfalso. simpl in Hl. injection Hl as <- _.
    rewrite Hb, hasChar_app in H1. simpl in H1. rewrite orb_true_r in H1. discriminate.
  - destruct l as [| c l]; [rewrite append_nil_r in Hb; subst; reflexivity |].
    exfalso. simpl in Hl. injection Hl as <- _.
    rewrite Hb, hasChar_app in H1'. simpl in H1'. rewrite orb_true_r in H1'. discriminate.
Qed.

Lemma token_starts t : isToken t -> exists r, t = String "{" r.
Proof. intros [body [-> _]]. eexists. reflexivity. Qed.

(** Two different tokens do not overlap: an occurrence of one in a text
    cut at an occurrence of the other lies before or after the cut. *)
Lemma includes_around tok tok' b a :
  isToken tok -> isToken tok' -> tok <> tok' ->
  includes tok' (b ++ tok ++ a) = true ->
  includes tok' b = true \/ includes tok' a = true.
Proof.
  intros Ht Ht' Hne H. destruct (includes_occurs _ _ H) as [u [w E]].
  destruct (token_starts _ Ht) as [rt Hrt]. destruct (token_starts _ Ht') as [rt' Hrt'].
  destruct (append_eq_append _ _ _ _ E) as [l [[Hb Hl] | [Hu Hl]]].
  - (* the occurrence starts inside [b] *)
    destruct (append_eq_append _ _ _ _ Hl) as [l2 [[H1 H2] | [H1 H2]]].
    + destruct l as [| c l].
      * simpl in H1. subst l2. exfalso. apply Hne.
        apply (token_same_start tok tok' a w Ht Ht'). exact H2.
      * destruct l2 as [| c2 l2].
        -- left. rewrite append_nil_r in H1. rewrite Hb, <- H1.
           rewrite <- (append_nil_r tok') at 2. apply splitFirst_complete.
        -- exfalso. rewrite Hrt in H2. simpl in H2. injection H2 as <- _.
           apply (token_inner_brace _ _ _ _ Ht' H1).
    + left. rewrite Hb, H1. apply splitFirst_complete.
  - (* the occurrence starts at or after the cut *)
    destruct (append_eq_append _ _ _ _ Hl) as [l2 [[H1 H2] | [H1 H2]]].
    + destruct l as [| c l].
      * simpl in H1. subst l2. exfalso. apply Hne. symmetry.
        apply (token_same_start tok' tok w a Ht' Ht). exact H2.
      * destruct l2 as [| c2 l2].
        -- right. simpl in H2. rewrite <- H2.
           change (tok' ++ w) with (EmptyString ++ tok' ++ w).
           apply splitFirst_complete.
        -- exfalso. rewrite Hrt' in H2. simpl in H2. injection H2 as <- _.
           apply (token_inner_brace _ _ _ _ Ht H1).
    + right. rewrite H2. apply splitFirst_complete.
Qed.

Lemma slotToken_isToken k : isToken (slotToken k).
Proof.
  destruct k; [exists "part" | exists "index" | exists "start" | exists "end"];
    repeat split; reflexivity.
Qed.

Lemma nameToken_isToken : isToken "{name}".
Proof. exists "name". repeat split; reflexivity. Qed.

(** A replacement leaves the occurrences of the other tokens in the
    literal text. *)
Lemma fill_keeps_literal k x0 rest tok' :
  isToken tok' -> slotToken k <> tok' ->
  literalIncludes tok' (x0, rest) = true ->
  literalIncludes tok' (fill k x0 rest) = true.
Proof.
  intros Ht Hne. unfold literalIncludes. cbn [fst snd].
  revert x0. induction rest as [| [k1 x1] rest IH]; intros x0 H.
  - cbn [fill]. destruct (splitFirst (slotToken k) x0) as [[b a] |] eqn:E.
    + cbn [fst snd existsb]. cbn [existsb] in H. rewrite orb_false_r in H.
      rewrite (splitFirst_sound _ _ _ _ E) in H.
      destruct (includes_around _ _ _ _ (slotToken_isToken k) Ht Hne H) as [H' | H'];
        rewrite H'; [reflexivity | rewrite orb_true_r; reflexivity].
    + exact H.
  - cbn [fill]. destruct (splitFirst (slotToken k) x0) as [[b a] |] eqn:E.
    + cbn [fst snd existsb]. cbn [fst snd existsb] in H.
      apply orb_true_iff in H. destruct H as [H | H].
      * rewrite (splitFirst_sound _ _ _ _ E) in H.
        destruct (includes_around _ _ _ _ (slotToken_isToken k) Ht Hne H) as [H' | H'];
          rewrite H'; [reflexivity | rewrite orb_true_r; reflexivity].
      * rewrite H. rewrite !orb_true_r. reflexivity.
    + cbn [fst snd existsb]. cbn [fst snd existsb] in H.
      apply orb_true_iff in H. destruct H as [H | H].
      * rewrite H. reflexivity.
      * rewrite (IH x1 H). apply orb_true_r.
Qed.

(** The replacement of [{name}] leaves the occurrences of the other
    tokens in the template. *)
Lemma replace_name_keeps tmpl base tok' :
  isToken tok' -> "{name}" <> tok' ->
  includes tok' tmpl = true -> includes tok' (replace tmpl "{name}" base) = true.
Proof.
  intros Ht Hne H. unfold replace.
  destruct (splitFirst "{name}" tmpl) as [[b a] |] eqn:E; [| exact H].
  rewrite (splitFirst_sound _ _ _ _ E) in H.
  destruct (includes_around _ _ _ _ nameToken_isToken Ht Hne H) as [H' | H'].
  - apply includes_append_l. exact H'.
  - apply includes_append_r. apply includes_append_r. exact H'.
Qed.

(** An index-bearing token in the text makes its value part of the
    name. *)
Lemma nameStructure_slots s1 :
  includes "{part}" s1 = true \/ includes "{index}" s1 = true ->
  exists k, (k = PartSlot \/ k = IndexSlot) /\
            In k (map fst (snd (nameStructure s1))).
Proof.
  intros H. unfold nameStructure.
  set (t2 := fill PartSlot s1 []).
  set (t3 := fill IndexSlot (fst t2) (snd t2)).
  set (t4 := fill StartSlot (fst t3) (snd t3)).
  destruct H as [H | H].
  - exists PartSlot. split; [left; reflexivity |].
    do 3 apply fill_keeps_slots. apply fill_adds_slot.
    unfold literalIncludes. simpl. rewrite orb_false_r. exact H.
  - exists IndexSlot. split; [right; reflexivity |].
    do 2 apply fill_keeps_slots. apply fill_adds_slot.
    destruct t2 as [x rest] eqn:E2. simpl fst. simpl snd. rewrite <- E2.
    apply (fill_keeps_literal PartSlot s1 [] "{index}" (slotToken_isToken IndexSlot)).
    + discriminate.
    + unfold literalIncludes. simpl. rewrite orb_false_r. exact H.
Qed.

(** Names of a template with an index-bearing token: a later index and
    times that are not smaller give another name. *)
Lemma generateClipName_distinct file tmpl i j s e s' e' :
  includes "{part}" tmpl = true \/ includes "{index}" tmpl = true ->
  (i < j)%nat -> 0 <= s -> s <= s' -> 0 <= e -> e <= e' ->
  generateClipName file tmpl i s e <> generateClipName file tmpl j s' e'.
Proof.
  intros Htok Hij Hs Hss He Hee Heq.
  rewrite !generateClipName_render in Heq by lra.
  apply append_inv_tail in Heq. unfold render in Heq.
  apply append_inv_head in Heq.
  set (s1 := replace tmpl "{name}" (removeExtension file)) in *.
  assert (Htok1 : includes "{part}" s1 = true \/ includes "{index}" s1 = true).
  { destruct Htok as [H | H]; [left | right];
      (apply replace_name_keeps; [| discriminate | exact H]).
    - apply (slotToken_isToken PartSlot).
    - apply (slotToken_isToken IndexSlot). }
  destruct (nameStructure_slots s1 Htok1) as [k [Hk Hin]].
  assert (Hv : slotValue i s e k = slotValue j s' e' k).
  { apply (renderTail_inj _ _ (snd (nameStructure s1))); [| exact Heq | exact Hin].
    intros k' _. apply slotValue_length_mono; [lia | assumption ..]. }
  apply (slotValue_index_inj _ _ _ _ _ _ _ Hk) in Hv. lia.
Qed.

Lemma increasing_nth lo l i j a b :
  increasing lo l -> (i < j)%nat ->
  nth_error l i = Some a -> nth_error l j = Some b ->
  lo <= start a /\ start a < end_ a /\ end_ a <= start b /\ start b < end_ b.
Proof.
  revert lo i j. induction l as [| iv l IH]; intros lo i j H Hij Ha Hb.
  - destruct i; discriminate.
  - destruct H as [H1 [H2 H3]]. destruct j as [| j]; [lia |]. simpl in Hb.
    destruct i as [| i].
    + simpl in Ha. injection Ha as <-. split; [exact H1 |]. split; [exact H2 |].
      clear IH Hij. revert H3 Hb. generalize (end_ iv). clear.
      revert j. induction l as [| iv' l IH]; intros j q H Hb; [destruct j; discriminate |].
      destruct H as [H1 [H2 H3]]. destruct j as [| j].
      * simpl in Hb. injection Hb as <-. split; assumption.
      * simpl in Hb. destruct (IH j _ H3 Hb) as [H4 H5]. split; [lra | exact H5].
    + simpl in Ha. destruct (IH (end_ iv) i j H3 ltac:(lia) Ha Hb) as [H4 H5].
      split; [lra | exact H5].
Qed.

Lemma chain_increasing a l b hi :
  chain a l b -> Forall (within hi) l -> increasing a l.
Proof.
  revert a. induction l as [| iv l IH]; intros a Hc Hw; [exact I |].
  destruct Hc as [H1 H2]. inversion Hw as [| x y [_ [Hx _]] Hw']; subst.
  split; [lra |]. split; [exact Hx |]. apply IH; assumption.
Qed.

Lemma markerLoop_increasing bs prev lo :
  ascending prev bs -> lo <= prev -> increasing lo (markerLoop bs prev []).
Proof.
  revert prev lo. induction bs as [| b r IH]; intros prev lo Ha Hlo; [exact I |].
  destruct Ha as [Hpb Ha]. simpl markerLoop.
  destruct (Qltb (prev + (1 # 10)) b) eqn:E.
  - rewrite markerLoop_acc. simpl. apply Qltb_lt in E.
    split; [exact Hlo |]. split; [lra |]. apply IH; [exact Ha | lra].
  - apply IH; [exact Ha | lra].
Qed.

(** On valid input the planned intervals are in ascending order from
    0. *)
Lemma planIntervals_increasing fuel d markers ts l :
  validMarkers d markers ->
  (markers = [] -> 0 < Planner.duration ts) ->
  planIntervals fuel d markers ts = Some l -> increasing 0 l.
Proof.
  intros Hv Hfixed Hp. destruct markers as [| m ms].
  - specialize (Hfixed eq_refl).
    destruct (Qlt_le_dec 0 d) as [Hd | Hd].
    + unfold planIntervals, autoSplit in Hp. simpl in Hp.
      destruct (autoSplitLoop d ts fuel (mkLoop 0 []) 0) as [[s n] |] eqn:E;
        [| discriminate].
      injection Hp as <-.
      destruct (autoSplitLoop_post d ts fuel s n Hd Hfixed E)
        as [l0 [lst [_ [Hch [Hw _]]]]].
      apply (chain_increasing _ _ _ _ Hch Hw).
    + unfold planIntervals in Hp. simpl in Hp.
      rewrite (autoSplit_nonpositive fuel d ts Hd) in Hp. injection Hp as <-. exact I.
  - simpl in Hp. injection Hp as <-.
    assert (Hd0 : 0 <= d).
    { inversion Hv as [| x y [Hx1 Hx2] _]. lra. }
    apply markerLoop_increasing; [| lra].
    apply sort_ascending. apply validMarkers_boundaries; assumption.
Qed.

End NameFacts.

(** The default template on the third interval of [movie.mp4]. *)
Example default_template_name :
  generateClipName "movie.mp4" (template defaultTrim) 2 30 60
  = "movie_part3_30-60.mp4"%string.
Proof. reflexivity. Qed.

(** C7, as stated, fails: with the template [clip], which has no token,
    the two intervals of a 60-second clip get the same name. *)
Lemma C7_counterexample :
  let ts := mkTrim 30 "merge" 5 "copy" "clip" in
  planIntervals 2 60 [] ts = Some [mkInterval 0 30; mkInterval 30 60] /\
  clipName movie ts 0 (mkInterval 0 30) = clipName movie ts 1 (mkInterval 30 60).
Proof. split; reflexivity. Qed.

(** C7 (amended): when the template contains [{index}] or [{part}], the
    names generated for the intervals of one job on valid input (markers
    in [0, duration]; without markers a positive clip duration) are
    pairwise distinct across interval indices. *)
Theorem C7_names_distinct (data : Type) (file : videoFile (data := data))
    fuel d markers ts l i j a b :
  includes "{part}" (template ts) = true \/ includes "{index}" (template ts) = true ->
  validMarkers d markers ->
  (markers = [] -> 0 < Planner.duration ts) ->
  planIntervals fuel d markers ts = Some l ->
  nth_error l i = Some a -> nth_error l j = Some b -> i <> j ->
  clipName file ts i a <> clipName file ts j b.
Proof.
  intros Htok Hv Hfixed Hp Ha Hb Hij.
  pose proof (planIntervals_increasing fuel d markers ts l Hv Hfixed Hp) as Hinc.
  unfold clipName.
  destruct (Nat.lt_ge_cases i j) as [Hlt | Hge].
  - destruct (increasing_nth _ _ _ _ _ _ Hinc Hlt Ha Hb) as [H1 [H2 [H3 H4]]].
    apply generateClipName_distinct; try assumption; lra.
  - assert (Hlt : (j < i)%nat) by lia.
    destruct (increasing_nth _ _ _ _ _ _ Hinc Hlt Hb Ha) as [H1 [H2 [H3 H4]]].
    intros H. symmetry in H. revert H.
    apply generateClipName_distinct; try assumption; lra.
Qed.

Lemma C7_names_distinct_witness :
  clipName movie defaultTrim 0 (mkInterval 0 30)
  <> clipName movie defaultTrim 2 (mkInterval 60 95).
Proof.
  apply (C7_names_distinct string movie 3 95 [] (trimWith 30 "merge" 6)
           [mkInterval 0 30; mkInterval 30 60; mkInterval 60 95] 0 2).
  - right. reflexivity.
  - constructor.
  - intros _. reflexivity.
  - reflexivity.
  - reflexivity.
  - reflexivity.
  - discriminate.
Defined.

(** * Further properties of the planner *)

Section PlannerMore.

Local Open Scope Q_scope.

Lemma ascending_last b r : ascending b r -> b <= last r b.
Proof.
  revert b. induction r as [| c r IH]; intros b Ha.
  - simpl. lra.
  - rewrite last_cons_default. destruct Ha as [Hbc Ha]. specialize (IH c Ha). lra.
Qed.

Lemma markerLoop_within bs prev :
  ascending prev bs -> 0 <= prev ->
  Forall (within (last bs prev)) (markerLoop bs prev []).
Proof.
  revert prev. induction bs as [| b r IH]; intros prev Ha H0; [constructor |].
  rewrite last_cons_default. destruct Ha as [Hpb Ha]. simpl markerLoop.
  pose proof (ascending_last b r Ha) as Hlast.
  destruct (Qltb (prev + (1 # 10)) b) eqn:E.
  - rewrite markerLoop_acc. apply Forall_app. split.
    + constructor; [| constructor]. apply Qltb_lt in E. unfold within; simpl. lra.
    + apply IH; [exact Ha | lra].
  - apply IH; [exact Ha | lra].
Qed.

Lemma increasing_ordered lo l i j a b :
  increasing lo l -> (i < j)%nat ->
  nth_error l i = Some a -> nth_error l j = Some b -> end_ a <= start b.
Proof.
  intros H Hij Ha Hb. destruct (increasing_nth _ _ _ _ _ _ H Hij Ha Hb) as [_ [_ [H3 _]]].
  exact H3.
Qed.



(** One pass, with what decides the end of the interval it pushes. *)
Lemma loopBody_detail d ts s :
  0 < Planner.duration ts -> current s < d ->
  let end0 := Qmin (current s + Planner.duration ts) d in
  let push e := intervals s ++ [mkInterval (current s) e] in
  (loopBody d ts s = Continue (mkLoop end0 (push end0)) /\
     end0 == current s + Planner.duration ts /\ end0 < d /\
     (knownPolicy ts -> ~ belowThreshold ts (d - end0)))
  \/ (loopBody d ts s = Break (mkLoop end0 (push end0)) /\
      end0 == d /\ d <= current s + Planner.duration ts)
  \/ (autoFit ts = "merge"%string /\
      loopBody d ts s = Break (mkLoop d (push d)) /\
      end0 == current s + Planner.duration ts /\ belowThreshold ts (d - end0))
  \/ (autoFit ts = "discard"%string /\
      loopBody d ts s = Break (mkLoop d (push end0)) /\
      end0 == current s + Planner.duration ts /\ belowThreshold ts (d - end0)).
Proof.
  intros Hc Hlt end0 push.
  assert (Hcases : (end0 == current s + Planner.duration ts /\ end0 < d)
                   \/ (end0 == d /\ d <= current s + Planner.duration ts)).
  { unfold end0.
    destruct (Q.min_spec (current s + Planner.duration ts) d) as [[H1 H2] | [H1 H2]].
    - left. split; [exact H2 | lra].
    - right. split; [exact H2 | exact H1]. }
  assert (Hfin : (if Qle_bool d end0 then Break (mkLoop end0 (push end0))
                  else Continue (mkLoop end0 (push end0)))
                 = (if Qle_bool d end0 then Break (mkLoop end0 (push end0))
                    else Continue (mkLoop end0 (push end0)))) by reflexivity.
  unfold belowThreshold, knownPolicy, loopBody. fold end0. fold push.
  destruct (Qltb 0 (d - end0) && Qltb (d - end0) (remainderThreshold ts)) eqn:Erem.
  - apply andb_true_iff in Erem. destruct Erem as [E1 E2].
    apply Qltb_lt in E1. apply Qltb_lt in E2.
    assert (He : end0 == current s + Planner.duration ts)
      by (destruct Hcases as [[H _] | [H _]]; [exact H | lra]).
    destruct (String.eqb (autoFit ts) "merge") eqn:Em.
    + apply String.eqb_eq in Em. right. right. left.
      assert (Hdd : Qle_bool d d = true) by (apply Qle_bool_iff; lra).
      rewrite Hdd. repeat split; assumption.
    + destruct (String.eqb (autoFit ts) "discard") eqn:Edis.
      * apply String.eqb_eq in Edis. right. right. right. repeat split; assumption.
      * apply String.eqb_neq in Em. apply String.eqb_neq in Edis.
        assert (Hle : Qle_bool d end0 = false).
        { destruct (Qle_bool d end0) eqn:E; [| reflexivity].
          apply Qle_bool_iff in E. lra. }
        rewrite Hle. left. split; [reflexivity |]. split; [exact He |].
        split; [lra |]. intros [H | H]; contradiction.
  - assert (Hnot : ~ (0 < d - end0 /\ d - end0 < remainderThreshold ts)).
    { intros [Ha Hb]. apply Qltb_lt in Ha. apply Qltb_lt in Hb.
      rewrite Ha, Hb in Erem. discriminate. }
    destruct (Qle_bool d end0) eqn:E.
    + apply Qle_bool_iff in E. right. left. split; [reflexivity |].
      destruct Hcases as [[H1 H2] | [H1 H2]]; [lra |]. split; assumption.
    + assert (Hlt' : end0 < d).
      { destruct (Qlt_le_dec end0 d) as [H | H]; [exact H |].
        apply Qle_bool_iff in H. congruence. }
      left. split; [reflexivity |].
      destruct Hcases as [[H1 H2] | [H1 H2]]; [| lra].
      split; [exact H1 |]. split; [exact Hlt' |]. intros _. exact Hnot.
Qed.




Lemma markerLoop_app l1 l2 prev acc :
  markerLoop (l1 ++ l2) prev acc
  = markerLoop l2 (last l1 prev) (markerLoop l1 prev acc).
Proof.
  revert prev acc. induction l1 as [| b r IH]; intros prev acc; [reflexivity |].
  rewrite last_cons_default. simpl. apply IH.
Qed.

(** Every interval of the marker walk is longer than 0.1, starts at the
    initial cursor or at a boundary and ends at a boundary. *)
Lemma markerLoop_endpoints bs prev :
  Forall (fun iv => start iv + (1 # 10) < end_ iv /\
                    (start iv = prev \/ In (start iv) bs) /\ In (end_ iv) bs)
         (markerLoop bs prev []).
Proof.
  revert prev. induction bs as [| b r IH]; intros prev; [constructor |].
  simpl markerLoop.
  assert (Hrest : Forall (fun iv => start iv + (1 # 10) < end_ iv /\
                    (start iv = prev \/ In (start iv) (b :: r)) /\ In (end_ iv) (b :: r))
                    (markerLoop r b [])).
  { generalize (IH b). apply Forall_impl. intros iv [H1 [H2 H3]].
    split; [exact H1 |]. split; [| right; exact H3].
    right. destruct H2 as [H2 | H2]; [left; symmetry; exact H2 | right; exact H2]. }
  destruct (Qltb (prev + (1 # 10)) b) eqn:E.
  - rewrite markerLoop_acc. apply Forall_app. split; [| exact Hrest].
    constructor; [| constructor]. apply Qltb_lt in E. simpl.
    split; [exact E |]. split; [left; reflexivity | left; reflexivity].
  - exact Hrest.
Qed.

Lemma countKept_le bs prev : (countKept prev bs <= List.length bs)%nat.
Proof.
  revert prev. induction bs as [| b r IH]; intros prev; simpl; [lia |].
  specialize (IH b). destruct (Qltb (prev + (1 # 10)) b); lia.
Qed.

Lemma insert_zero l : ascending 0 l -> insert 0 l = 0 :: l.
Proof.
  destruct l as [| y l]; [reflexivity |]. intros [H _]. simpl.
  apply Qle_bool_iff in H. rewrite H. reflexivity.
Qed.

End PlannerMore.

(** X1: on valid input (markers in [0, duration]; without markers a
    positive clip duration) every planned interval has positive length and
    lies inside [0, duration], and an interval never starts before an
    earlier one has ended. *)
Theorem X1_intervals_bounded_and_ordered fuel d markers ts l :
  validMarkers d markers ->
  (markers = [] -> 0 < Planner.duration ts) ->
  planIntervals fuel d markers ts = Some l ->
  Forall (within d) l /\
  forall i j a b, (i < j)%nat ->
    nth_error l i = Some a -> nth_error l j = Some b -> end_ a <= start b.
Proof.
  intros Hv Hfixed Hp. split.
  - destruct markers as [| m ms].
    + specialize (Hfixed eq_refl).
      destruct (Qlt_le_dec 0 d) as [Hd | Hd].
      * unfold planIntervals, autoSplit in Hp. simpl in Hp.
        destruct (autoSplitLoop d ts fuel (mkLoop 0 []) 0) as [[s n] |] eqn:E;
          [| discriminate].
        injection Hp as <-.
        destruct (autoSplitLoop_post d ts fuel s n Hd Hfixed E)
          as [l0 [lst [_ [_ [Hw [Hle _]]]]]].
        apply (within_weaken (end_ lst)); assumption.
      * unfold planIntervals in Hp. simpl in Hp.
        rewrite (autoSplit_nonpositive fuel d ts Hd) in Hp. injection Hp as <-.
        constructor.
    + simpl in Hp. injection Hp as <-.
      assert (Hd0 : 0 <= d).
      { inversion Hv as [| x y [Hx1 Hx2] _]. lra. }
      unfold splitByMarkers. rewrite <- (splitByMarkers_last d (m :: ms) Hv) at 1.
      apply markerLoop_within; [| lra].
      apply sort_ascending. apply validMarkers_boundaries; assumption.
  - intros i j a b Hij Ha Hb.
    apply (increasing_ordered 0 l i j a b); try assumption.
    apply (planIntervals_increasing fuel d markers ts l Hv Hfixed Hp).
Qed.

Lemma X1_intervals_bounded_and_ordered_witness :
  Forall (within 20) [mkInterval 0 10; mkInterval (201 # 20) 20].
Proof.
  apply (X1_intervals_bounded_and_ordered 0 20 [10; 201 # 20] defaultTrim
           [mkInterval 0 10; mkInterval (201 # 20) 20]).
  - repeat constructor; discriminate.
  - intros H. discriminate.
  - reflexivity.
Defined.






(** X4: a clip duration not below the duration of the video (> 0) gives
    the single interval from 0 to the duration, whatever the policy. *)
Theorem X4_single_interval fuel d ts :
  0 < d -> d <= Planner.duration ts -> (1 <= fuel)%nat ->
  exists e, planIntervals fuel d [] ts = Some [mkInterval 0 e] /\ e == d.
Proof.
  intros Hd Hle Hf. destruct fuel as [| fuel]; [lia |].
  assert (Hc : 0 < Planner.duration ts) by lra.
  unfold planIntervals, autoSplit. simpl.
  assert (E : Qltb 0 d = true) by (apply Qltb_lt; exact Hd). rewrite E.
  destruct (loopBody_detail d ts (mkLoop 0 []) Hc Hd)
    as [[_ [He [Hed _]]] | [[-> [He _]] | [[_ [_ [He [Hb _]]]] | [_ [_ [He [Hb _]]]]]]];
    simpl in *; try lra.
  eexists. split; [reflexivity | exact He].
Qed.

Lemma X4_single_interval_witness :
  exists e, planIntervals 1 20 [] defaultTrim = Some [mkInterval 0 e] /\ e == 20.
Proof.
  apply (X4_single_interval 1 20 defaultTrim); [reflexivity | discriminate | lia].
Defined.

(** X5: in marker mode (markers in [0, duration]) every interval is
    longer than 0.1 s, starts at 0 or at a marker, ends at a marker or at
    the duration, and there are at most (number of markers + 1)
    intervals. *)
Theorem X5_marker_intervals fuel d markers ts :
  markers <> [] -> validMarkers d markers ->
  exists l,
    planIntervals fuel d markers ts = Some l /\
    Forall (fun iv => start iv + (1 # 10) < end_ iv /\
                      (start iv = 0 \/ In (start iv) markers) /\
                      (In (end_ iv) markers \/ end_ iv = d)) l /\
    (List.length l <= List.length markers + 1)%nat.
Proof.
  intros Hne Hv. exists (splitByMarkers d markers).
  split; [unfold planIntervals; destruct markers; [congruence | reflexivity] |].
  assert (Hd0 : 0 <= d).
  { destruct markers as [| m ms]; [congruence |].
    inversion Hv as [| x y [Hx1 Hx2] _]. lra. }
  assert (Hw : Forall (within d) (splitByMarkers d markers)).
  { unfold splitByMarkers. rewrite <- (splitByMarkers_last d markers Hv) at 1.
    apply markerLoop_within; [| lra].
    apply sort_ascending. apply validMarkers_boundaries; assumption. }
  assert (Hin : forall x, In x (sort (markers ++ [d])) -> In x markers \/ x = d).
  { intros x Hx. apply sort_In in Hx. apply in_app_or in Hx.
    destruct Hx as [Hx | [Hx | []]]; [left; exact Hx | right; symmetry; exact Hx]. }
  unfold splitByMarkers in *. split.
  - pose proof (markerLoop_endpoints (sort (markers ++ [d])) 0) as He.
    rewrite Forall_forall in He, Hw |- *. intros iv Hiv.
    destruct (He iv Hiv) as [H1 [H2 H3]]. destruct (Hw iv Hiv) as [_ [_ Hle]].
    split; [exact H1 |]. split; [| apply Hin; exact H3].
    destruct H2 as [H2 | H2]; [left; exact H2 |].
    destruct (Hin _ H2) as [H | H]; [right; exact H |].
    exfalso. rewrite H in H1. lra.
  - rewrite markerLoop_length. pose proof (countKept_le (sort (markers ++ [d])) 0) as H.
    rewrite sort_length, length_app in H. simpl in H. exact H.
Qed.

Lemma X5_marker_intervals_witness :
  exists l,
    planIntervals 0 95 [30; 60] defaultTrim = Some l /\
    Forall (fun iv => start iv + (1 # 10) < end_ iv /\
                      (start iv = 0 \/ In (start iv) [30; 60]) /\
                      (In (end_ iv) [30; 60] \/ end_ iv = 95)) l /\
    (List.length l <= List.length [30; 60] + 1)%nat.
Proof.
  apply (X5_marker_intervals 0 95 [30; 60] defaultTrim);
    [discriminate | repeat constructor; discriminate].
Defined.

(** In exact arithmetic a marker at 0 put first and a marker equal to
    the duration put last leave the marker loop as it is. *)
Lemma splitByMarkers_boundary_markers d markers :
  validMarkers d markers -> 0 <= d ->
  splitByMarkers d (0 :: markers) = splitByMarkers d markers /\
  splitByMarkers d (markers ++ [d]) = splitByMarkers d markers.
Proof.
  intros Hv Hd. unfold splitByMarkers. split.
  - change (sort ((0 :: markers) ++ [d])) with (insert 0 (sort (markers ++ [d]))).
    rewrite insert_zero.
    + reflexivity.
    + apply sort_ascending. apply validMarkers_boundaries; assumption.
  - assert (Hv' : Forall (fun m => m <= d) (markers ++ [d])).
    { apply Forall_app. split; [apply validMarkers_le; exact Hv |].
      constructor; [lra | constructor]. }
    rewrite (sort_snoc _ _ Hv'). rewrite markerLoop_app.
    rewrite (splitByMarkers_last d markers Hv). simpl.
    assert (E : Qltb (d + (1 # 10)) d = false) by (apply Qltb_ge; lra).
    rewrite E. reflexivity.
Qed.

(** * Properties of the marker list *)

Import Markers.

Section MarkerFacts.

Local Open Scope Q_scope.

Lemma includesTime_false t l :
  includesTime t l = false -> forall y, In y l -> ~ t == y.
Proof.
  unfold includesTime. intros H y Hy Heq.
  assert (Ht : existsb (Qeq_bool t) l = true).
  { apply existsb_exists. exists y. split; [exact Hy | apply Qeq_bool_iff; exact Heq]. }
  congruence.
Qed.

Lemma strictFrom_weaken lo lo' l : lo' <= lo -> strictFrom lo l -> strictFrom lo' l.
Proof.
  destruct l as [| b r]; [intros; exact I |]. intros Hle [H1 H2].
  split; [lra | exact H2].
Qed.

Lemma insert_strictFrom lo x l :
  lo < x -> strictFrom lo l -> (forall y, In y l -> ~ x == y) ->
  strictFrom lo (insert x l).
Proof.
  revert lo. induction l as [| y l IH]; intros lo Hlo Hs Hne; simpl.
  - split; [exact Hlo | exact I].
  - destruct Hs as [Hy Hs]. destruct (Qle_bool x y) eqn:E.
    + apply Qle_bool_iff in E. simpl.
      assert (Hxy : ~ x == y) by (apply Hne; left; reflexivity).
      split; [exact Hlo |]. split; [lra | exact Hs].
    + simpl. split; [exact Hy |]. apply IH.
      * destruct (Qlt_le_dec y x) as [H | H]; [exact H |].
        apply Qle_bool_iff in H. congruence.
      * exact Hs.
      * intros z Hz. apply Hne. right. exact Hz.
Qed.

Lemma insert_strictlyAscending x l :
  strictlyAscending l -> (forall y, In y l -> ~ x == y) ->
  strictlyAscending (insert x l).
Proof.
  destruct l as [| y l]; [intros; exact I |]. intros Hs Hne. simpl.
  destruct (Qle_bool x y) eqn:E.
  - apply Qle_bool_iff in E. simpl.
    assert (Hxy : ~ x == y) by (apply Hne; left; reflexivity).
    split; [lra | exact Hs].
  - simpl. apply insert_strictFrom.
    + destruct (Qlt_le_dec y x) as [H | H]; [exact H |].
      apply Qle_bool_iff in H. congruence.
    + exact Hs.
    + intros z Hz. apply Hne. right. exact Hz.
Qed.

Lemma strictFrom_above lo l y : strictFrom lo l -> In y l -> lo < y.
Proof.
  revert lo. induction l as [| b r IH]; intros lo Hs Hy; [destruct Hy |].
  destruct Hs as [H1 H2]. destruct Hy as [<- | Hy]; [exact H1 |].
  specialize (IH b H2 Hy). lra.
Qed.

(** Sorting a strictly ascending list with one new time put at its end
    gives a strictly ascending list. *)
Lemma sort_snoc_strict l t :
  strictlyAscending l -> (forall y, In y l -> ~ t == y) ->
  strictlyAscending (sort (l ++ [t])).
Proof.
  induction l as [| a l IH]; intros Hs Hne; [exact I |].
  change (sort ((a :: l) ++ [t])) with (insert a (sort (l ++ [t]))).
  apply insert_strictlyAscending.
  - apply IH.
    + destruct l as [| b l]; [exact I |]. destruct Hs as [_ Hs]. exact Hs.
    + intros y Hy. apply Hne. right. exact Hy.
  - intros y Hy. apply sort_In in Hy. apply in_app_or in Hy.
    destruct Hy as [Hy | [<- | []]].
    + pose proof (strictFrom_above a l y Hs Hy). lra.
    + intros H. apply (Hne a); [left; reflexivity | symmetry; exact H].
Qed.

Lemma filterIndexed_strictFrom lo keep i0 l :
  strictFrom lo l -> strictFrom lo (filterIndexed keep i0 l).
Proof.
  revert lo i0. induction l as [| b r IH]; intros lo i0 Hs; [exact I |].
  destruct Hs as [H1 H2]. simpl. destruct (keep b i0).
  - split; [exact H1 | apply IH; exact H2].
  - apply IH. apply (strictFrom_weaken b); [lra | exact H2].
Qed.

Lemma filterIndexed_strictlyAscending keep i0 l :
  strictlyAscending l -> strictlyAscending (filterIndexed keep i0 l).
Proof.
  revert i0. induction l as [| a r IH]; intros i0 Hs; [exact I |].
  simpl. destruct (keep a i0).
  - simpl. apply filterIndexed_strictFrom. exact Hs.
  - apply IH. destruct r as [| b r]; [exact I |]. destruct Hs as [_ Hs]. exact Hs.
Qed.

End MarkerFacts.

(** X7: the marker list stays strictly ascending (sorted, without two
    equal times) under [addMarker] and [removeMarker]. *)
Theorem X7_markers_stay_sorted markers :
  strictlyAscending markers ->
  (forall currentTime, strictlyAscending (addMarker currentTime markers)) /\
  (forall index, strictlyAscending (removeMarker index markers)).
Proof.
  intros Hs. split.
  - intros [t |]; [| exact Hs]. unfold addMarker.
    destruct (includesTime t markers) eqn:E; [exact Hs |].
    apply sort_snoc_strict; [exact Hs | apply includesTime_false; exact E].
  - intros index. apply filterIndexed_strictlyAscending. exact Hs.
Qed.

Lemma X7_markers_stay_sorted_witness :
  strictlyAscending (addMarker (Some 45) [30; 60]) /\
  strictlyAscending (removeMarker 0 [30; 60]).
Proof.
  destruct (X7_markers_stay_sorted [30; 60]) as [H1 H2].
  - simpl. split; [reflexivity | exact I].
  - split; [apply H1 | apply H2].
Defined.

Section MarkerEdits.

Local Open Scope Q_scope.

Lemma insert_In_conv x y l : y = x \/ In y l -> In y (insert x l).
Proof.
  induction l as [| z l IH]; simpl.
  - intros [-> | []]. left. reflexivity.
  - destruct (Qle_bool x z); simpl.
    + intros [-> | [H | H]]; [left; reflexivity | right; left; exact H | right; right; exact H].
    + intros [-> | [H | H]]; [right; apply IH; left; reflexivity | left; exact H |].
      right. apply IH. right. exact H.
Qed.

Lemma sort_In_conv y l : In y l -> In y (sort l).
Proof.
  induction l as [| x l IH]; [tauto |]. intros [<- | H]; simpl.
  - apply insert_In_conv. left. reflexivity.
  - apply insert_In_conv. right. apply IH. exact H.
Qed.

Lemma includesTime_added t l : includesTime t (sort (l ++ [t])) = true.
Proof.
  unfold includesTime. apply existsb_exists. exists t. split.
  - apply sort_In_conv. apply in_or_app. right. left. reflexivity.
  - apply Qeq_bool_iff. reflexivity.
Qed.

Lemma filterIndexed_all {A : Type} (keep : A -> nat -> bool) i0 (l : list A) :
  (forall v i, (i0 <= i)%nat -> keep v i = true) -> filterIndexed keep i0 l = l.
Proof.
  revert i0. induction l as [| a r IH]; intros i0 H; [reflexivity |].
  simpl. rewrite (H a i0) by lia. rewrite IH; [reflexivity |].
  intros v i Hi. apply H. lia.
Qed.

Lemma filterIndexed_drop {A : Type} i0 k (l : list A) :
  filterIndexed (fun _ i => negb (Nat.eqb i (i0 + k))) i0 l
  = firstn k l ++ skipn (S k) l.
Proof.
  revert i0 k. induction l as [| a r IH]; intros i0 k.
  - destruct k; reflexivity.
  - destruct k as [| k].
    + simpl. replace (i0 + 0)%nat with i0 by lia. rewrite Nat.eqb_refl. simpl.
      apply filterIndexed_all. intros v i Hi.
      apply negb_true_iff. apply Nat.eqb_neq. lia.
    + simpl filterIndexed.
      assert (E : Nat.eqb i0 (i0 + S k) = false) by (apply Nat.eqb_neq; lia).
      rewrite E. simpl. f_equal.
      replace (i0 + S k)%nat with (S i0 + k)%nat by lia. apply IH.
Qed.

(** Sorting an ascending list with one time put at its end inserts the
    time somewhere and moves nothing else. *)
Lemma sort_snoc_inserts l t lo :
  ascending lo l ->
  exists pre post, l = pre ++ post /\ sort (l ++ [t]) = pre ++ t :: post.
Proof.
  revert lo. induction l as [| a l IH]; intros lo Ha.
  - exists [], []. split; reflexivity.
  - destruct Ha as [_ Ha]. destruct (IH a Ha) as [pre [post [Hl Hs]]].
    change (sort ((a :: l) ++ [t])) with (insert a (sort (l ++ [t]))).
    rewrite Hs. destruct pre as [| p pre].
    + simpl in Hl. subst post. simpl. destruct (Qle_bool a t) eqn:E.
      * exists [a], l. split; reflexivity.
      * exists [], (a :: l). split; [reflexivity |].
        simpl. f_equal. destruct l as [| b l]; [reflexivity |].
        destruct Ha as [Hab _]. simpl. apply Qle_bool_iff in Hab. rewrite Hab.
        reflexivity.
    + simpl in Hl. subst l. destruct Ha as [Hap _].
      simpl. apply Qle_bool_iff in Hap. rewrite Hap.
      exists (a :: p :: pre), post. split; reflexivity.
Qed.

Lemma strictFrom_ascending lo l : strictFrom lo l -> ascending lo l.
Proof.
  revert lo. induction l as [| b r IH]; intros lo H; [exact I |].
  destruct H as [H1 H2]. split; [lra | apply IH; exact H2].
Qed.

End MarkerEdits.

(** X8: after [addMarker] at a time the list includes that time; a
    second [addMarker] at the same time changes nothing; the list grows
    by one exactly when the time was not yet included. *)
Theorem X8_addMarker_once t markers :
  includesTime t (addMarker (Some t) markers) = true /\
  addMarker (Some t) (addMarker (Some t) markers) = addMarker (Some t) markers /\
  List.length (addMarker (Some t) markers)
  = (List.length markers + (if includesTime t markers then 0 else 1))%nat.
Proof.
  assert (H1 : includesTime t (addMarker (Some t) markers) = true).
  { unfold addMarker. destruct (includesTime t markers) eqn:E; [exact E |].
    apply includesTime_added. }
  split; [exact H1 |]. split.
  - unfold addMarker at 1. rewrite H1. reflexivity.
  - unfold addMarker. destruct (includesTime t markers); [lia |].
    rewrite sort_length, length_app. reflexivity.
Qed.

(** X9: [removeMarker] drops the marker at the index and keeps the
    others in order; an index past the end removes nothing; and on a
    strictly ascending list, removing a marker just added at a new time
    gives the list back. *)
Theorem X9_removeMarker index markers :
  removeMarker index markers = firstn index markers ++ skipn (S index) markers /\
  ((List.length markers <= index)%nat -> removeMarker index markers = markers) /\
  (forall t, strictlyAscending markers -> includesTime t markers = false ->
     exists i, (i <= List.length markers)%nat /\
               removeMarker i (addMarker (Some t) markers) = markers).
Proof.
  assert (Hsplit : forall i l, removeMarker i l = firstn i l ++ skipn (S i) l).
  { intros i l. unfold removeMarker. apply (filterIndexed_drop 0 i l). }
  split; [apply Hsplit |]. split.
  - intros Hle. rewrite Hsplit. rewrite firstn_all2 by exact Hle.
    rewrite skipn_all2 by lia. apply app_nil_r.
  - intros t Hs Hnew. unfold addMarker. rewrite Hnew.
    assert (Ha : exists lo, ascending lo markers).
    { destruct markers as [| a r]; [exists 0; exact I |].
      exists a. split; [lra | apply strictFrom_ascending; exact Hs]. }
    destruct Ha as [lo Ha].
    destruct (sort_snoc_inserts markers t lo Ha) as [pre [post [Hl Hsort]]].
    exists (List.length pre). split; [rewrite Hl, length_app; lia |].
    rewrite Hsort, Hsplit.
    rewrite firstn_app, Nat.sub_diag, firstn_all. simpl firstn. rewrite app_nil_r.
    replace (S (List.length pre)) with (List.length pre + 1)%nat by lia.
    rewrite skipn_app. rewrite skipn_all2 by lia.
    replace (List.length pre + 1 - List.length pre)%nat with 1%nat by lia.
    simpl. symmetry. exact Hl.
Qed.

Lemma X9_removeMarker_witness :
  exists i, (i <= List.length [30; 60])%nat /\
            removeMarker i (addMarker (Some 45) [30; 60]) = [30; 60].
Proof.
  destruct (X9_removeMarker 0 [30; 60]) as [_ [_ H]].
  apply (H 45); [simpl; split; [reflexivity | exact I] | reflexivity].
Defined.

(** * Properties of the displayed times *)

Import Display.

Section DisplayFacts.

Local Open Scope Q_scope.

Lemma Qfloor_unique z y :
  inject_Z z <= y -> y < inject_Z (z + 1) -> Qfloor y = z.
Proof.
  intros H1 H2.
  assert (Ha : (z <= Qfloor y)%Z).
  { rewrite <- (Qfloor_Z z). apply Qfloor_resp_le. exact H1. }
  assert (Hb : (Qfloor y < z + 1)%Z).
  { rewrite Zlt_Qlt. apply Qle_lt_trans with (y := y); [apply Qfloor_le | exact H2]. }
  lia.
Qed.

Lemma Qfloor_bounds y : inject_Z (Qfloor y) <= y /\ y < inject_Z (Qfloor y + 1).
Proof. split; [apply Qfloor_le | apply Qlt_floor]. Qed.

Lemma inject_Z_pos n : (0 < n)%Z -> 0 < inject_Z n.
Proof. intros H. change 0 with (inject_Z 0). rewrite <- Zlt_Qlt. exact H. Qed.

Lemma Qfloor_div_int x n :
  (0 < n)%Z -> Qfloor (x / inject_Z n) = (Qfloor x / n)%Z.
Proof.
  intros Hn. destruct (Qfloor_bounds x) as [H1 H2].
  pose proof (inject_Z_pos n Hn) as Hnq.
  pose proof (Z.div_mod (Qfloor x) n ltac:(lia)) as Hdm.
  pose proof (Z.mod_pos_bound (Qfloor x) n Hn) as Hmod.
  set (q := (Qfloor x / n)%Z) in *.
  apply Qfloor_unique.
  - apply Qle_shift_div_l; [exact Hnq |].
    apply Qle_trans with (y := inject_Z (Qfloor x)); [| exact H1].
    rewrite <- inject_Z_mult. rewrite <- Zle_Qle. lia.
  - apply Qlt_shift_div_r; [exact Hnq |].
    apply Qlt_le_trans with (y := inject_Z (Qfloor x + 1)); [exact H2 |].
    rewrite <- inject_Z_mult. rewrite <- Zle_Qle. lia.
Qed.

Lemma inject_Z_sub a b : inject_Z (a - b) = inject_Z a - inject_Z b.
Proof. unfold Z.sub. rewrite inject_Z_plus, inject_Z_opp. reflexivity. Qed.

Lemma Qfloor_minus_int x k : Qfloor (x - inject_Z k) = (Qfloor x - k)%Z.
Proof.
  destruct (Qfloor_bounds x) as [H1 H2]. apply Qfloor_unique.
  - rewrite inject_Z_sub. lra.
  - replace (Qfloor x - k + 1)%Z with (Qfloor x + 1 - k)%Z by lia.
    rewrite inject_Z_sub. lra.
Qed.

Lemma jsRem_nonneg x n :
  0 <= x -> (0 < n)%Z ->
  jsRem x (inject_Z n) == x - inject_Z (n * (Qfloor x / n)).
Proof.
  intros Hx Hn. unfold jsRem, jsTrunc.
  pose proof (inject_Z_pos n Hn) as Hnq.
  assert (Hq : 0 <= x / inject_Z n).
  { apply Qle_shift_div_l; [exact Hnq | lra]. }
  assert (E : Qltb (x / inject_Z n) 0 = false) by (apply Qltb_ge; exact Hq).
  rewrite E. rewrite (Qfloor_div_int x n Hn). rewrite inject_Z_mult. reflexivity.
Qed.

Lemma pad2_zero v : (0 <= v)%Z -> (pad2 v =? "00")%string = (v =? 0)%Z.
Proof.
  intros Hv. destruct (Z.eqb_spec v 0) as [-> | Hne]; [reflexivity |].
  apply String.eqb_neq. intros H. apply (f_equal decode) in H.
  unfold pad2, intString in H.
  destruct (v <? 0)%Z eqn:E; [apply Z.ltb_lt in E; lia |].
  rewrite padStart_decode in H.
  destruct (natString_spec v Hv) as [_ [Hd _]]. rewrite Hd in H.
  apply Hne. exact H.
Qed.

End DisplayFacts.

(** X10: for a time of at least 0 and less than 2^53 seconds with whole
    part t, formatTime shows minutes and seconds, (t mod 3600) / 60 and
    t mod 60, each padded to two digits, after the hours t / 3600, which
    are left out when they are 0.  (Below 2^53 every whole number is a
    double and is printed with all its digits.) *)
Theorem X10_formatTime seconds :
  0 <= seconds -> seconds < inject_Z (2 ^ 53) ->
  let t := Qfloor seconds in
  formatTime seconds
  = if (t / 3600 =? 0)%Z
    then (pad2 (t mod 3600 / 60) ++ ":" ++ pad2 (t mod 60))%string
    else (pad2 (t / 3600) ++ ":" ++ pad2 (t mod 3600 / 60) ++ ":"
            ++ pad2 (t mod 60))%string.
Proof.
  intros Hs _ t. unfold formatTime.
  assert (Ht : (0 <= t)%Z).
  { unfold t. rewrite <- (Qfloor_Z 0). apply Qfloor_resp_le. exact Hs. }
  assert (Hh : Qfloor (seconds / 3600) = (t / 3600)%Z)
    by (apply (Qfloor_div_int seconds 3600); lia).
  assert (Hm : Qfloor (jsRem seconds 3600 / 60) = (t mod 3600 / 60)%Z).
  { change (jsRem seconds 3600 / 60)
      with (jsRem seconds (inject_Z 3600) / inject_Z 60).
    rewrite (Qfloor_div_int _ 60) by lia.
    rewrite (Qfloor_comp _ _ (jsRem_nonneg seconds 3600 Hs ltac:(lia))).
    rewrite Qfloor_minus_int. fold t. rewrite Z.mod_eq by lia. reflexivity. }
  assert (Hsec : Qfloor (jsRem seconds 60) = (t mod 60)%Z).
  { change (jsRem seconds 60) with (jsRem seconds (inject_Z 60)).
    rewrite (Qfloor_comp _ _ (jsRem_nonneg seconds 60 Hs ltac:(lia))).
    rewrite Qfloor_minus_int. fold t. rewrite Z.mod_eq by lia. reflexivity. }
  rewrite Hh, Hm, Hsec. cbn [map filterIndexed Nat.ltb Nat.leb].
  rewrite !orb_true_r, orb_false_r.
  rewrite (pad2_zero (t / 3600)) by (apply Z.div_pos; lia).
  destruct (t / 3600 =? 0)%Z; reflexivity.
Qed.

Lemma X10_formatTime_witness :
  formatTime (7325 # 2) = "01:01:02"%string.
Proof.
  rewrite (X10_formatTime (7325 # 2)); [reflexivity | discriminate | reflexivity].
Defined.

(** * Further properties of the clip names *)

Section NameMore.

Local Open Scope string_scope.

Lemma isExtension_point x y : isExtension (x ++ String "." y) = false.
Proof.
  unfold isExtension. apply andb_false_iff. right.
  induction x as [| c x IH]; simpl; [reflexivity |].
  rewrite IH. apply andb_false_r.
Qed.

Lemma removeExtension_no_point s : hasChar "." s = false -> removeExtension s = s.
Proof.
  induction s as [| c s IH]; intros H; [reflexivity |].
  cbn [hasChar] in H. apply orb_false_iff in H. destruct H as [H1 H2].
  cbn [removeExtension]. rewrite Ascii.eqb_sym in H1. rewrite H1. simpl.
  rewrite (IH H2). reflexivity.
Qed.

Lemma removeExtension_prefix s : exists rest, s = removeExtension s ++ rest.
Proof.
  induction s as [| c s [rest IH]]; [exists EmptyString; reflexivity |].
  cbn [removeExtension]. destruct (Ascii.eqb c "." && isExtension s).
  - exists (String c s). reflexivity.
  - exists rest. simpl. rewrite <- IH. reflexivity.
Qed.

Lemma skip_append pat z : skip (String.length pat) (pat ++ z) = z.
Proof. induction pat as [| c pat IH]; simpl; [reflexivity | exact IH]. Qed.

(** Text [x] free of the first character of a pattern is passed over by
    the search, which goes on in what follows [x]. *)
Lemma splitFirst_behind c0 tok x z :
  hasChar c0 x = false ->
  splitFirst (String c0 tok) (x ++ z)
  = match splitFirst (String c0 tok) z with
    | Some (b, a) => Some (x ++ b, a)
    | None => None
    end.
Proof.
  intros H. induction x as [| c x IH].
  - simpl. destruct (splitFirst (String c0 tok) z) as [[b a] |]; reflexivity.
  - cbn [hasChar] in H. apply orb_false_iff in H. destruct H as [H1 H2].
    change (String c x ++ z) with (String c (x ++ z)).
    cbn [splitFirst startsWith]. rewrite H1. cbn [andb].
    rewrite (IH H2).
    destruct (splitFirst (String c0 tok) z) as [[b a] |]; reflexivity.
Qed.

Lemma splitFirst_absent c0 tok s :
  hasChar c0 s = false -> splitFirst (String c0 tok) s = None.
Proof.
  intros H. rewrite <- (append_nil_r s). rewrite (splitFirst_behind _ _ _ _ H).
  reflexivity.
Qed.

Lemma replace_absent c0 tok s v :
  hasChar c0 s = false -> replace s (String c0 tok) v = s.
Proof. intros H. unfold replace. rewrite (splitFirst_absent _ _ _ H). reflexivity. Qed.

(** Replacing a pattern that stands right behind text free of its first
    character. *)
Lemma replace_behind c0 tok x y v :
  hasChar c0 x = false -> hasChar "$" v = false ->
  replace (x ++ String c0 tok ++ y) (String c0 tok) v = x ++ v ++ y.
Proof.
  intros Hx Hv. unfold replace. rewrite (splitFirst_behind _ _ _ _ Hx).
  assert (E : splitFirst (String c0 tok) (String c0 tok ++ y) = Some (EmptyString, y)).
  { destruct (String c0 tok ++ y) as [| c s] eqn:Es; [discriminate |].
    cbn [splitFirst]. rewrite <- Es. rewrite startsWith_append, skip_append. reflexivity. }
  rewrite E. rewrite (getSubstitution_plain _ _ _ _ Hv), append_nil_r. reflexivity.
Qed.

Lemma digits_no_brace v : allChars isDigit v = true -> hasChar "{" v = false.
Proof.
  induction v as [| c v IH]; intros H; [reflexivity |].
  cbn [allChars] in H. apply andb_true_iff in H. destruct H as [H1 H2].
  cbn [hasChar]. rewrite (IH H2), orb_false_r.
  destruct (Ascii.eqb "{" c) eqn:E; [| reflexivity].
  apply Ascii.eqb_eq in E. subst c. discriminate.
Qed.

End NameMore.

(** X11: the base name is the file name without its last extension: a
    final point followed by at least one character, none of them a slash
    or a point, is cut off with what follows it; a name without a point
    is kept; and the base name is always a prefix of the file name. *)
Theorem X11_removeExtension :
  (forall base ext, isExtension ext = true ->
     removeExtension (base ++ String "." ext) = base) /\
  (forall name, hasChar "." name = false -> removeExtension name = name) /\
  (forall name, exists rest, name = (removeExtension name ++ rest)%string).
Proof.
  split; [| split; [apply removeExtension_no_point | apply removeExtension_prefix]].
  intros base ext Hext. induction base as [| c base IH].
  - simpl. rewrite Hext. reflexivity.
  - change (String c base ++ String "." ext)%string
      with (String c (base ++ String "." ext)).
    cbn [removeExtension]. rewrite isExtension_point, andb_false_r.
    rewrite IH. reflexivity.
Qed.

(** X12: a template without an opening brace is used as it is: every
    interval gets the name template + ".mp4". *)
Theorem X12_plain_template file tmpl i s e :
  hasChar "{" tmpl = false ->
  generateClipName file tmpl i s e = (tmpl ++ ".mp4")%string.
Proof.
  intros H. unfold generateClipName.
  rewrite !(replace_absent "{" _ tmpl _ H). reflexivity.
Qed.

Lemma X12_plain_template_witness :
  generateClipName "movie.mp4" "clip" 4 120 150 = "clip.mp4"%string.
Proof. apply X12_plain_template. reflexivity. Defined.

(** X13: with the default template, for a file whose base name has
    neither an opening brace nor a dollar sign and times >= 0 and less
    than 2^53, the name of interval i is base + "_part" + (i + 1) + "_" +
    floor(start) + "-" + floor(end) + ".mp4".  (Below 2^53 every whole
    number is a double and is printed with all its digits.) *)
Theorem X13_default_template file i s e :
  hasChar "{" (removeExtension file) = false ->
  hasChar "$" (removeExtension file) = false ->
  0 <= s -> s < inject_Z (2 ^ 53) -> 0 <= e -> e < inject_Z (2 ^ 53) ->
  generateClipName file (template defaultTrim) i s e
  = (removeExtension file ++ "_part" ++ natString (Z.of_nat (i + 1)) ++ "_"
       ++ natString (Qfloor s) ++ "-" ++ natString (Qfloor e) ++ ".mp4")%string.
Proof.
  intros Hb Hd Hs _ He _. unfold generateClipName.
  set (base := removeExtension file) in *.
  assert (Hf : forall x, 0 <= x -> (0 <= Qfloor x)%Z).
  { intros x Hx. change 0%Z with (Qfloor 0). apply Qfloor_resp_le. exact Hx. }
  assert (Hdig : forall n, (0 <= n)%Z ->
            hasChar "{" (natString n) = false /\ hasChar "$" (natString n) = false).
  { intros n Hn. destruct (natString_spec n Hn) as [H _].
    split; [apply digits_no_brace | apply digit_not_dollar]; exact H. }
  destruct (Hdig (Z.of_nat (i + 1)) ltac:(lia)) as [Hi1 Hi2].
  destruct (Hdig (Qfloor s) (Hf s Hs)) as [Hs1 Hs2].
  destruct (Hdig (Qfloor e) (Hf e He)) as [He1 He2].
  rewrite !floorString_nonneg by assumption.
  (* {name} *)
  change (template defaultTrim)
    with (EmptyString ++ "{name}" ++ "_part{index}_{start}-{end}")%string.
  rewrite (replace_behind "{" "name}" EmptyString _ base eq_refl Hd).
  cbn [append].
  (* {part}: absent *)
  assert (Hpart : forall v,
            replace (base ++ "_part{index}_{start}-{end}") "{part}" v
            = (base ++ "_part{index}_{start}-{end}")%string).
  { intros v. unfold replace. rewrite (splitFirst_behind "{" "part}" base _ Hb).
    reflexivity. }
  rewrite Hpart.
  (* {index} *)
  change (base ++ "_part{index}_{start}-{end}")%string
    with (base ++ "_part" ++ "{index}" ++ "_{start}-{end}")%string.
  rewrite <- (append_assoc base "_part").
  rewrite (replace_behind "{" "index}" (base ++ "_part") _ _); [| | exact Hi2].
  2: { rewrite hasChar_app, Hb. reflexivity. }
  (* {start} *)
  change "_{start}-{end}"%string with ("_" ++ "{start}" ++ "-{end}")%string.
  rewrite <- (append_assoc (natString (Z.of_nat (i + 1))) "_").
  rewrite <- (append_assoc (base ++ "_part")).
  rewrite (replace_behind "{" "start}" _ _ _); [| | exact Hs2].
  2: { rewrite !hasChar_app, Hb, Hi1. reflexivity. }
  (* {end} *)
  change "-{end}"%string with ("-" ++ "{end}" ++ EmptyString)%string.
  rewrite <- (append_assoc (natString (Qfloor s)) "-").
  rewrite <- (append_assoc ((base ++ "_part") ++ natString (Z.of_nat (i + 1)) ++ "_")).
  rewrite (replace_behind "{" "end}" _ _ _); [| | exact He2].
  2: { rewrite !hasChar_app, Hb, Hi1, Hs1. reflexivity. }
  rewrite !append_assoc. cbn [append]. rewrite ?append_nil_r. reflexivity.
Qed.

Lemma X13_default_template_witness :
  generateClipName "movie.mp4" (template defaultTrim) 2 30 60
  = "movie_part3_30-60.mp4"%string.
Proof.
  rewrite (X13_default_template "movie.mp4" 2 30 60);
    [reflexivity | reflexivity | reflexivity | discriminate | reflexivity
     | discriminate | reflexivity].
Defined.

(** * Further properties of the argument builder *)

Section BuilderMore.

Local Open Scope string_scope.

Lemma dropFinalSemicolon_snoc x : dropFinalSemicolon (x ++ ";") = x.
Proof.
  induction x as [| c x IH]; [reflexivity |].
  change (String c x ++ ";") with (String c (x ++ ";")).
  cbn [dropFinalSemicolon]. rewrite IH.
  destruct x; reflexivity.
Qed.

Lemma truthy_append_r x c y : truthy (x ++ String c y) = true.
Proof. destruct x; reflexivity. Qed.

Lemma truthy_iff s : truthy s = true <-> s <> EmptyString.
Proof.
  unfold truthy. destruct (String.eqb_spec s EmptyString) as [-> | H]; simpl.
  - split; [discriminate | intros H; contradiction].
  - split; [intros _; exact H | reflexivity].
Qed.

Lemma filterToken_starts c t :
  Ascii.eqb c "-" = false -> filterToken (String c t) = false.
Proof.
  intros H. unfold filterToken. cbn [String.eqb]. rewrite H. reflexivity.
Qed.

(** A stage appended to a graph: how the text splits around the output
    label of the stage. *)
Lemma stage_shape fc1 label1 pre w post out :
  fc1 ++ label1 ++ pre ++ w ++ (post ++ out ++ ";")
  = (fc1 ++ label1 ++ pre ++ w ++ post) ++ out ++ ";".
Proof. rewrite !append_assoc. reflexivity. Qed.

Lemma emitsFilter_encodeArgs ps : emitsFilter (encodeArgs ps) = transformActive ps.
Proof.
  unfold emitsFilter, encodeArgs, transformActive, filterGraph.
  destruct (String.eqb (resize ps) "9:16"); destruct (truthy (watermark ps)) eqn:Ew;
    destruct (normalize ps);
    try rewrite truthy_append_r;
    destruct (String.eqb (quality ps) "High");
    destruct (String.eqb (quality ps) "Medium"); reflexivity.
Qed.

End BuilderMore.

(** X14: the arguments of an interval hold a filter option
    ([-filter_complex] or [-af]) exactly when a transform is switched on
    (9:16 reframe, audio normalization, or a watermark text), whatever
    the mode and the other settings. *)
Theorem X14_filter_iff_transform ts ps file i iv :
  emitsFilter (buildArgs ts ps ("input_" ++ file)%string
                 (generateClipName file (template ts) i (start iv) (end_ iv)) iv)
  = transformActive ps.
Proof.
  unfold buildArgs, emitsFilter.
  cbn [existsb app]. rewrite !existsb_app. cbn [existsb].
  rewrite !(filterToken_no_point _ (toFixed3_has_point _)).
  rewrite (filterToken_no_point _ (generateClipName_has_point _ _ _ _ _)).
  change (filterToken "-ss") with false. change (filterToken "-i") with false.
  change (filterToken "-t") with false.
  change (filterToken ("input_" ++ file)) with false.
  cbn [orb]. rewrite orb_false_r.
  destruct (copyPath ts ps) eqn:Hc.
  - cbn [existsb]. change (filterToken "-c") with false.
    change (filterToken "copy") with false. cbn [orb].
    unfold copyPath in Hc. apply andb_true_iff in Hc. destruct Hc as [Hc Hw].
    apply andb_true_iff in Hc. destruct Hc as [Hc Hn].
    apply andb_true_iff in Hc. destruct Hc as [_ Hr].
    apply String.eqb_eq in Hr. unfold transformActive. rewrite Hr.
    apply negb_true_iff in Hn, Hw. rewrite Hn, Hw. reflexivity.
  - apply emitsFilter_encodeArgs.
Qed.

(** X15: a filter graph is built exactly when the 9:16 reframe or a
    watermark text is set; it then consists of stages each closed by a
    semicolon, its last stage writes to the label that is mapped as the
    video output, and the text passed to [-filter_complex] is the graph
    without its final semicolon; the mapped label is [v_out] with a
    watermark and [v] without. *)
Theorem X15_filter_graph ps :
  (truthy (fst (filterGraph ps)) = true
   <-> resize ps = "9:16"%string \/ watermark ps <> EmptyString) /\
  (truthy (fst (filterGraph ps)) = true ->
   exists body,
     fst (filterGraph ps) = (body ++ snd (filterGraph ps) ++ ";")%string /\
     dropFinalSemicolon (fst (filterGraph ps))
     = (body ++ snd (filterGraph ps))%string /\
     snd (filterGraph ps)
     = (if truthy (watermark ps) then "[v_out]" else "[v]")%string /\
     exists rest,
       encodeArgs ps
       = ("-filter_complex"%string :: (body ++ snd (filterGraph ps))%string
            :: "-map"%string :: snd (filterGraph ps) :: "-map"%string
            :: "0:a?"%string :: rest)).
Proof.
  split.
  - rewrite <- truthy_iff. rewrite <- String.eqb_eq. unfold filterGraph.
    destruct (String.eqb (resize ps) "9:16"); destruct (truthy (watermark ps)) eqn:Ew;
      try rewrite truthy_append_r; cbn [fst]; try (split; [intros _ | intros _; reflexivity]).
    + left. reflexivity.
    + left. reflexivity.
    + right. reflexivity.
    + split; [discriminate | intros [H | H]; discriminate].
  - intros Ht.
    assert (Hshape : exists body,
              fst (filterGraph ps) = (body ++ snd (filterGraph ps) ++ ";")%string /\
              snd (filterGraph ps)
              = (if truthy (watermark ps) then "[v_out]" else "[v]")%string).
    { revert Ht. unfold filterGraph.
      destruct (String.eqb (resize ps) "9:16"); destruct (truthy (watermark ps));
        cbn [fst snd]; intros Ht.
      - eexists. split; [| reflexivity].
        exact (stage_shape _ "[v]" "drawtext=text='" (watermark ps)
                 "':x=w-tw-20:y=h-th-20:fontsize=48:fontcolor=white:shadowcolor=black:shadowx=2:shadowy=2"
                 "[v_out]").
      - eexists. split; [| reflexivity].
        exact (stage_shape _ _ EmptyString EmptyString
                 "[bg][fg]overlay=(W-w)/2:(H-h)/2" "[v]").
      - eexists. split; [| reflexivity].
        exact (stage_shape EmptyString "[0:v]" "drawtext=text='" (watermark ps)
                 "':x=w-tw-20:y=h-th-20:fontsize=48:fontcolor=white:shadowcolor=black:shadowx=2:shadowy=2"
                 "[v_out]").
      - discriminate. }
    destruct Hshape as [body [Hf Hl]].
    exists body. split; [exact Hf |].
    assert (Hd : dropFinalSemicolon (fst (filterGraph ps))
                 = (body ++ snd (filterGraph ps))%string).
    { rewrite Hf at 1. rewrite <- append_assoc. apply dropFinalSemicolon_snoc. }
    split; [exact Hd |]. split; [exact Hl |].
    unfold encodeArgs. destruct (filterGraph ps) as [fc label].
    cbn [fst snd] in *. rewrite Ht, Hd. eexists. reflexivity.
Qed.

Lemma X15_filter_graph_witness :
  exists rest,
    encodeArgs (mkPremium "hi" "none" false "High")
    = ("-filter_complex"
       :: "[0:v]drawtext=text='hi':x=w-tw-20:y=h-th-20:fontsize=48:fontcolor=white:shadowcolor=black:shadowx=2:shadowy=2[v_out]"
       :: "-map" :: "[v_out]" :: "-map" :: "0:a?" :: rest)%string.
Proof.
  destruct (X15_filter_graph (mkPremium "hi" "none" false "High")) as [_ H].
  destruct (H eq_refl) as [body [_ [Hd [_ [rest Hr]]]]].
  rewrite <- Hd in Hr. exists rest. exact Hr.
Defined.

(** * Further properties of the job driver *)

Section DriverMore.

Context {data : Type} {engineState : Type}.
Variable writeFile : string -> data -> engineState -> outcome unit * engineState.
Variable exec : list string -> engineState -> outcome unit * engineState.
Variable readFile : string -> engineState -> outcome data * engineState.

Variable file : videoFile (data := data).
Variable ts : trimSettings.
Variable ps : premiumSettings.
Variable u : user.

Local Abbreviation cancelling := (mkMessage "Membatalkan proses..." info).
Local Abbreviation cancelled := (mkMessage "Proses dibatalkan." info).
Local Abbreviation finished := (mkMessage "Selesai! Semua klip telah diproses." success).
Local Abbreviation failed msg :=
  (mkMessage ("Terjadi kesalahan saat memproses: " ++ msg) error).
Local Abbreviation share i total :=
  ((inject_Z (Z.of_nat (i + 1)) / inject_Z (Z.of_nat total)) * 100)%Q.

Lemma bind_update {B} f (k : unit -> M (data := data) (engineState := engineState) B) st :
  bind (update f) k st = k tt (f st).
Proof. reflexivity. Qed.

Lemma bind_read {A B} (f : appState -> A)
    (k : A -> M (data := data) (engineState := engineState) B) st :
  bind (read f) k st = k (f st) st.
Proof. reflexivity. Qed.

Lemma bind_ret {A B} (a : A)
    (k : A -> M (data := data) (engineState := engineState) B) st :
  bind (ret a) k st = k a st.
Proof. reflexivity. Qed.

Lemma bind_result {A B} (m : M (data := data) (engineState := engineState) A)
    (k : A -> M B) st r st1 :
  m st = (r, st1) ->
  bind m k st = match r with
                | Returned a => k a st1
                | Thrown msg => (Thrown msg, st1)
                end.
Proof. intros H. unfold bind. rewrite H. reflexivity. Qed.

(** What pressing, or not pressing, the cancel button does. *)
Lemma userEvent_state b (st : appState (data := data) (engineState := engineState)) :
  exists st',
    userEvent b st = (Returned tt, st') /\
    shouldProcess st' = shouldProcess st && negb b /\
    appMessage st' = (if b then cancelling else appMessage st) /\
    clips st' = clips st /\ history st' = history st /\
    engine st' = engine st /\ execLog st' = execLog st /\
    progress st' = progress st.
Proof.
  destruct b; eexists; (split; [reflexivity |]); simpl; repeat split.
  - symmetry. apply andb_false_r.
  - symmetry. apply andb_true_r.
Qed.

Lemma recordsFrom_length i ivs (cs : list (clip (data := data))) :
  recordsFrom file ts i ivs cs -> List.length cs = List.length ivs.
Proof.
  revert i cs. induction ivs as [| iv ivs IH]; intros i [| c cs] H; simpl in *;
    try contradiction; [reflexivity |].
  destruct H as [_ H]. rewrite (IH _ _ H). reflexivity.
Qed.

Lemma firstn_middle {A} (l1 : list A) a l2 :
  firstn (S (List.length l1)) (l1 ++ a :: l2) = l1 ++ [a].
Proof.
  induction l1 as [| x l1 IH]; [reflexivity |].
  change (firstn (S (List.length (x :: l1))) ((x :: l1) ++ a :: l2))
    with (x :: firstn (S (List.length l1)) (l1 ++ a :: l2)).
  rewrite IH. reflexivity.
Qed.

(** One pass of the loop body, on any engine: either the clip of the
    interval is recorded, or the extraction or the read-back of the main
    output has thrown and [clips] is as before. *)
Lemma processInterval_outcome i total iv generated
    (st : appState (data := data) (engineState := engineState)) :
  exists r st',
    processInterval exec readFile file ts ps u i total iv generated st = (r, st') /\
    history st' = history st /\
    shouldProcess st' = shouldProcess st && negb (cancelDuring u i) /\
    ((exists c, r = Returned (generated ++ [c]) /\
                recordsInterval file ts i iv c /\
                clips st' = generated ++ [c] /\
                appMessage st' = (if cancelDuring u i then cancelling else appMessage st) /\
                progress st' = share i total /\
                exists e1 bytes e2,
                  exec (buildArgs ts ps (inputName file) (clipName file ts i iv) iv)
                       (engine st) = (Returned tt, e1) /\
                  readFile (clipName file ts i iv) e1 = (Returned bytes, e2))
     \/
     (exists msg, r = Thrown msg /\ clips st' = clips st /\
        ((exists e, exec (buildArgs ts ps (inputName file) (clipName file ts i iv) iv)
                         (engine st) = (Thrown msg, e)) \/
         (exists e1 e,
            exec (buildArgs ts ps (inputName file) (clipName file ts i iv) iv)
                 (engine st) = (Returned tt, e1) /\
            readFile (clipName file ts i iv) e1 = (Thrown msg, e))))).
Proof.
  unfold processInterval. fold (clipName file ts i iv).
  rewrite bind_update.
  destruct (userEvent_state (cancelDuring u i) (setCurrentTask (taskText i total) st))
    as [s1 [E1 [F1 [M1 [C1 [H1 [G1 [L1 P1]]]]]]]].
  rewrite (bind_result _ _ _ _ _ E1).
  cbn [shouldProcess appMessage clips history engine execLog progress setCurrentTask]
    in F1, M1, C1, H1, G1, L1, P1.
  unfold bind at 1. unfold ffmpegExec at 1. rewrite G1.
  destruct (exec (buildArgs ts ps (inputName file) (clipName file ts i iv) iv)
              (engine st)) as [[[] | m] e1] eqn:Ex.
  - cbv beta iota. unfold bind at 1. unfold ffmpegReadFile at 1.
    cbn [engine setEngine logExec].
    destruct (readFile (clipName file ts i iv) e1) as [[bytes | m] e2] eqn:Er.
    + cbv beta iota.
      match goal with
      | |- context [bind (makeThumbnail _ _ _ ?j ?v) _ ?s] =>
          destruct (makeThumbnail_returns exec readFile file j v s)
            as [thumb [s2 [E2 [F2 [C2 [M2 [H2 _]]]]]]]
      end.
      rewrite (bind_result _ _ _ _ _ E2).
      rewrite !bind_update, bind_ret || rewrite !bind_update.
      eexists. eexists. split; [reflexivity |].
      cbn [shouldProcess appMessage clips history progress setProgress setClips
             setEngine logExec] in *.
      split; [rewrite H2; exact H1 |].
      split; [rewrite F2; exact F1 |].
      left. exists (clipOf file ts i iv bytes thumb).
      split; [reflexivity |]. split; [repeat split |].
      split; [reflexivity |]. split; [rewrite M2; exact M1 |].
      split; [reflexivity |].
      exists e1, bytes, e2. split; [reflexivity | exact Er].
    + eexists. eexists. split; [reflexivity |].
      cbn [shouldProcess appMessage clips history progress setEngine logExec].
      split; [exact H1 |]. split; [exact F1 |].
      right. exists m. split; [reflexivity |]. split; [exact C1 |].
      right. exists e1, e2. split; [reflexivity | exact Er].
  - eexists. eexists. split; [reflexivity |].
    cbn [shouldProcess appMessage clips history progress setEngine logExec].
    split; [exact H1 |]. split; [exact F1 |].
    right. exists m. split; [reflexivity |]. split; [exact C1 |].
    left. exists e1. reflexivity.
Qed.

(** The loop on any engine: [clips] grows by the records of a prefix of
    the intervals, the history is left alone, and a loop that returns
    with the flag still set has visited every interval. *)
Lemma forIntervals_any total rest :
  forall i generated (st : appState (data := data) (engineState := engineState)),
  clips st = generated ->
  exists r st' k new,
    forIntervals exec readFile file ts ps u i total rest generated st = (r, st') /\
    history st' = history st /\
    (k <= List.length rest)%nat /\
    clips st' = generated ++ new /\
    recordsFrom file ts i (firstn k rest) new /\
    (r = Returned (generated ++ new) \/ exists msg, r = Thrown msg) /\
    (shouldProcess st' = true -> r = Returned (generated ++ new) ->
     k = List.length rest).
Proof.
  induction rest as [| iv rest IH]; intros i generated st Hc.
  - exists (Returned generated), st, 0%nat, []. rewrite app_nil_r.
    split; [reflexivity |]. split; [reflexivity |]. split; [apply Nat.le_refl |].
    split; [exact Hc |]. split; [exact I |]. split; [left; reflexivity |].
    intros _ _. reflexivity.
  - cbn [forIntervals]. rewrite bind_read.
    destruct (negb (shouldProcess st) && Nat.ltb 0 i) eqn:Hstop.
    + exists (Returned generated), (setMessage cancelled st), 0%nat, [].
      rewrite app_nil_r.
      split; [reflexivity |]. split; [reflexivity |]. split; [apply Nat.le_0_l |].
      split; [exact Hc |]. split; [exact I |]. split; [left; reflexivity |].
      cbn [shouldProcess setMessage]. intros Ht _.
      rewrite Ht in Hstop. discriminate.
    + destruct (processInterval_outcome i total iv generated st)
        as [r [s1 [E [Hh [Hf Hcase]]]]].
      rewrite (bind_result _ _ _ _ _ E).
      destruct Hcase as [[c [-> [Hrec [Hcl _]]]] | [msg [-> [Hcl _]]]].
      * destruct (IH (S i) (generated ++ [c]) s1 Hcl)
          as [r' [st' [k [new [E' [Hh' [Hk [Hcl' [Hrec' [Hr Hall]]]]]]]]]].
        exists r', st', (S k), (c :: new).
        rewrite <- app_assoc in Hcl', Hr, Hall. cbn [app] in Hcl', Hr, Hall.
        split; [exact E' |]. split; [congruence |].
        split; [cbn [List.length]; apply le_n_S; exact Hk |].
        split; [exact Hcl' |].
        split; [cbn [firstn recordsFrom]; split; assumption |].
        split; [exact Hr |].
        intros H1 H2. cbn [List.length]. f_equal. apply Hall; assumption.
      * exists (Thrown msg), s1, 0%nat, []. rewrite app_nil_r.
        split; [reflexivity |]. split; [exact Hh |]. split; [apply Nat.le_0_l |].
        split; [congruence |]. split; [exact I |].
        split; [right; exists msg; reflexivity |].
        intros _ H. discriminate.
Qed.

(** [processVideo] around its [try] block: the error of the block is
    caught and reported, and the [finally] block resets the flags. *)
Lemma runJob_frame intervals (st : appState (data := data) (engineState := engineState))
    r st1 :
  tryBlock writeFile exec readFile file ts ps u intervals
    (setClips [] (setProgress 0 (setIsProcessing true (setShouldProcess true st))))
  = (r, st1) ->
  exists st',
    runJob writeFile exec readFile file ts ps u intervals st = (Returned tt, st') /\
    isProcessing st' = false /\ shouldProcess st' = false /\
    currentTask st' = EmptyString /\
    clips st' = clips st1 /\ history st' = history st1 /\
    progress st' = progress st1 /\ execLog st' = execLog st1 /\
    engine st' = engine st1 /\
    appMessage st' = match r with
                     | Returned _ => appMessage st1
                     | Thrown msg => failed msg
                     end.
Proof.
  intros H. unfold runJob. rewrite !bind_update.
  unfold bind at 1. unfold tryCatch. rewrite H.
  destruct r as [[] | msg]; eexists; (split; [reflexivity |]);
    cbn; repeat split.
Qed.

(** The [try] block up to the loop, when the input file is written and
    there are intervals. *)
Lemma tryBlock_loop intervals (st : appState (data := data) (engineState := engineState))
    e1 :
  intervals <> [] ->
  writeFile (inputName file) (contents file) (engine st) = (Returned tt, e1) ->
  exists st0,
    clips st0 = clips st /\ history st0 = history st /\
    shouldProcess st0 = shouldProcess st && negb (cancelBefore u) /\
    appMessage st0 = (if cancelBefore u then cancelling else appMessage st) /\
    execLog st0 = execLog st /\ engine st0 = e1 /\
    forall r st1,
      forIntervals exec readFile file ts ps u 0 (List.length intervals) intervals []
        st0 = (r, st1) ->
      tryBlock writeFile exec readFile file ts ps u intervals st
      = match r with
        | Returned g =>
            (Returned tt,
             if shouldProcess st1
             then setMessage finished
                    (addHistory (mkHistory (fileName file) (List.length g)) st1)
             else st1)
        | Thrown msg => (Thrown msg, st1)
        end.
Proof.
  intros Hne Hw. unfold tryBlock. rewrite bind_update.
  destruct (userEvent_state (cancelBefore u) (setCurrentTask "Menyiapkan file..." st))
    as [s1 [E1 [F1 [M1 [C1 [H1 [G1 [L1 P1]]]]]]]].
  rewrite (bind_result _ _ _ _ _ E1).
  cbn [shouldProcess appMessage clips history engine execLog progress setCurrentTask]
    in F1, M1, C1, H1, G1, L1, P1.
  unfold bind at 1. unfold ffmpegWriteFile at 1. rewrite G1, Hw. cbv beta iota.
  destruct intervals as [| iv rest]; [contradiction |].
  cbn [List.length Nat.eqb].
  exists (setEngine e1 s1). cbn [clips history shouldProcess appMessage execLog engine setEngine].
  split; [exact C1 |]. split; [exact H1 |]. split; [exact F1 |].
  split; [exact M1 |]. split; [exact L1 |]. split; [reflexivity |].
  intros r st1 E. rewrite (bind_result _ _ _ _ _ E).
  destruct r as [g | msg]; [| reflexivity].
  rewrite bind_read. destruct (shouldProcess st1); reflexivity.
Qed.

(** X16: a job on any engine, with any user and any intervals: the call
    does not throw; it ends with [isProcessing] and the processing flag
    cleared and the task text empty; [clips] holds the records (name,
    index, times) of a prefix of the intervals, in their order; and the
    history is either untouched or, only when every interval has been
    recorded, extended by one entry that counts them all, with the
    message of success. *)
Theorem X16_job_invariant intervals
    (st : appState (data := data) (engineState := engineState)) :
  exists st' k,
    runJob writeFile exec readFile file ts ps u intervals st = (Returned tt, st') /\
    isProcessing st' = false /\ shouldProcess st' = false /\
    currentTask st' = EmptyString /\
    (k <= List.length intervals)%nat /\
    recordsFrom file ts 0 (firstn k intervals) (clips st') /\
    (history st' = history st \/
     (k = List.length intervals /\ (0 < k)%nat /\
      history st' = mkHistory (fileName file) k :: history st /\
      appMessage st' = finished)).
Proof.
  set (st_in := setClips [] (setProgress 0 (setIsProcessing true
                  (setShouldProcess true st)))).
  assert (Hblock : exists r st1 k,
            tryBlock writeFile exec readFile file ts ps u intervals st_in = (r, st1) /\
            (k <= List.length intervals)%nat /\
            recordsFrom file ts 0 (firstn k intervals) (clips st1) /\
            (history st1 = history st \/
             (exists v, r = Returned v) /\
             k = List.length intervals /\ (0 < k)%nat /\
             history st1 = mkHistory (fileName file) k :: history st /\
             appMessage st1 = finished)).
  { destruct (writeFile (inputName file) (contents file) (engine st_in))
      as [[[] | msg] e1] eqn:Hw.
    - destruct intervals as [| iv rest] eqn:Hi.
      + unfold tryBlock. rewrite bind_update.
        destruct (userEvent_state (cancelBefore u)
                    (setCurrentTask "Menyiapkan file..." st_in))
          as [s1 [E1 [F1 [M1 [C1 [H1 [G1 [L1 P1]]]]]]]].
        rewrite (bind_result _ _ _ _ _ E1).
        unfold bind at 1. unfold ffmpegWriteFile at 1. rewrite G1.
        cbn [engine setCurrentTask]. rewrite Hw. cbv beta iota.
        cbn [List.length Nat.eqb]. rewrite !bind_update.
        eexists. eexists. exists 0%nat. split; [reflexivity |].
        split; [apply Nat.le_refl |].
        cbn [clips history setIsProcessing setMessage setEngine firstn].
        rewrite C1, H1. split; [exact I | left; reflexivity].
      + rewrite <- Hi.
        assert (Hne : intervals <> []) by (rewrite Hi; discriminate).
        destruct (tryBlock_loop intervals st_in e1 Hne Hw)
          as [st0 [C0 [H0 [_ [_ [_ [_ Hrun]]]]]]].
        destruct (forIntervals_any (List.length intervals) intervals 0 [] st0 C0)
          as [r [st1 [k [new [E [Hh [Hk [Hcl [Hrec [Hr Hall]]]]]]]]]].
        cbn [app] in Hcl, Hr, Hall.
        rewrite (Hrun r st1 E).
        destruct Hr as [-> | [msg ->]].
        * destruct (shouldProcess st1) eqn:Hs.
          -- eexists. eexists. exists k. split; [reflexivity |].
             split; [exact Hk |].
             cbn [clips history appMessage setMessage addHistory].
             split; [rewrite Hcl; exact Hrec |]. right.
             pose proof (Hall eq_refl eq_refl) as Hkn.
             split; [eexists; reflexivity |]. split; [exact Hkn |].
             split; [rewrite Hkn, Hi; apply Nat.lt_0_succ |].
             split; [| reflexivity].
             rewrite Hh, H0. f_equal. f_equal.
             rewrite (recordsFrom_length _ _ _ Hrec), Hkn.
             rewrite firstn_all. reflexivity.
          -- eexists. eexists. exists k. split; [reflexivity |].
             split; [exact Hk |]. split; [rewrite Hcl; exact Hrec |].
             left. rewrite Hh. exact H0.
        * eexists. eexists. exists k. split; [reflexivity |].
          split; [exact Hk |]. split; [rewrite Hcl; exact Hrec |].
          left. rewrite Hh. exact H0.
    - unfold tryBlock. rewrite bind_update.
      destruct (userEvent_state (cancelBefore u)
                  (setCurrentTask "Menyiapkan file..." st_in))
        as [s1 [E1 [F1 [M1 [C1 [H1 [G1 [L1 P1]]]]]]]].
      rewrite (bind_result _ _ _ _ _ E1).
      unfold bind at 1. unfold ffmpegWriteFile at 1. rewrite G1.
      cbn [engine setCurrentTask]. rewrite Hw. cbv beta iota.
      eexists. eexists. exists 0%nat. split; [reflexivity |].
      split; [apply Nat.le_0_l |].
      cbn [clips history setEngine firstn]. rewrite C1, H1.
      split; [exact I | left; reflexivity]. }
  destruct Hblock as [r [st1 [k [E [Hk [Hrec Hhist]]]]]].
  destruct (runJob_frame intervals st r st1 E)
    as [st' [R [F1 [F2 [F3 [C [H [_ [_ [_ Hm]]]]]]]]]].
  exists st', k. split; [exact R |]. split; [exact F1 |]. split; [exact F2 |].
  split; [exact F3 |]. split; [exact Hk |]. split; [rewrite C; exact Hrec |].
  rewrite H. destruct Hhist as [Hh | [[v ->] [Hkn [Hpos [Hh Hmsg]]]]].
  - left. exact Hh.
  - right. split; [exact Hkn |]. split; [exact Hpos |]. split; [exact Hh |].
    rewrite Hm. exact Hmsg.
Qed.

Lemma recordsFrom_app i pre l2 (new new2 : list (clip (data := data))) :
  recordsFrom file ts i pre new ->
  recordsFrom file ts (i + List.length pre) l2 new2 ->
  recordsFrom file ts i (pre ++ l2) (new ++ new2).
Proof.
  revert i new. induction pre as [| a pre IH]; intros i [| c new] H1 H2;
    cbn [recordsFrom] in H1; try contradiction.
  - cbn [List.length] in H2. rewrite Nat.add_0_r in H2. exact H2.
  - destruct H1 as [Ha H1]. cbn [app recordsFrom]. split; [exact Ha |].
    apply IH; [exact H1 |].
    cbn [List.length] in H2. rewrite Nat.add_succ_r in H2. exact H2.
Qed.

Lemma pressedBy_false j :
  pressedBy u j = false ->
  cancelBefore u = false /\ forall k, (k <= j)%nat -> cancelDuring u k = false.
Proof.
  unfold pressedBy. intros H. apply orb_false_iff in H. destruct H as [Hb He].
  split; [exact Hb |]. intros k Hk.
  destruct (cancelDuring u k) eqn:Hc; [| reflexivity].
  assert (Hx : existsb (cancelDuring u) (seq 0 (S j)) = true).
  { apply existsb_exists. exists k. split; [| exact Hc].
    apply in_seq. lia. }
  rewrite Hx in He. discriminate.
Qed.

(** The first pass by whose end the button has been pressed: either it
    is pressed during that pass, or it is pass 0 and the button was
    pressed before the loop. *)
Lemma pressedBy_first j :
  pressedBy u j = true ->
  (forall i, (i < j)%nat -> pressedBy u i = false) ->
  (forall k, (k < j)%nat -> cancelDuring u k = false) /\
  negb (cancelBefore u) && negb (cancelDuring u j) = false /\
  ((0 < j)%nat -> cancelBefore u = false).
Proof.
  intros Hj Hfirst. destruct j as [| j].
  - split; [intros k Hk; lia |]. split; [| intros H; lia].
    unfold pressedBy in Hj. cbn [seq existsb] in Hj.
    rewrite orb_false_r in Hj.
    destruct (cancelBefore u); [reflexivity |].
    destruct (cancelDuring u 0); [reflexivity | discriminate].
  - destruct (pressedBy_false j (Hfirst j (Nat.lt_succ_diag_r j))) as [Hb Hd].
    split; [intros k Hk; apply Hd; lia |]. split; [| intros _; exact Hb].
    rewrite Hb. cbn [negb andb].
    unfold pressedBy in Hj. rewrite Hb in Hj. cbn [orb] in Hj.
    apply existsb_exists in Hj. destruct Hj as [k [Hin Hk]].
    apply in_seq in Hin.
    destruct (Nat.eq_dec k (S j)) as [-> | Hne].
    + rewrite Hk. reflexivity.
    + rewrite (Hd k) in Hk by lia. discriminate.
Qed.

(** A pass whose extraction succeeds. *)
Lemma processInterval_extracts i total iv generated
    (st : appState (data := data) (engineState := engineState)) :
  extracts exec readFile file ts ps i iv ->
  exists c st',
    processInterval exec readFile file ts ps u i total iv generated st
      = (Returned (generated ++ [c]), st') /\
    recordsInterval file ts i iv c /\
    clips st' = generated ++ [c] /\
    history st' = history st /\
    shouldProcess st' = shouldProcess st && negb (cancelDuring u i) /\
    appMessage st' = (if cancelDuring u i then cancelling else appMessage st) /\
    progress st' = share i total.
Proof.
  intros Hex.
  destruct (processInterval_outcome i total iv generated st)
    as [r [s1 [E [Hh [Hf Hcase]]]]].
  destruct (Hex (engine st)) as [e1 [bytes [e2 [Hx Hr]]]].
  destruct Hcase as [[c [-> [Hrec [Hcl [Hm [Hp _]]]]]] | [msg [_ [_ Hbad]]]].
  - exists c, s1. repeat (split; [assumption |]). assumption.
  - exfalso. destruct Hbad as [[e Hb] | [e1' [e [Hb1 Hb2]]]].
    + rewrite Hx in Hb. discriminate.
    + rewrite Hx in Hb1. injection Hb1 as <-. rewrite Hr in Hb2. discriminate.
Qed.

(** A pass whose extraction fails. *)
Lemma processInterval_fails i total iv generated
    (st : appState (data := data) (engineState := engineState)) msg :
  failsWith exec file ts ps i iv msg ->
  exists st',
    processInterval exec readFile file ts ps u i total iv generated st
      = (Thrown msg, st') /\
    clips st' = clips st /\ history st' = history st.
Proof.
  intros Hfail.
  destruct (processInterval_outcome i total iv generated st)
    as [r [s1 [E [Hh [Hf Hcase]]]]].
  destruct (Hfail (engine st)) as [e1 Hx].
  destruct Hcase as [[c [_ [_ [_ [_ [_ [e1' [b [e2 [Hb _]]]]]]]]]]
                    | [m [-> [Hcl Hbad]]]].
  - rewrite Hx in Hb. discriminate.
  - destruct Hbad as [[e Hb] | [e1' [e [Hb1 _]]]].
    + rewrite Hx in Hb. injection Hb as -> _.
      exists s1. split; [exact E |]. split; [exact Hcl | exact Hh].
    + rewrite Hx in Hb1. discriminate.
Qed.

(** The loop over a prefix of intervals that are extracted with no
    cancellation: their clips are recorded and the loop goes on with
    what follows. *)
Lemma forIntervals_prefix total pre post :
  forall i generated (st : appState (data := data) (engineState := engineState)),
  clips st = generated ->
  (pre <> [] -> shouldProcess st = true) ->
  (forall k, (k < List.length pre)%nat -> cancelDuring u (i + k) = false) ->
  (forall k iv, nth_error pre k = Some iv ->
                extracts exec readFile file ts ps (i + k) iv) ->
  exists new st1,
    recordsFrom file ts i pre new /\
    clips st1 = generated ++ new /\
    shouldProcess st1 = shouldProcess st /\
    history st1 = history st /\ appMessage st1 = appMessage st /\
    (pre = [] -> st1 = st) /\
    (forall n, List.length pre = S n -> progress st1 = share (i + n) total) /\
    forIntervals exec readFile file ts ps u i total (pre ++ post) generated st
    = forIntervals exec readFile file ts ps u (i + List.length pre) total post
        (generated ++ new) st1.
Proof.
  induction pre as [| a pre IH]; intros i generated st Hc Hs Hclean Hex.
  - exists [], st. rewrite app_nil_r. cbn [List.length app]. rewrite Nat.add_0_r.
    split; [exact I |]. split; [exact Hc |]. split; [reflexivity |].
    split; [reflexivity |]. split; [reflexivity |]. split; [reflexivity |].
    split; [intros n H; discriminate | reflexivity].
  - assert (Hflag : shouldProcess st = true) by (apply Hs; discriminate).
    assert (Hc0 : cancelDuring u i = false).
    { rewrite <- (Nat.add_0_r i). apply Hclean. cbn [List.length]. lia. }
    assert (Hx0 : extracts exec readFile file ts ps i a).
    { rewrite <- (Nat.add_0_r i). apply Hex. reflexivity. }
    destruct (processInterval_extracts i total a generated st Hx0)
      as [c [s1 [E [Hrec [Hcl [Hh [Hf [Hm Hp]]]]]]]].
    rewrite Hflag, Hc0 in Hf. cbn [negb andb] in Hf. rewrite Hc0 in Hm.
    destruct (IH (S i) (generated ++ [c]) s1 Hcl (fun _ => Hf)) as
      [new [s2 [Hrec' [Hcl' [Hf' [Hh' [Hm' [Hnil [Hp' Hrun]]]]]]]]].
    { intros k Hk. rewrite Nat.add_succ_comm. apply Hclean.
      cbn [List.length]. lia. }
    { intros k iv Hk. rewrite Nat.add_succ_comm. apply Hex. exact Hk. }
    exists (c :: new), s2.
    rewrite <- app_assoc in Hcl', Hrun. cbn [app] in Hcl', Hrun.
    split; [cbn [recordsFrom]; split; assumption |].
    split; [exact Hcl' |]. split; [congruence |]. split; [congruence |].
    split; [congruence |]. split; [intros H; discriminate |]. split.
    + intros n Hn. cbn [List.length] in Hn. injection Hn as Hn.
      destruct n as [| n'].
      * destruct pre; [| discriminate].
        rewrite (Hnil eq_refl), Nat.add_0_r. exact Hp.
      * replace (i + S n')%nat with (S i + n')%nat by lia. apply Hp'. exact Hn.
    + cbn [app forIntervals]. rewrite bind_read. rewrite Hflag. cbn [negb andb].
      rewrite (bind_result _ _ _ _ _ E). cbn [List.length].
      replace (i + S (List.length pre))%nat with (S i + List.length pre)%nat by lia.
      exact Hrun.
Qed.

(** The pass that leaves the flag cleared: its interval is processed
    and the loop ends, with the notice of cancellation when intervals
    are left over. *)
Lemma forIntervals_stop total i iv post generated
    (st : appState (data := data) (engineState := engineState)) :
  i = 0%nat \/ shouldProcess st = true ->
  shouldProcess st && negb (cancelDuring u i) = false ->
  extracts exec readFile file ts ps i iv ->
  exists c st',
    forIntervals exec readFile file ts ps u i total (iv :: post) generated st
      = (Returned (generated ++ [c]), st') /\
    recordsInterval file ts i iv c /\
    clips st' = generated ++ [c] /\
    shouldProcess st' = false /\
    history st' = history st /\
    appMessage st' = match post with
                     | [] => if cancelDuring u i then cancelling else appMessage st
                     | _ :: _ => cancelled
                     end /\
    progress st' = share i total.
Proof.
  intros Hgo Hoff Hex. cbn [forIntervals]. rewrite bind_read.
  assert (Hc : negb (shouldProcess st) && Nat.ltb 0 i = false).
  { destruct Hgo as [-> | ->]; [apply andb_false_r | reflexivity]. }
  rewrite Hc.
  destruct (processInterval_extracts i total iv generated st Hex)
    as [c [s1 [E [Hrec [Hcl [Hh [Hf [Hm Hp]]]]]]]].
  rewrite Hoff in Hf. rewrite (bind_result _ _ _ _ _ E).
  exists c. destruct post as [| iv' post'].
  - exists s1. split; [reflexivity |]. repeat (split; [assumption |]). assumption.
  - cbn [forIntervals]. rewrite bind_read, Hf. cbn [negb andb Nat.ltb Nat.leb].
    rewrite bind_update, bind_ret || rewrite bind_update.
    eexists. split; [reflexivity |].
    cbn [clips shouldProcess history appMessage progress setMessage].
    repeat (split; [assumption || reflexivity |]). assumption.
Qed.

(** The pass whose extraction fails: the loop throws. *)
Lemma forIntervals_fail total i iv post generated
    (st : appState (data := data) (engineState := engineState)) msg :
  i = 0%nat \/ shouldProcess st = true ->
  failsWith exec file ts ps i iv msg ->
  exists st',
    forIntervals exec readFile file ts ps u i total (iv :: post) generated st
      = (Thrown msg, st') /\
    clips st' = clips st /\ history st' = history st.
Proof.
  intros Hgo Hfail. cbn [forIntervals]. rewrite bind_read.
  assert (Hc : negb (shouldProcess st) && Nat.ltb 0 i = false).
  { destruct Hgo as [-> | ->]; [apply andb_false_r | reflexivity]. }
  rewrite Hc.
  destruct (processInterval_fails i total iv generated st msg Hfail)
    as [s1 [E [Hcl Hh]]].
  rewrite (bind_result _ _ _ _ _ E). exists s1. split; [reflexivity |].
  split; assumption.
Qed.

Lemma firstn_prefix {A} (l1 l2 : list A) : firstn (List.length l1) (l1 ++ l2) = l1.
Proof.
  induction l1 as [| x l1 IH]; [reflexivity |].
  cbn [List.length app firstn]. rewrite IH. reflexivity.
Qed.

Lemma nth_error_prefix {A} (l1 l2 : list A) k a :
  nth_error l1 k = Some a -> nth_error (l1 ++ l2) k = Some a.
Proof.
  revert k. induction l1 as [| x l1 IH]; intros [| k] H; try discriminate.
  - exact H.
  - cbn [app nth_error] in *. apply IH. exact H.
Qed.

Lemma nth_error_middle {A} (l1 l2 : list A) a :
  nth_error (l1 ++ a :: l2) (List.length l1) = Some a.
Proof. induction l1 as [| x l1 IH]; [reflexivity | exact IH]. Qed.

Lemma share_all n : share n (S n) == 100.
Proof.
  replace (n + 1)%nat with (S n) by lia.
  assert (H : 0 < inject_Z (Z.of_nat (S n))).
  { change 0 with (inject_Z 0). rewrite <- Zlt_Qlt. lia. }
  field. intros H0. rewrite H0 in H. exact (Qlt_irrefl 0 H).
Qed.

(** X17: a job whose input file is written and whose intervals are all
    extracted, with no press of the cancel button: every interval is
    recorded, in order; the progress ends at 100; one history entry with
    the number of intervals is added; and the message is that of
    success. *)
Theorem X17_job_completes intervals
    (st : appState (data := data) (engineState := engineState)) e1 :
  writeFile (inputName file) (contents file) (engine st) = (Returned tt, e1) ->
  (forall i iv, nth_error intervals i = Some iv ->
                extracts exec readFile file ts ps i iv) ->
  intervals <> [] ->
  (forall i, (i < List.length intervals)%nat -> pressedBy u i = false) ->
  exists st',
    runJob writeFile exec readFile file ts ps u intervals st = (Returned tt, st') /\
    recordsFrom file ts 0 intervals (clips st') /\
    List.length (clips st') = List.length intervals /\
    progress st' == 100 /\
    history st' = mkHistory (fileName file) (List.length intervals) :: history st /\
    appMessage st' = finished.
Proof.
  intros Hw Hex Hne Hpress.
  set (st_in := setClips [] (setProgress 0 (setIsProcessing true
                  (setShouldProcess true st)))).
  destruct (tryBlock_loop intervals st_in e1 Hne Hw)
    as [st0 [C0 [H0 [F0 [_ [_ [_ Hrun]]]]]]].
  assert (Hn : exists m, List.length intervals = S m).
  { destruct intervals; [contradiction | eexists; reflexivity]. }
  destruct Hn as [m Hm].
  destruct (pressedBy_false m) as [Hb Hd]; [apply Hpress; lia |].
  rewrite Hb in F0. cbn [shouldProcess st_in setClips setProgress setIsProcessing
                           setShouldProcess negb andb] in F0.
  destruct (forIntervals_prefix (List.length intervals) intervals [] 0 [] st0 C0
              (fun _ => F0))
    as [new [st1 [Hrec [Hcl [Hf [Hh [_ [_ [Hp Hloop]]]]]]]]].
  { intros k Hk. apply Hd. cbn [Nat.add]. lia. }
  { intros k iv Hk. apply Hex. exact Hk. }
  rewrite app_nil_r in Hloop. cbn [app forIntervals] in Hloop, Hcl.
  pose proof (Hrun _ _ Hloop) as Hblock. cbv beta iota in Hblock.
  rewrite Hf, F0 in Hblock.
  destruct (runJob_frame intervals st _ _ Hblock)
    as [st' [R [_ [_ [_ [C [H [P [_ [_ Hmsg]]]]]]]]]].
  exists st'. split; [exact R |].
  cbn [clips history progress appMessage setMessage addHistory] in C, H, P, Hmsg.
  split; [rewrite C, Hcl; exact Hrec |].
  split; [rewrite C, Hcl; apply (recordsFrom_length _ _ _ Hrec) |].
  split; [rewrite P, (Hp m Hm), Hm; apply share_all |].
  split; [| exact Hmsg].
  rewrite H, Hh, H0, (recordsFrom_length _ _ _ Hrec). reflexivity.
Qed.

(** X18: a job whose input file is written and whose intervals are
    extracted, when pass j is the first by whose end the cancel button
    has been pressed (during a pass, or before the loop for j = 0): the
    intervals 0..j are recorded and no other, the progress stays at the
    share (j + 1) / n, no history entry is added, and the message is
    the notice of cancellation when intervals are left over, and stays
    at the notice that cancelling is under way when pass j was the
    last. *)
Theorem X18_job_cancelled intervals j
    (st : appState (data := data) (engineState := engineState)) e1 :
  writeFile (inputName file) (contents file) (engine st) = (Returned tt, e1) ->
  (forall i iv, nth_error intervals i = Some iv ->
                extracts exec readFile file ts ps i iv) ->
  (j < List.length intervals)%nat ->
  pressedBy u j = true ->
  (forall i, (i < j)%nat -> pressedBy u i = false) ->
  exists st',
    runJob writeFile exec readFile file ts ps u intervals st = (Returned tt, st') /\
    recordsFrom file ts 0 (firstn (S j) intervals) (clips st') /\
    List.length (clips st') = S j /\
    progress st' = share j (List.length intervals) /\
    history st' = history st /\
    appMessage st' = (if Nat.ltb (S j) (List.length intervals)
                      then cancelled else cancelling).
Proof.
  intros Hw Hex Hj Hpress Hfirst.
  destruct (pressedBy_first j Hpress Hfirst) as [Hclean [Hoff Hb]].
  destruct (nth_error intervals j) as [iv |] eqn:Hnth;
    [| apply nth_error_None in Hnth; lia].
  destruct (nth_error_split _ _ Hnth) as [pre [post [Hsplit Hlen]]].
  assert (Hne : intervals <> []).
  { rewrite Hsplit. intros H. destruct (app_eq_nil _ _ H) as [_ H']. discriminate. }
  set (st_in := setClips [] (setProgress 0 (setIsProcessing true
                  (setShouldProcess true st)))).
  destruct (tryBlock_loop intervals st_in e1 Hne Hw)
    as [st0 [C0 [H0 [F0 [M0 [_ [_ Hrun]]]]]]].
  cbn [shouldProcess st_in setClips setProgress setIsProcessing
         setShouldProcess andb] in F0.
  assert (Hpre : pre <> [] -> shouldProcess st0 = true).
  { intros Hp. rewrite F0, Hb; [reflexivity |].
    rewrite <- Hlen. destruct pre; [contradiction | cbn; lia]. }
  destruct (forIntervals_prefix (List.length intervals) pre (iv :: post) 0 [] st0
              C0 Hpre)
    as [new [st1 [Hrec [Hcl [Hf [Hh [Hm1 [_ [_ Hloop]]]]]]]]].
  { intros k Hk. apply Hclean. cbn [Nat.add]. lia. }
  { intros k iv' Hk. apply Hex. rewrite Hsplit. apply nth_error_prefix. exact Hk. }
  cbn [app Nat.add] in Hloop, Hcl. rewrite Hlen in Hloop.
  destruct (forIntervals_stop (List.length intervals) j iv post new st1)
    as [c [st2 [E [Hrc [Hcl2 [Hf2 [Hh2 [Hm2 Hp2]]]]]]]].
  { destruct j as [| j']; [left; reflexivity | right].
    rewrite Hf, F0, Hb; [reflexivity | lia]. }
  { rewrite Hf, F0. exact Hoff. }
  { apply Hex. exact Hnth. }
  rewrite <- Hsplit in Hloop. rewrite E in Hloop.
  pose proof (Hrun _ _ Hloop) as Hblock. cbv beta iota in Hblock.
  rewrite Hf2 in Hblock.
  destruct (runJob_frame intervals st _ _ Hblock)
    as [st' [R [_ [_ [_ [C [H [P [_ [_ Hmsg]]]]]]]]]].
  exists st'. split; [exact R |].
  assert (Hrecs : recordsFrom file ts 0 (firstn (S j) intervals) (new ++ [c])).
  { rewrite Hsplit, <- Hlen, firstn_middle.
    apply recordsFrom_app; [exact Hrec |].
    cbn [Nat.add recordsFrom]. rewrite Hlen. split; [exact Hrc | exact I]. }
  split; [rewrite C, Hcl2; exact Hrecs |].
  split.
  { rewrite C, Hcl2, (recordsFrom_length _ _ _ Hrecs).
    apply firstn_length_le. lia. }
  split; [rewrite P; exact Hp2 |].
  split; [rewrite H, Hh2, Hh, H0; reflexivity |].
  rewrite Hmsg, Hm2.
  assert (Hlen' : List.length intervals = (j + S (List.length post))%nat).
  { rewrite Hsplit, length_app, Hlen. reflexivity. }
  destruct post as [| iv' post'].
  - cbn [List.length] in Hlen'.
    replace (Nat.ltb (S j) (List.length intervals)) with false
      by (symmetry; apply Nat.ltb_ge; lia).
    destruct (cancelDuring u j); [reflexivity |].
    rewrite Hm1, M0. destruct (cancelBefore u); [reflexivity | discriminate].
  - cbn [List.length] in Hlen'.
    replace (Nat.ltb (S j) (List.length intervals)) with true
      by (symmetry; apply Nat.ltb_lt; lia).
    reflexivity.
Qed.

(** X19: a job whose input file is written, when the extraction of
    interval j fails with a message, the intervals before it are
    extracted and the cancel button is not pressed before pass j: the
    call does not throw, the intervals before j stay recorded in
    [clips], no later interval is recorded, no history entry is added,
    and the message reports the error with the message of the
    engine. *)
Theorem X19_extraction_fails intervals j iv msg
    (st : appState (data := data) (engineState := engineState)) e1 :
  writeFile (inputName file) (contents file) (engine st) = (Returned tt, e1) ->
  nth_error intervals j = Some iv ->
  failsWith exec file ts ps j iv msg ->
  (forall i iv', (i < j)%nat -> nth_error intervals i = Some iv' ->
                 extracts exec readFile file ts ps i iv') ->
  (forall i, (i < j)%nat -> pressedBy u i = false) ->
  exists st',
    runJob writeFile exec readFile file ts ps u intervals st = (Returned tt, st') /\
    recordsFrom file ts 0 (firstn j intervals) (clips st') /\
    List.length (clips st') = j /\
    history st' = history st /\
    appMessage st' = failed msg.
Proof.
  intros Hw Hnth Hfail Hex Hpress.
  destruct (nth_error_split _ _ Hnth) as [pre [post [Hsplit Hlen]]].
  assert (Hne : intervals <> []).
  { rewrite Hsplit. intros H. destruct (app_eq_nil _ _ H) as [_ H']. discriminate. }
  set (st_in := setClips [] (setProgress 0 (setIsProcessing true
                  (setShouldProcess true st)))).
  destruct (tryBlock_loop intervals st_in e1 Hne Hw)
    as [st0 [C0 [H0 [F0 [_ [_ [_ Hrun]]]]]]].
  cbn [shouldProcess st_in setClips setProgress setIsProcessing
         setShouldProcess andb] in F0.
  assert (Hquiet : (0 < j)%nat ->
            cancelBefore u = false /\
            forall k, (k < j)%nat -> cancelDuring u k = false).
  { intros Hpos. destruct j as [| j']; [lia |].
    destruct (pressedBy_false j' (Hpress j' (Nat.lt_succ_diag_r j'))) as [Hb Hd].
    split; [exact Hb |]. intros k Hk. apply Hd. lia. }
  assert (Hpre : pre <> [] -> shouldProcess st0 = true).
  { intros Hp. destruct Hquiet as [Hb _].
    - rewrite <- Hlen. destruct pre; [contradiction | cbn; lia].
    - rewrite F0, Hb. reflexivity. }
  destruct (forIntervals_prefix (List.length intervals) pre (iv :: post) 0 [] st0
              C0 Hpre)
    as [new [st1 [Hrec [Hcl [Hf [Hh [_ [_ [_ Hloop]]]]]]]]].
  { intros k Hk. cbn [Nat.add]. apply Hquiet; lia. }
  { intros k iv' Hk. cbn [Nat.add]. apply Hex.
    - rewrite <- Hlen. apply nth_error_Some. rewrite Hk. discriminate.
    - rewrite Hsplit. apply nth_error_prefix. exact Hk. }
  cbn [app Nat.add] in Hloop, Hcl. rewrite Hlen in Hloop.
  destruct (forIntervals_fail (List.length intervals) j iv post new st1 msg)
    as [st2 [E [Hcl2 Hh2]]].
  { destruct j as [| j']; [left; reflexivity | right].
    destruct Hquiet as [Hb _]; [lia |]. rewrite Hf, F0, Hb. reflexivity. }
  { exact Hfail. }
  rewrite <- Hsplit in Hloop. rewrite E in Hloop.
  pose proof (Hrun _ _ Hloop) as Hblock. cbv beta iota in Hblock.
  destruct (runJob_frame intervals st _ _ Hblock)
    as [st' [R [_ [_ [_ [C [H [_ [_ [_ Hmsg]]]]]]]]]].
  exists st'. split; [exact R |].
  assert (Hrecs : recordsFrom file ts 0 (firstn j intervals) new).
  { rewrite Hsplit, <- Hlen, firstn_prefix. exact Hrec. }
  split; [rewrite C, Hcl2, Hcl; exact Hrecs |].
  split.
  { rewrite C, Hcl2, Hcl, (recordsFrom_length _ _ _ Hrec). exact Hlen. }
  split; [rewrite H, Hh2, Hh, H0; reflexivity | exact Hmsg].
Qed.

(** X20: when the input file cannot be written, the job runs no
    extraction: the engine's [exec] is not invoked, [clips] is empty,
    no history entry is added, and the message reports the error, also
    when the cancel button was pressed meanwhile. *)
Theorem X20_write_fails intervals
    (st : appState (data := data) (engineState := engineState)) msg e1 :
  writeFile (inputName file) (contents file) (engine st) = (Thrown msg, e1) ->
  exists st',
    runJob writeFile exec readFile file ts ps u intervals st = (Returned tt, st') /\
    execLog st' = execLog st /\ engine st' = e1 /\
    clips st' = [] /\ history st' = history st /\
    appMessage st' = failed msg.
Proof.
  intros Hw.
  set (st_in := setClips [] (setProgress 0 (setIsProcessing true
                  (setShouldProcess true st)))).
  assert (Hblock : exists st1,
            tryBlock writeFile exec readFile file ts ps u intervals st_in
            = (Thrown msg, st1) /\
            execLog st1 = execLog st /\ engine st1 = e1 /\
            clips st1 = [] /\ history st1 = history st).
  { unfold tryBlock. rewrite bind_update.
    destruct (userEvent_state (cancelBefore u)
                (setCurrentTask "Menyiapkan file..." st_in))
      as [s1 [E1 [F1 [M1 [C1 [H1 [G1 [L1 P1]]]]]]]].
    rewrite (bind_result _ _ _ _ _ E1).
    unfold bind at 1. unfold ffmpegWriteFile at 1. rewrite G1.
    cbn [engine setCurrentTask st_in setClips setProgress setIsProcessing
           setShouldProcess]. rewrite Hw. cbv beta iota.
    eexists. split; [reflexivity |].
    cbn [execLog engine clips history setEngine].
    split; [exact L1 |]. split; [reflexivity |]. split; [exact C1 | exact H1]. }
  destruct Hblock as [st1 [E [L [G [C H]]]]].
  destruct (runJob_frame intervals st _ _ E)
    as [st' [R [_ [_ [_ [C' [H' [_ [L' [G' Hmsg]]]]]]]]]].
  exists st'. split; [exact R |]. split; [congruence |]. split; [congruence |].
  split; [congruence |]. split; [congruence | exact Hmsg].
Qed.

End DriverMore.

Lemma X17_job_completes_witness :
  exists st',
    runJob okWrite okExec okRead movie defaultTrim defaultPremium patientUser
      [mkInterval 0 30; mkInterval 30 60] loadedState = (Returned tt, st') /\
    history st' = [mkHistory "movie.mp4" 2] /\
    appMessage st' = mkMessage "Selesai! Semua klip telah diproses." success.
Proof.
  destruct (X17_job_completes okWrite okExec okRead movie defaultTrim defaultPremium
              patientUser [mkInterval 0 30; mkInterval 30 60] loadedState tt)
    as [st' [R [_ [_ [_ [H M]]]]]].
  - reflexivity.
  - intros i iv _ []. exists tt. eexists. exists tt. split; reflexivity.
  - discriminate.
  - intros i Hi. destruct i as [| [| i]]; [reflexivity | reflexivity |].
    cbn [List.length] in Hi. lia.
  - exists st'. split; [exact R |]. split; [exact H | exact M].
Defined.

Lemma X18_job_cancelled_witness :
  exists st',
    runJob okWrite okExec okRead movie defaultTrim defaultPremium (cancelAt 0)
      [mkInterval 0 30; mkInterval 30 60; mkInterval 60 65] loadedState
    = (Returned tt, st') /\
    List.length (clips st') = 1%nat /\
    history st' = [] /\
    appMessage st' = mkMessage "Proses dibatalkan." info.
Proof.
  destruct (X18_job_cancelled okWrite okExec okRead movie defaultTrim defaultPremium
              (cancelAt 0) [mkInterval 0 30; mkInterval 30 60; mkInterval 60 65] 0
              loadedState tt)
    as [st' [R [_ [L [_ [H M]]]]]].
  - reflexivity.
  - intros i iv _ []. exists tt. eexists. exists tt. split; reflexivity.
  - cbn. lia.
  - reflexivity.
  - intros i Hi. lia.
  - exists st'. split; [exact R |]. split; [exact L |]. split; [exact H | exact M].
Defined.

Lemma X19_extraction_fails_witness :
  exists st',
    runJob okWrite shortExec okRead movie defaultTrim defaultPremium patientUser
      [mkInterval 0 30; mkInterval 30 60; mkInterval 60 65] loadedState
    = (Returned tt, st') /\
    List.length (clips st') = 2%nat /\
    history st' = [] /\
    appMessage st'
    = mkMessage "Terjadi kesalahan saat memproses: out of memory" error.
Proof.
  destruct (X19_extraction_fails okWrite shortExec okRead movie defaultTrim
              defaultPremium patientUser
              [mkInterval 0 30; mkInterval 30 60; mkInterval 60 65] 2
              (mkInterval 60 65) "out of memory" loadedState tt)
    as [st' [R [_ [L [H M]]]]].
  - reflexivity.
  - reflexivity.
  - intros []. exists tt. reflexivity.
  - intros i iv' Hi Hnth [].
    destruct i as [| [| i]]; [| | lia]; injection Hnth as <-;
      exists tt; eexists; exists tt; split; reflexivity.
  - intros i Hi. destruct i as [| [| i]]; [reflexivity | reflexivity |].
    cbn [List.length] in Hi. lia.
  - exists st'. split; [exact R |]. split; [exact L |]. split; [exact H | exact M].
Defined.

Lemma X20_write_fails_witness :
  exists st',
    runJob (fun _ _ (e : unit) => (Thrown "disk full", e)) okExec okRead movie
      defaultTrim defaultPremium patientUser [mkInterval 0 30] loadedState
    = (Returned tt, st') /\
    execLog st' = [] /\ clips st' = [] /\
    appMessage st' = mkMessage "Terjadi kesalahan saat memproses: disk full" error.
Proof.
  destruct (X20_write_fails (fun _ _ (e : unit) => (Thrown "disk full"%string, e))
              okExec okRead movie defaultTrim defaultPremium patientUser
              [mkInterval 0 30] loadedState "disk full" tt eq_refl)
    as [st' [R [L [_ [C [_ M]]]]]].
  exists st'. split; [exact R |]. split; [exact L |]. split; [exact C | exact M].
Defined.

(** * Loading the engine *)

Section LoaderFacts.

Variable load : nat -> bool.
Variable retries : nat.

Lemma attempt_success k :
  forall remaining i st,
  (i + remaining = retries)%nat -> (i <= k)%nat -> (k < retries)%nat ->
  load k = true ->
  (forall j, (i <= j)%nat -> (j < k)%nat -> load j = false) ->
  Loader.attempt load retries remaining i st
  = (true, Loader.mkLoader true (mkMessage "FFmpeg siap!" success)
             (Loader.loadCalls st + (k - i) + 1) (Loader.pauses st + (k - i))).
Proof.
  induction remaining as [| r IH]; intros i st Hsum Hik Hk Hload Hbefore; [lia |].
  cbn [Loader.attempt Loader.loaded Loader.loaderMessage Loader.loadCalls
         Loader.pauses].
  destruct (Nat.eq_dec i k) as [-> | Hne].
  - rewrite Hload. f_equal. f_equal; lia.
  - rewrite (Hbefore i) by lia.
    replace (Nat.eqb i (retries - 1)) with false
      by (symmetry; apply Nat.eqb_neq; lia).
    rewrite (IH (S i)); [| lia | lia | lia | exact Hload | intros j H1 H2; apply Hbefore; lia].
    cbn [Loader.loadCalls Loader.pauses]. f_equal. f_equal; lia.
Qed.

Lemma attempt_failure :
  forall remaining i st,
  (i + remaining = retries)%nat -> (0 < remaining)%nat ->
  (forall j, (i <= j)%nat -> (j < retries)%nat -> load j = false) ->
  Loader.attempt load retries remaining i st
  = (false,
     Loader.mkLoader (Loader.loaded st)
       (mkMessage "Gagal memuat FFmpeg. Pastikan browser mendukung SharedArrayBuffer."
          error)
       (Loader.loadCalls st + remaining) (Loader.pauses st + remaining - 1)).
Proof.
  induction remaining as [| r IH]; intros i st Hsum Hpos Hall; [lia |].
  cbn [Loader.attempt Loader.loaded Loader.loaderMessage Loader.loadCalls
         Loader.pauses].
  rewrite (Hall i) by lia.
  destruct (Nat.eqb_spec i (retries - 1)) as [He | Hne].
  - f_equal. f_equal; lia.
  - rewrite (IH (S i)); [| lia | lia | intros j H1 H2; apply Hall; lia].
    cbn [Loader.loaded Loader.loadCalls Loader.pauses]. f_equal. f_equal; lia.
Qed.

End LoaderFacts.

(** X21: loading with retries.  When attempt k (counted from 0, below
    the number of retries) is the first that resolves, the call returns
    true after k + 1 calls of the engine's load and k pauses, with
    [loaded] set and the message that the engine is ready; when none of
    the attempts resolves, it returns false after as many calls as
    retries and one pause fewer (none after the last attempt), leaves
    [loaded] as it was and reports the failure; with zero retries it
    returns false and does nothing. *)
Theorem X21_loadWithRetry load retries st :
  (forall k, (k < retries)%nat -> load k = true ->
     (forall i, (i < k)%nat -> load i = false) ->
     Loader.loadWithRetry load retries st
     = (true, Loader.mkLoader true (mkMessage "FFmpeg siap!" success)
                (Loader.loadCalls st + k + 1) (Loader.pauses st + k))) /\
  ((0 < retries)%nat -> (forall i, (i < retries)%nat -> load i = false) ->
     Loader.loadWithRetry load retries st
     = (false,
        Loader.mkLoader (Loader.loaded st)
          (mkMessage
             "Gagal memuat FFmpeg. Pastikan browser mendukung SharedArrayBuffer."
             error)
          (Loader.loadCalls st + retries) (Loader.pauses st + retries - 1))) /\
  (retries = 0%nat -> Loader.loadWithRetry load retries st = (false, st)).
Proof.
  split; [| split].
  - intros k Hk Hload Hbefore. unfold Loader.loadWithRetry.
    rewrite (attempt_success load retries k retries 0 st);
      [| lia | lia | exact Hk | exact Hload | intros j _ Hj; apply Hbefore; exact Hj].
    rewrite Nat.sub_0_r. reflexivity.
  - intros Hpos Hall. unfold Loader.loadWithRetry.
    apply attempt_failure; [lia | exact Hpos | intros j _ Hj; apply Hall; exact Hj].
  - intros ->. reflexivity.
Qed.

Lemma X21_loadWithRetry_witness :
  Loader.loadWithRetry (Nat.eqb 2) 3
    (Loader.mkLoader false (mkMessage "Memuat ffmpeg..." info) 0 0)
  = (true, Loader.mkLoader true (mkMessage "FFmpeg siap!" success) 3 2).
Proof.
  destruct (X21_loadWithRetry (Nat.eqb 2) 3
              (Loader.mkLoader false (mkMessage "Memuat ffmpeg..." info) 0 0))
    as [H _].
  rewrite (H 2%nat); [reflexivity | lia | reflexivity |].
  intros i Hi. destruct i as [| [| i]]; [reflexivity | reflexivity | lia].
Defined.

(** * The name of the archive *)

Import Archive.

Section ArchiveFacts.

Local Open Scope string_scope.

Lemma firstSegment_no_point s : hasChar "." (firstSegment s) = false.
Proof.
  induction s as [| c s IH]; [reflexivity |].
  cbn [firstSegment]. destruct (Ascii.eqb c ".") eqn:E; [reflexivity |].
  cbn [hasChar]. rewrite IH, orb_false_r. rewrite Ascii.eqb_sym. exact E.
Qed.

Lemma firstSegment_removeExtension s :
  exists rest, removeExtension s = firstSegment s ++ rest.
Proof.
  induction s as [| c s [rest IH]]; [exists EmptyString; reflexivity |].
  cbn [firstSegment removeExtension].
  destruct (Ascii.eqb c ".") eqn:E; cbn [andb].
  - eexists. reflexivity.
  - exists rest. rewrite IH. reflexivity.
Qed.

Lemma firstSegment_same s :
  firstSegment s = removeExtension s <-> hasChar "." (removeExtension s) = false.
Proof.
  split.
  - intros <-. apply firstSegment_no_point.
  - induction s as [| c s IH]; [reflexivity |].
    cbn [firstSegment removeExtension].
    destruct (Ascii.eqb c ".") eqn:E; cbn [andb].
    + destruct (isExtension s); [reflexivity |].
      cbn [hasChar]. rewrite Ascii.eqb_sym, E. discriminate.
    + cbn [hasChar]. rewrite Ascii.eqb_sym, E. cbn [orb].
      intros H. rewrite (IH H). reflexivity.
Qed.

End ArchiveFacts.

(** X22: the archive of all clips is named after the text of the file
    name before its first point, the clips after the file name without
    its last extension: the archive's base has no point and is a prefix
    of the clips' base, and the two are the same exactly when the clips'
    base has no point. *)
Theorem X22_archive_name file :
  (exists base, zipName file = (base ++ "_clips.zip")%string /\
     hasChar "." base = false /\
     (exists rest, removeExtension file = (base ++ rest)%string) /\
     (base = removeExtension file <-> hasChar "." (removeExtension file) = false)).
Proof.
  exists (firstSegment file). split; [reflexivity |].
  split; [apply firstSegment_no_point |].
  split; [apply firstSegment_removeExtension | apply firstSegment_same].
Qed.

(** * The first version of the component *)

Section LegacyFacts.

Lemma clipLoop_map d : forall remaining i acc,
  Legacy.clipLoop d remaining i acc
  = acc ++ List.map (Legacy.clipAt d) (seq i remaining).
Proof.
  induction remaining as [| r IH]; intros i acc.
  - cbn. rewrite app_nil_r. reflexivity.
  - cbn [Legacy.clipLoop seq List.map]. rewrite IH, <- app_assoc. reflexivity.
Qed.

Lemma generatedClips_map d :
  Legacy.generatedClips d
  = List.map (Legacy.clipAt d) (seq 0 (Z.to_nat (Legacy.numberOfClips d))).
Proof. unfold Legacy.generatedClips. rewrite clipLoop_map. reflexivity. Qed.

Lemma grid_succ i : inject_Z (Z.of_nat (S i)) * 30 == inject_Z (Z.of_nat i) * 30 + 30.
Proof. rewrite Nat2Z.inj_succ. unfold Z.succ. rewrite inject_Z_plus. ring. Qed.

Lemma chain_start_eq a a' l b : a == a' -> chain a l b -> chain a' l b.
Proof.
  intros E. destruct l as [| iv l]; cbn [chain].
  - intros H. rewrite <- E. exact H.
  - intros [H1 H2]. split; [rewrite <- E; exact H1 | exact H2].
Qed.

(** The bounds that the number of clips gives. *)
Lemma numberOfClips_bounds d :
  0 < d ->
  let n := Z.to_nat (Legacy.numberOfClips d) in
  (0 < n)%nat /\ d <= inject_Z (Z.of_nat n) * 30 /\
  forall i, (i < n)%nat -> inject_Z (Z.of_nat i) * 30 < d.
Proof.
  intros Hd n.
  assert (Hx : 0 < d / 30).
  { apply Qlt_shift_div_l; [reflexivity | lra]. }
  pose proof (Qle_ceiling (d / 30)) as Hup.
  pose proof (Qceiling_lt (d / 30)) as Hlow.
  assert (Hpos : (0 < Qceiling (d / 30))%Z).
  { rewrite Zlt_Qlt. eapply Qlt_le_trans; [exact Hx | exact Hup]. }
  assert (Hn : Z.of_nat n = Qceiling (d / 30)).
  { unfold n, Legacy.numberOfClips, Legacy.clipDuration. rewrite Z2Nat.id; lia. }
  assert (Hd30 : d == d / 30 * 30) by (field).
  split; [lia |]. split.
  - rewrite Hn. rewrite Hd30 at 1. apply Qmult_le_compat_r; [exact Hup | discriminate].
  - intros i Hi.
    assert (Hle : inject_Z (Z.of_nat i) <= inject_Z (Qceiling (d / 30) - 1)).
    { rewrite <- Zle_Qle. lia. }
    rewrite Hd30.
    apply Qmult_lt_compat_r; [reflexivity |].
    eapply Qle_lt_trans; [exact Hle | exact Hlow].
Qed.

Lemma legacy_chain d n :
  d <= inject_Z (Z.of_nat n) * 30 ->
  (forall i, (i < n)%nat -> inject_Z (Z.of_nat i) * 30 < d) ->
  forall remaining i, (i + remaining = n)%nat -> (0 < remaining)%nat ->
  chain (inject_Z (Z.of_nat i) * 30)
    (List.map Legacy.clipInterval (List.map (Legacy.clipAt d) (seq i remaining))) d.
Proof.
  intros Hup Hlow. induction remaining as [| r IH]; intros i Hsum Hpos; [lia |].
  cbn [seq List.map chain Legacy.clipInterval Legacy.clipAt Legacy.startTime
         Legacy.endTime Planner.start Planner.end_].
  unfold Legacy.clipDuration.
  split; [reflexivity |].
  destruct r as [| r'].
  - cbn [seq List.map chain]. apply Q.min_r.
    rewrite <- grid_succ. replace (S i) with n by lia. exact Hup.
  - apply (chain_start_eq (inject_Z (Z.of_nat (S i)) * 30)).
    + rewrite grid_succ. symmetry. apply Q.min_l.
      rewrite <- grid_succ. apply Qlt_le_weak. apply Hlow. lia.
    + apply IH; lia.
Qed.

Lemma legacy_name_inj d i j :
  Legacy.name (Legacy.clipAt d i) = Legacy.name (Legacy.clipAt d j) -> i = j.
Proof.
  cbn [Legacy.name Legacy.clipAt]. intros H.
  apply append_inv_head in H. apply append_inv_tail in H.
  apply natString_inj in H; lia.
Qed.

End LegacyFacts.

(** X23: the first version, on a video of positive duration: the clips
    it records tile the video (the first starts at 0, each ends where
    the next starts, the last ends at the duration), each is longer than
    0 and at most 30 seconds long, and there are ceil(duration / 30) of
    them. *)
Theorem X23_legacy_tiling d :
  0 < d ->
  sequenceInvariant d (List.map Legacy.clipInterval (Legacy.generatedClips d)) /\
  (forall c, In c (Legacy.generatedClips d) ->
     Legacy.startTime c < Legacy.endTime c /\
     Legacy.endTime c - Legacy.startTime c <= 30) /\
  Z.of_nat (List.length (Legacy.generatedClips d)) = Qceiling (d / 30).
Proof.
  intros Hd. destruct (numberOfClips_bounds d Hd) as [Hn [Hup Hlow]].
  rewrite generatedClips_map.
  set (n := Z.to_nat (Legacy.numberOfClips d)) in *.
  split; [| split].
  - apply chain_invariant.
    + destruct n; [lia |]. discriminate.
    + apply (legacy_chain d n Hup Hlow n 0); [reflexivity | exact Hn].
  - intros c Hc. apply in_map_iff in Hc. destruct Hc as [i [<- Hi]].
    apply in_seq in Hi.
    cbn [Legacy.clipAt Legacy.startTime Legacy.endTime]. unfold Legacy.clipDuration.
    pose proof (Hlow i ltac:(lia)) as Hs.
    split.
    + apply Q.min_glb_lt; [lra | exact Hs].
    + pose proof (Q.le_min_l (inject_Z (Z.of_nat i) * 30 + 30) d). lra.
  - rewrite length_map, length_seq. unfold n, Legacy.numberOfClips, Legacy.clipDuration.
    rewrite Z2Nat.id; [reflexivity |].
    unfold n, Legacy.numberOfClips, Legacy.clipDuration in Hn. lia.
Qed.

Lemma X23_legacy_tiling_witness :
  sequenceInvariant 65 (List.map Legacy.clipInterval (Legacy.generatedClips 65)) /\
  List.length (Legacy.generatedClips 65) = 3%nat.
Proof.
  destruct (X23_legacy_tiling 65 eq_refl) as [H [_ _]].
  split; [exact H | reflexivity].
Defined.

(** X24: the first version names its clips clip-1.mp4, clip-2.mp4, ...:
    the names of the clips of one job are pairwise distinct, whatever
    the duration. *)
Theorem X24_legacy_names_distinct d :
  NoDup (List.map Legacy.name (Legacy.generatedClips d)).
Proof.
  rewrite generatedClips_map, map_map.
  assert (H : forall l, NoDup l ->
            NoDup (List.map (fun i => Legacy.name (Legacy.clipAt d i)) l)).
  { induction l as [| i l IH]; intros Hl; [constructor |].
    inversion Hl as [| x l' Hnot Hrest]; subst. cbn [List.map]. constructor.
    - intros Hin. apply in_map_iff in Hin. destruct Hin as [j [Hj Hjl]].
      apply legacy_name_inj in Hj. subst j. contradiction.
    - apply IH. exact Hrest. }
  apply H. apply seq_NoDup.
Qed.

(** * The settings and the markers over a session *)

Section SessionFacts.

Lemma onEvent_reachable s ev :
  Settings.reachable s -> Settings.reachable (Settings.onEvent s ev).
Proof.
  unfold Settings.reachable, knownPolicy, validResize.
  intros [Hd [Hp [Ht [Hm [Hr Hq]]]]].
  destruct ev as [o | o | | | t | | | w];
    cbn [Settings.onEvent Settings.trim Settings.premium Planner.duration autoFit
           remainderThreshold mode template watermark resize normalize quality].
  - repeat split; try assumption. destruct o; cbn; tauto.
  - repeat split; try assumption. destruct o; cbn; tauto.
  - repeat split; try assumption. left. reflexivity.
  - repeat split; try assumption. right. reflexivity.
  - repeat split; assumption.
  - repeat split; try assumption.
    destruct (String.eqb (resize (Settings.premium s)) "9:16"); tauto.
  - repeat split; assumption.
  - repeat split; assumption.
Qed.

Lemma fold_reachable events : forall s,
  Settings.reachable s -> Settings.reachable (fold_left Settings.onEvent events s).
Proof.
  induction events as [| ev events IH]; intros s H; [exact H |].
  cbn [fold_left]. apply IH. apply onEvent_reachable. exact H.
Qed.

Lemma filterIndexed_In {A} (keep : A -> nat -> bool) i0 l x :
  In x (filterIndexed keep i0 l) -> In x l.
Proof.
  revert i0. induction l as [| a l IH]; intros i0 H; [exact H |].
  cbn [filterIndexed] in H. destruct (keep a i0).
  - destruct H as [<- | H]; [left; reflexivity | right; apply (IH _ H)].
  - right. apply (IH _ H).
Qed.

Lemma onMarkerEvent_valid d markers ev :
  eventWithin d ev -> validMarkers d markers ->
  validMarkers d (onMarkerEvent markers ev).
Proof.
  unfold validMarkers. intros He Hv. rewrite Forall_forall in *.
  destruct ev as [t | i]; cbn [onMarkerEvent eventWithin] in *.
  - unfold addMarker. destruct (includesTime t markers); [exact Hv |].
    intros x Hx. apply sort_In in Hx. apply in_app_or in Hx.
    destruct Hx as [Hx | [<- | []]]; [apply Hv; exact Hx | exact He].
  - intros x Hx. apply Hv. apply (filterIndexed_In _ _ _ _ Hx).
Qed.

Lemma onMarkerEvent_strict markers ev :
  strictlyAscending markers -> strictlyAscending (onMarkerEvent markers ev).
Proof.
  intros Hs. destruct ev as [t | i]; cbn [onMarkerEvent].
  - unfold addMarker. destruct (includesTime t markers) eqn:E; [exact Hs |].
    apply sort_snoc_strict; [exact Hs | apply includesTime_false; exact E].
  - apply filterIndexed_strictlyAscending. exact Hs.
Qed.

Lemma sort_strictFrom a l : strictFrom a l -> sort l = l /\ insert a l = a :: l.
Proof.
  revert a. induction l as [| b l IH]; intros a H; [split; reflexivity |].
  destruct H as [Hab Hl]. destruct (IH b Hl) as [Hs Hi].
  split.
  - cbn [sort fold_right]. fold (sort l). rewrite Hs. exact Hi.
  - cbn [insert].
    assert (Hle : Qle_bool a b = true) by (apply Qle_bool_iff; apply Qlt_le_weak; exact Hab).
    rewrite Hle. reflexivity.
Qed.

Lemma sort_strictlyAscending l : strictlyAscending l -> sort l = l.
Proof.
  destruct l as [| a l]; [reflexivity |]. intros H.
  destruct (sort_strictFrom a l H) as [Hs Hi].
  cbn [sort fold_right]. fold (sort l). rewrite Hs. exact Hi.
Qed.

End SessionFacts.

(** X25: whatever the user does on the settings panels, starting from
    the defaults: the clip duration is 15, 30, 60 or 90 seconds, the
    remainder policy is merge or discard, the remainder threshold stays
    5 (no control changes it, so it is below the clip duration), the
    mode is copy or encode, the reframe is none or 9:16, and the quality
    stays Medium (no control changes it), so that the encoder arguments
    always end with the constant rate factor 23. *)
Theorem X25_settings_invariant events :
  Settings.reachable (Settings.settingsAfter events) /\
  0 < remainderThreshold (Settings.trim (Settings.settingsAfter events)) /\
  remainderThreshold (Settings.trim (Settings.settingsAfter events))
  < Planner.duration (Settings.trim (Settings.settingsAfter events)) /\
  exists pre,
    encodeArgs (Settings.premium (Settings.settingsAfter events))
    = (pre ++ ["-c:v"; "libx264"; "-preset"; "veryfast"; "-crf"; "23";
               "-c:a"; "aac"; "-b:a"; "128k"]%string)%list.
Proof.
  assert (H : Settings.reachable (Settings.settingsAfter events)).
  { apply fold_reachable. unfold Settings.reachable, knownPolicy, validResize.
    cbn. tauto. }
  split; [exact H |].
  destruct H as [Hd [_ [Ht [_ [_ Hq]]]]].
  split; [rewrite Ht; reflexivity |]. split.
  - rewrite Ht. cbn [In] in Hd.
    destruct Hd as [<- | [<- | [<- | [<- | []]]]]; reflexivity.
  - unfold encodeArgs. rewrite Hq.
    destruct (filterGraph _) as [fc label].
    cbn [String.eqb Ascii.eqb Bool.eqb].
    eexists. rewrite app_assoc. reflexivity.
Qed.

(** X26: a marker list built from the empty list by adding playback
    positions within the video and removing markers lies within
    [0, duration], is strictly ascending, and is left as it is by the
    sort of the planner. *)
Theorem X26_marker_session d events :
  Forall (eventWithin d) events ->
  validMarkers d (markersAfter events) /\
  strictlyAscending (markersAfter events) /\
  sort (markersAfter events) = markersAfter events.
Proof.
  intros Hev.
  assert (H : forall start,
            validMarkers d start -> strictlyAscending start ->
            validMarkers d (fold_left onMarkerEvent events start) /\
            strictlyAscending (fold_left onMarkerEvent events start)).
  { induction Hev as [| ev events He _ IH]; intros start Hv Hs; [split; assumption |].
    cbn [fold_left]. apply IH.
    - apply onMarkerEvent_valid; assumption.
    - apply onMarkerEvent_strict. exact Hs. }
  destruct (H [] (Forall_nil _) I) as [Hv Hs].
  split; [exact Hv |]. split; [exact Hs |].
  apply sort_strictlyAscending. exact Hs.
Qed.

Lemma X26_marker_session_witness :
  markersAfter [AddAt 60; AddAt 30; AddAt 60; RemoveAt 1; AddAt 45] = [30; 45] /\
  validMarkers 95 [30; 45] /\ sort [30; 45] = [30; 45].
Proof.
  destruct (X26_marker_session 95 [AddAt 60; AddAt 30; AddAt 60; RemoveAt 1; AddAt 45])
    as [Hv [_ Hs]].
  - repeat constructor; discriminate.
  - split; [reflexivity |]. split; [exact Hv | exact Hs].
Defined.

(** * Double arithmetic *)

Import Double.

Section Pow2.

Lemma two_neq_0 : ~ 2 == 0.
Proof. discriminate. Qed.

Lemma pow2_pos e : 0 < 2 ^ e.
Proof. apply Qpower_0_lt. reflexivity. Qed.

Lemma pow2_add a b : 2 ^ (a + b) == 2 ^ a * 2 ^ b.
Proof. apply Qpower_plus. exact two_neq_0. Qed.

Lemma pow2_sub a b : 2 ^ (a - b) == 2 ^ a / 2 ^ b.
Proof. apply Qpower_minus. exact two_neq_0. Qed.

Lemma pow2_succ a : 2 ^ (a + 1) == 2 * 2 ^ a.
Proof. rewrite pow2_add. change (2 ^ 1) with 2. ring. Qed.

Lemma pow2_le a b : (a <= b)%Z -> 2 ^ a <= 2 ^ b.
Proof. intros H. apply Qpower_le_compat_l; [exact H | discriminate]. Qed.

Lemma pow2_lt a b : (a < b)%Z -> 2 ^ a < 2 ^ b.
Proof. intros H. apply Qpower_lt_compat_l; [exact H | reflexivity]. Qed.

Lemma pow2_lt_inv a b : 2 ^ a < 2 ^ b -> (a < b)%Z.
Proof. intros H. apply (Qpower_lt_compat_l_inv 2); [exact H | reflexivity]. Qed.

Lemma pow2_Z n : (0 <= n)%Z -> 2 ^ n == inject_Z (2 ^ n).
Proof. intros H. rewrite (Zpower_Qpower 2 n H). reflexivity. Qed.

End Pow2.

Section Log2.

Lemma ilog2_spec x : 0 < x -> 2 ^ ilog2 x <= x /\ x < 2 ^ (ilog2 x + 1).
Proof.
  intros Hx. destruct x as [n d].
  assert (Hn : (0 < n)%Z).
  { unfold Qlt in Hx. simpl in Hx. lia. }
  unfold ilog2. cbn [Qnum Qden].
  set (a := Z.log2 n). set (b := Z.log2 (Z.pos d)).
  destruct (Z.log2_spec n Hn) as [Ha1 Ha2]. fold a in Ha1, Ha2.
  destruct (Z.log2_spec (Z.pos d) ltac:(lia)) as [Hb1 Hb2]. fold b in Hb1, Hb2.
  assert (Ha0 : (0 <= a)%Z) by apply Z.log2_nonneg.
  assert (Hb0 : (0 <= b)%Z) by apply Z.log2_nonneg.
  assert (HA : 2 ^ a == inject_Z (2 ^ a)) by (apply pow2_Z; exact Ha0).
  assert (HB : 2 ^ b == inject_Z (2 ^ b)) by (apply pow2_Z; exact Hb0).
  assert (Hx' : (n # d) * inject_Z (Z.pos d) == inject_Z n).
  { unfold Qeq, Qmult, inject_Z. simpl. lia. }
  assert (HnA : 2 ^ a <= inject_Z n) by (rewrite HA, <- Zle_Qle; exact Ha1).
  assert (HnA' : inject_Z n < 2 * 2 ^ a).
  { rewrite <- pow2_succ. rewrite (pow2_Z (a + 1)) by lia. rewrite <- Zlt_Qlt.
    unfold Z.succ in Ha2. exact Ha2. }
  assert (HdB : 2 ^ b <= inject_Z (Z.pos d)) by (rewrite HB, <- Zle_Qle; exact Hb1).
  assert (HdB' : inject_Z (Z.pos d) < 2 * 2 ^ b).
  { rewrite <- pow2_succ. rewrite (pow2_Z (b + 1)) by lia. rewrite <- Zlt_Qlt.
    unfold Z.succ in Hb2. exact Hb2. }
  pose proof (pow2_pos a) as PA. pose proof (pow2_pos b) as PB.
  pose proof (pow2_pos (a - b)) as PAB.
  assert (Hab : 2 ^ (a - b) * 2 ^ b == 2 ^ a).
  { rewrite <- pow2_add. replace (a - b + b)%Z with a by lia. reflexivity. }
  set (x := n # d) in *. set (D := inject_Z (Z.pos d)) in *.
  set (N := inject_Z n) in *. set (A := 2 ^ a) in *. set (B := 2 ^ b) in *.
  set (P := 2 ^ (a - b)) in *.
  (* x > P / 2 and x < 2 P *)
  assert (Hlow : P < 2 * x).
  { (* P * B = A <= N = x D < x * 2B *) 
    apply (Qmult_lt_r _ _ B PB). 
    assert (x * D < x * (2 * B)) by (apply Qmult_lt_l; [exact Hx | exact HdB']).
    lra. }
  assert (Hhigh : x < 2 * P).
  { apply (Qmult_lt_r _ _ B PB).
    assert (x * B <= x * D) by (apply Qmult_le_l; [exact Hx | exact HdB]).
    lra. }
  destruct (Qle_bool P x) eqn:E.
  - apply Qle_bool_iff in E. split; [exact E |].
    fold (a - b)%Z. rewrite pow2_succ. fold P. exact Hhigh.
  - assert (Hlt : x < P).
    { destruct (Qlt_le_dec x P) as [H | H]; [exact H |].
      apply Qle_bool_iff in H. congruence. }
    replace (a - b - 1 + 1)%Z with (a - b)%Z by lia. fold P.
    split; [| exact Hlt].
    assert (HP : P == 2 * 2 ^ (a - b - 1)).
    { unfold P. rewrite <- pow2_succ. replace (a - b - 1 + 1)%Z with (a - b)%Z by lia.
      reflexivity. }
    lra.
Qed.

Lemma ilog2_unique x k : 0 < x -> 2 ^ k <= x -> x < 2 ^ (k + 1) -> ilog2 x = k.
Proof.
  intros Hx H1 H2. destruct (ilog2_spec x Hx) as [S1 S2].
  assert (A : (ilog2 x < k + 1)%Z).
  { apply pow2_lt_inv. eapply Qle_lt_trans; [exact S1 | exact H2]. }
  assert (B : (k < ilog2 x + 1)%Z).
  { apply pow2_lt_inv. eapply Qle_lt_trans; [exact H1 | exact S2]. }
  lia.
Qed.

Lemma ilog2_mono x y : 0 < x -> x <= y -> (ilog2 x <= ilog2 y)%Z.
Proof.
  intros Hx Hxy. destruct (ilog2_spec x Hx) as [S1 _].
  destruct (ilog2_spec y ltac:(lra)) as [_ T2].
  assert (A : (ilog2 x < ilog2 y + 1)%Z).
  { apply pow2_lt_inv. lra. }
  lia.
Qed.

Lemma ilog2_lt x m : 0 < x -> x < 2 ^ m -> (ilog2 x < m)%Z.
Proof.
  intros Hx H. destruct (ilog2_spec x Hx) as [S1 _].
  apply pow2_lt_inv. lra.
Qed.

Lemma ilog2_ge x m : 0 < x -> 2 ^ m <= x -> (m <= ilog2 x)%Z.
Proof.
  intros Hx H. destruct (ilog2_spec x Hx) as [_ S2].
  assert (A : (m < ilog2 x + 1)%Z) by (apply pow2_lt_inv; lra).
  lia.
Qed.

End Log2.

Section Rne.

Lemma rne_cases y :
  let f := Qfloor y in
  (rne y = f /\ y - inject_Z f <= 1 # 2) \/
  (rne y = (f + 1)%Z /\ 1 # 2 <= y - inject_Z f).
Proof.
  intros f. unfold rne. fold f.
  destruct (Qcompare (y - inject_Z f) (1 # 2)) eqn:E.
  - apply Qeq_alt in E. destruct (Z.even f); [left | right]; split; try reflexivity; lra.
  - apply Qlt_alt in E. left. split; [reflexivity | lra].
  - apply Qgt_alt in E. right. split; [reflexivity | lra].
Qed.

Lemma floor_bounds y : inject_Z (Qfloor y) <= y /\ y < inject_Z (Qfloor y) + 1.
Proof.
  split; [apply Qfloor_le |].
  pose proof (Qlt_floor y) as H. rewrite inject_Z_plus in H. exact H.
Qed.

Lemma rne_error y :
  inject_Z (rne y) - y <= 1 # 2 /\ y - inject_Z (rne y) <= 1 # 2.
Proof.
  destruct (floor_bounds y) as [F1 F2].
  destruct (rne_cases y) as [[-> H] | [-> H]].
  - lra.
  - rewrite inject_Z_plus. change (inject_Z 1) with 1. lra.
Qed.

Lemma floor_ge_int y k : inject_Z k <= y -> (k <= Qfloor y)%Z.
Proof.
  intros H. destruct (floor_bounds y) as [_ F2].
  assert (A : inject_Z k < inject_Z (Qfloor y + 1)).
  { rewrite inject_Z_plus. change (inject_Z 1) with 1. lra. }
  rewrite <- Zlt_Qlt in A. lia.
Qed.

Lemma rne_ge_int y k : inject_Z k <= y -> (k <= rne y)%Z.
Proof.
  intros H. pose proof (floor_ge_int y k H) as Hf.
  destruct (rne_cases y) as [[-> _] | [-> _]]; lia.
Qed.

Lemma rne_le_int y k : y <= inject_Z k -> (rne y <= k)%Z.
Proof.
  intros H. destruct (floor_bounds y) as [F1 F2].
  assert (Hf : (Qfloor y <= k)%Z) by (rewrite Zle_Qle; lra).
  destruct (rne_cases y) as [[-> _] | [-> Hr]]; [exact Hf |].
  assert (A : inject_Z (Qfloor y) < inject_Z k) by lra.
  rewrite <- Zlt_Qlt in A. lia.
Qed.

Lemma rne_int k : rne (inject_Z k) = k.
Proof.
  apply Z.le_antisymm; [apply rne_le_int | apply rne_ge_int]; apply Qle_refl.
Qed.

Lemma rne_comp y z : y == z -> rne y = rne z.
Proof.
  intros E. unfold rne. rewrite (Qfloor_comp _ _ E).
  assert (E' : y - inject_Z (Qfloor z) == z - inject_Z (Qfloor z)) by (rewrite E; reflexivity).
  rewrite (Qcompare_comp _ _ E' (1 # 2) (1 # 2) (Qeq_refl _)). reflexivity.
Qed.

Lemma rne_mono y z : y <= z -> (rne y <= rne z)%Z.
Proof.
  intros H.
  destruct (floor_bounds y) as [Y1 Y2]. destruct (floor_bounds z) as [Z1 Z2].
  assert (Hf : (Qfloor y <= Qfloor z)%Z) by (apply Qfloor_resp_le; exact H).
  destruct (Z.eq_dec (Qfloor y) (Qfloor z)) as [E | NE].
  - (* same cell *)
    unfold rne. rewrite <- E.
    destruct (Qcompare_spec (y - inject_Z (Qfloor y)) (1 # 2)) as [Cy | Cy | Cy];
      destruct (Qcompare_spec (z - inject_Z (Qfloor y)) (1 # 2)) as [Cz | Cz | Cz];
      try (destruct (Z.even (Qfloor y))); try lia; exfalso; lra.
  - assert (Hlt : (Qfloor y + 1 <= Qfloor z)%Z) by lia.
    destruct (rne_cases y) as [[-> _] | [-> _]];
      destruct (rne_cases z) as [[-> _] | [-> _]]; lia.
Qed.

End Rne.

Section RoundQ.

Lemma Qabs_pos_eq x : 0 < x -> Qabs x = x.
Proof.
  intros H. destruct x as [n d]. unfold Qlt in H. simpl in H.
  unfold Qabs. rewrite Z.abs_eq by lia. reflexivity.
Qed.

Lemma roundQ_pos_eq x :
  0 < x -> roundQ x = inject_Z (rne (x / 2 ^ ulpExp x)) * 2 ^ ulpExp x.
Proof.
  intros H. unfold roundQ.
  destruct (Qeq_bool x 0) eqn:E; [| reflexivity].
  apply Qeq_bool_iff in E. lra.
Qed.

Lemma roundQ_zero x : x == 0 -> roundQ x = 0.
Proof.
  intros H. unfold roundQ. apply Qeq_bool_iff in H. rewrite H. reflexivity.
Qed.

Lemma div_mul_pow x e : x / 2 ^ e * 2 ^ e == x.
Proof. field. pose proof (pow2_pos e). lra. Qed.

(** A grid point above [x] is above its rounding. *)
Lemma roundQ_le_grid x k :
  0 < x -> x <= inject_Z k * 2 ^ ulpExp x -> roundQ x <= inject_Z k * 2 ^ ulpExp x.
Proof.
  intros Hx H. rewrite (roundQ_pos_eq x Hx).
  pose proof (pow2_pos (ulpExp x)) as Hu. set (u := 2 ^ ulpExp x) in *.
  apply Qmult_le_compat_r; [| lra].
  rewrite <- Zle_Qle. apply rne_le_int.
  apply Qle_shift_div_r; [exact Hu | exact H].
Qed.

Lemma roundQ_ge_grid x k :
  0 < x -> inject_Z k * 2 ^ ulpExp x <= x -> inject_Z k * 2 ^ ulpExp x <= roundQ x.
Proof.
  intros Hx H. rewrite (roundQ_pos_eq x Hx).
  pose proof (pow2_pos (ulpExp x)) as Hu. set (u := 2 ^ ulpExp x) in *.
  apply Qmult_le_compat_r; [| lra].
  rewrite <- Zle_Qle. apply rne_ge_int.
  apply Qle_shift_div_l; [exact Hu | exact H].
Qed.

(** The rounding error is at most half a unit in the last place. *)
Lemma roundQ_error x :
  0 < x ->
  roundQ x - x <= (1 # 2) * 2 ^ ulpExp x /\ x - roundQ x <= (1 # 2) * 2 ^ ulpExp x.
Proof.
  intros Hx. rewrite (roundQ_pos_eq x Hx).
  pose proof (pow2_pos (ulpExp x)) as Hu.
  pose proof (div_mul_pow x (ulpExp x)) as Hd.
  destruct (rne_error (x / 2 ^ ulpExp x)) as [E1 E2].
  set (u := 2 ^ ulpExp x) in *. set (z := x / u) in *.
  set (r := inject_Z (rne z)) in *.
  assert (A1 : (r - z) * u <= (1 # 2) * u) by (apply Qmult_le_compat_r; lra).
  assert (A2 : (z - r) * u <= (1 # 2) * u) by (apply Qmult_le_compat_r; lra).
  split; lra.
Qed.

Lemma ulpExp_pos x : 0 < x -> ulpExp x = Z.max (-1074) (ilog2 x - 52).
Proof. intros H. unfold ulpExp. rewrite (Qabs_pos_eq x H). reflexivity. Qed.

(** The unit in the last place of a number in the normal range. *)
Lemma ulp_normal x : 2 ^ (-1022) <= x -> 2 ^ ulpExp x <= x * 2 ^ (-52).
Proof.
  intros H. assert (Hx : 0 < x) by (pose proof (pow2_pos (-1022)); lra).
  rewrite (ulpExp_pos x Hx).
  pose proof (ilog2_ge x (-1022) Hx H) as Hl.
  rewrite Z.max_r by lia.
  destruct (ilog2_spec x Hx) as [S1 _].
  replace (ilog2 x - 52)%Z with (ilog2 x + -52)%Z by lia. rewrite pow2_add.
  apply Qmult_le_compat_r; [exact S1 |]. apply Qlt_le_weak. apply pow2_pos.
Qed.

Lemma ulp_any x : 0 < x -> 2 ^ ulpExp x <= Qmax (x * 2 ^ (-52)) (2 ^ (-1074)).
Proof.
  intros Hx. rewrite (ulpExp_pos x Hx).
  destruct (Z.max_spec (-1074) (ilog2 x - 52)) as [[H ->] | [H ->]].
  - eapply Qle_trans; [| apply Q.le_max_l].
    destruct (ilog2_spec x Hx) as [S1 _].
    replace (ilog2 x - 52)%Z with (ilog2 x + -52)%Z by lia. rewrite pow2_add.
    apply Qmult_le_compat_r; [exact S1 |]. apply Qlt_le_weak. apply pow2_pos.
  - apply Q.le_max_r.
Qed.

Lemma roundQ_nonneg x : 0 <= x -> 0 <= roundQ x.
Proof.
  intros H. destruct (Qeq_dec x 0) as [E | NE].
  - rewrite (roundQ_zero x E). apply Qle_refl.
  - assert (Hx : 0 < x) by lra.
    pose proof (roundQ_ge_grid x 0 Hx) as G.
    change (inject_Z 0) with 0 in G. rewrite Qmult_0_l in G. apply G. exact H.
Qed.

Lemma roundQ_nonpos x : x <= 0 -> roundQ x <= 0.
Proof.
  intros H. unfold roundQ. destruct (Qeq_bool x 0); [apply Qle_refl |].
  pose proof (pow2_pos (ulpExp x)) as Hu. set (u := 2 ^ ulpExp x) in *.
  assert (A : (rne (x / u) <= 0)%Z).
  { apply rne_le_int. change (inject_Z 0) with 0.
    apply Qle_shift_div_r; [exact Hu | lra]. }
  rewrite Zle_Qle in A. change (inject_Z 0) with 0 in A.
  assert (B : inject_Z (rne (x / u)) * u <= 0 * u) by (apply Qmult_le_compat_r; lra).
  lra.
Qed.

(** Rounding to nearest is monotone. *)
Lemma roundQ_mono x y : 0 <= x -> x <= y -> roundQ x <= roundQ y.
Proof.
  intros H0 Hxy. destruct (Qeq_dec x 0) as [E | NE].
  { rewrite (roundQ_zero x E). apply roundQ_nonneg. lra. }
  assert (Hx : 0 < x) by lra. assert (Hy : 0 < y) by lra.
  pose proof (ilog2_mono x y Hx Hxy) as Hl.
  assert (He : (ulpExp x <= ulpExp y)%Z).
  { rewrite (ulpExp_pos x Hx), (ulpExp_pos y Hy). lia. }
  destruct (Z.eq_dec (ulpExp x) (ulpExp y)) as [Eq | Ne].
  - rewrite (roundQ_pos_eq x Hx), (roundQ_pos_eq y Hy), Eq.
    pose proof (pow2_pos (ulpExp y)) as Hu. set (u := 2 ^ ulpExp y) in *.
    apply Qmult_le_compat_r; [| lra].
    rewrite <- Zle_Qle. apply rne_mono.
    apply Qmult_le_compat_r; [exact Hxy |]. apply Qlt_le_weak. apply Qinv_lt_0_compat. exact Hu.
  - assert (Hlt : (ulpExp x < ulpExp y)%Z) by lia.
    set (ex := ulpExp x) in *. set (ey := ulpExp y) in *.
    (* the power of two between them *)
    assert (Hxb : x <= inject_Z (2 ^ 53) * 2 ^ ex).
    { rewrite <- (pow2_Z 53) by lia. rewrite <- pow2_add.
      destruct (ilog2_spec x Hx) as [_ S2].
      apply Qlt_le_weak. eapply Qlt_le_trans; [exact S2 |].
      apply pow2_le. unfold ex. rewrite (ulpExp_pos x Hx). lia. }
    assert (Hyb : inject_Z (2 ^ 52) * 2 ^ ey <= y).
    { rewrite <- (pow2_Z 52) by lia. rewrite <- pow2_add.
      destruct (ilog2_spec y Hy) as [S1 _].
      eapply Qle_trans; [| exact S1].
      apply pow2_le. unfold ey, ex in *.
      rewrite (ulpExp_pos y Hy) in *. rewrite (ulpExp_pos x Hx) in Hlt. lia. }
    pose proof (roundQ_le_grid x _ Hx Hxb) as A.
    pose proof (roundQ_ge_grid y _ Hy Hyb) as B.
    fold ex in A. fold ey in B.
    assert (C : inject_Z (2 ^ 53) * 2 ^ ex <= inject_Z (2 ^ 52) * 2 ^ ey).
    { rewrite <- (pow2_Z 53), <- (pow2_Z 52) by lia. rewrite <- !pow2_add.
      apply pow2_le. lia. }
    lra.
Qed.

Lemma roundQ_comp_nonneg x y : 0 <= x -> x == y -> roundQ x == roundQ y.
Proof.
  intros H E. apply Qle_antisym; apply roundQ_mono; lra.
Qed.

(** A number with at most 53 significant bits above the smallest
    exponent is its own rounding. *)
Lemma roundQ_exact x k q :
  (0 < k < 2 ^ 53)%Z -> (-1074 <= q)%Z -> x == inject_Z k * 2 ^ q -> roundQ x == x.
Proof.
  intros Hk Hq E.
  pose proof (pow2_pos q) as Pq.
  assert (Hkq : 0 < inject_Z k) by (change 0 with (inject_Z 0); rewrite <- Zlt_Qlt; lia).
  assert (Hx : 0 < x).
  { rewrite E. apply Qmult_lt_0_compat; assumption. }
  assert (Hlt : x < 2 ^ (53 + q)).
  { rewrite E, pow2_add. apply Qmult_lt_compat_r; [exact Pq |].
    rewrite (pow2_Z 53) by lia. rewrite <- Zlt_Qlt. lia. }
  pose proof (ilog2_lt x _ Hx Hlt) as Hl.
  assert (He : (ulpExp x <= q)%Z) by (rewrite (ulpExp_pos x Hx); lia).
  rewrite (roundQ_pos_eq x Hx). set (e := ulpExp x) in *.
  assert (Hz : x / 2 ^ e == inject_Z (k * 2 ^ (q - e))).
  { rewrite inject_Z_mult. rewrite <- (pow2_Z (q - e)) by lia.
    rewrite pow2_sub, E. field. pose proof (pow2_pos e). lra. }
  rewrite (rne_comp _ _ Hz), rne_int, <- Hz. apply div_mul_pow.
Qed.

End RoundQ.

(** * The order of the numbers *)

Section NumberOrder.

Lemma maxDouble_pos : 0 < maxDouble.
Proof. reflexivity. Qed.

Lemma round_nonneg_cases z :
  0 <= z ->
  (round z = Finite (roundQ z) /\ roundQ z <= maxDouble) \/
  (round z = PosInfinity /\ maxDouble < roundQ z).
Proof.
  intros Hz. unfold round. pose proof (roundQ_nonneg z Hz) as Hr.
  pose proof maxDouble_pos as Hm.
  destruct (Qltb maxDouble (roundQ z)) eqn:E.
  - right. split; [reflexivity | apply Qltb_lt; exact E].
  - left. apply Qltb_ge in E.
    assert (E2 : Qltb (roundQ z) (- maxDouble) = false) by (apply Qltb_ge; lra).
    rewrite E2. split; [reflexivity | exact E].
Qed.

Lemma round_num z : round z <> NaN.
Proof.
  unfold round. destruct (Qltb maxDouble (roundQ z)); [discriminate |].
  destruct (Qltb (roundQ z) (- maxDouble)); discriminate.
Qed.

(** The sign of a rounded number is that of the exact one. *)
Lemma round_pos z : ltb zero (round z) = true -> 0 < z.
Proof.
  intros H. destruct (Qlt_le_dec 0 z) as [Hz | Hz]; [exact Hz |].
  exfalso. pose proof (roundQ_nonpos z Hz) as Hr. pose proof maxDouble_pos as Hm.
  unfold round in H.
  assert (E : Qltb maxDouble (roundQ z) = false) by (apply Qltb_ge; lra).
  rewrite E in H. destruct (Qltb (roundQ z) (- maxDouble)); [discriminate |].
  cbn [ltb zero] in H. apply Qltb_lt in H. lra.
Qed.

Lemma add_num a c : a <> NaN -> add a (Finite c) <> NaN.
Proof.
  destruct a as [x | | |]; intros H; cbn [add]; try discriminate;
    try (exfalso; apply H; reflexivity).
  apply round_num.
Qed.

Lemma ltb_num_l a b : ltb a b = true -> a <> NaN.
Proof. destruct a; [discriminate | discriminate | discriminate |]. discriminate. Qed.

Lemma ltb_num_r a b : ltb a b = true -> b <> NaN.
Proof. destruct a, b; try discriminate; intros H; discriminate. Qed.

Lemma min_num a b : a <> NaN -> b <> NaN -> min a b <> NaN.
Proof.
  intros Ha Hb. destruct a, b; try contradiction; cbn [min];
    match goal with |- (if ?c then _ else _) <> _ => destruct c end; assumption.
Qed.

Lemma min_le_r a b : a <> NaN -> b <> NaN -> leb (min a b) b = true.
Proof.
  intros Ha Hb. destruct a as [x | | |], b as [y | | |];
    try (exfalso; apply Ha; reflexivity); try (exfalso; apply Hb; reflexivity);
    cbn [min leb]; try reflexivity.
  - destruct (Qle_bool x y) eqn:E; cbn [leb]; [exact E |].
    apply Qle_bool_iff. apply Qle_refl.
  - apply Qle_bool_iff. apply Qle_refl.
Qed.

Lemma sameValue_refl a : sameValue a a.
Proof. destruct a; simpl; [apply Qeq_refl | exact I | exact I | exact I]. Qed.

Lemma sameValue_sym a b : sameValue a b -> sameValue b a.
Proof. destruct a, b; simpl; try tauto. intros H. symmetry. exact H. Qed.

Lemma sameValue_trans a b c : sameValue a b -> sameValue b c -> sameValue a c.
Proof.
  destruct a, b, c; simpl; try tauto. intros H1 H2. rewrite H1. exact H2.
Qed.

Lemma leb_antisym a b : leb a b = true -> leb b a = true -> sameValue a b.
Proof.
  destruct a as [x | | |], b as [y | | |]; cbn [leb sameValue]; try discriminate;
    try (intros; exact I).
  intros H1 H2. apply Qle_bool_iff in H1, H2. apply Qle_antisym; assumption.
Qed.

Lemma leb_refl a : a <> NaN -> leb a a = true.
Proof.
  destruct a; intros H; cbn [leb]; try reflexivity.
  - apply Qle_bool_iff. apply Qle_refl.
  - exfalso. apply H. reflexivity.
Qed.

Lemma leb_ltb_false a b : leb b a = true -> ltb a b = false.
Proof.
  destruct a as [x | | |], b as [y | | |]; cbn [leb ltb]; try discriminate;
    try reflexivity.
  intros H. apply Qle_bool_iff in H. apply Qltb_ge. exact H.
Qed.

Lemma leb_false_ltb a b : a <> NaN -> b <> NaN -> leb b a = false -> ltb a b = true.
Proof.
  intros Ha Hb. destruct a as [x | | |], b as [y | | |];
    try (exfalso; apply Ha; reflexivity); try (exfalso; apply Hb; reflexivity);
    cbn [leb ltb]; try discriminate; try reflexivity.
  intros H. unfold Qltb. rewrite H. reflexivity.
Qed.

(** A positive remainder [d - e] means [e < d]. *)
Lemma sub_pos_lt d e : gtb (sub d e) zero = true -> ltb e d = true.
Proof.
  unfold gtb, sub.
  destruct d as [x | | |], e as [y | | |]; cbn [opp add ltb zero];
    try discriminate; try reflexivity.
  intros H. apply round_pos in H. apply Qltb_lt. lra.
Qed.

End NumberOrder.

(** * The fixed-length loop in double arithmetic *)

Section AutoSplit64.

Import Planner64.

Variable d : number.
Variable ts : trimSettings.

Lemma linked_snoc a l b e :
  linked a l b -> linked a (l ++ [mkInterval b e]) e.
Proof.
  revert a. induction l as [| iv l IH]; intros a H; cbn [linked app] in *.
  - split; [symmetry; exact H | reflexivity].
  - destruct H as [H1 H2]. split; [exact H1 | apply IH; exact H2].
Qed.

Lemma belowThreshold_start x e e' :
  belowThreshold d ts (mkInterval x e) = belowThreshold d ts (mkInterval x e').
Proof. reflexivity. Qed.

(** One pass keeps the invariant or ends in the postcondition. *)
Lemma loopBody_keeps64 s :
  loopInv d ts s ->
  match loopBody d ts s with
  | Continue s' => loopInv d ts s'
  | Break s' => loopPost d ts s'
  end.
Proof.
  intros [Hlt [Hch [Hle Hdis]]].
  pose proof (ltb_num_l _ _ Hlt) as Hc. pose proof (ltb_num_r _ _ Hlt) as Hdn.
  set (end0 := min (add (current s) (Finite (Planner.duration ts))) d).
  assert (He0 : end0 <> NaN) by (apply min_num; [apply add_num; exact Hc | exact Hdn]).
  assert (Hle0 : leb end0 d = true)
    by (apply min_le_r; [apply add_num; exact Hc | exact Hdn]).
  assert (Htest : forall e,
            belowThreshold d ts (mkInterval (current s) e)
            = gtb (sub d end0) zero && ltb (sub d end0) (Finite (remainderThreshold ts)))
    by reflexivity.
  (* the ordinary end of a pass *)
  assert (Hfinish :
    (autoFit ts = "discard"%string ->
     belowThreshold d ts (mkInterval (current s) end0) = false) ->
    match (if geb end0 d
           then Break (mkLoop end0 (intervals s ++ [mkInterval (current s) end0]))
           else Continue (mkLoop end0 (intervals s ++ [mkInterval (current s) end0])))
    with
    | Continue s' => loopInv d ts s'
    | Break s' => loopPost d ts s'
    end).
  { intros Hb. unfold geb. destruct (leb d end0) eqn:Eg.
    - exists (intervals s), (mkInterval (current s) end0). cbn [intervals end_].
      split; [reflexivity |]. split; [apply linked_snoc; exact Hch |].
      split; [apply Forall_app; split; [exact Hle | constructor; [exact Hle0 | constructor]] |].
      split; [intros _; apply leb_antisym; assumption |].
      intros Hd. split; [apply Hdis; exact Hd |].
      rewrite (Hb Hd), (leb_ltb_false _ _ Eg). split; intros H; discriminate.
    - unfold loopInv. cbn [current intervals].
      split; [apply leb_false_ltb; assumption |].
      split; [apply linked_snoc; exact Hch |].
      split; [apply Forall_app; split; [exact Hle | constructor; [exact Hle0 | constructor]] |].
      intros Hd. apply Forall_app. split; [apply Hdis; exact Hd |].
      constructor; [apply Hb; exact Hd | constructor]. }
  unfold loopBody. fold end0.
  destruct (gtb (sub d end0) zero && ltb (sub d end0) (Finite (remainderThreshold ts)))
    eqn:Et.
  - destruct (String.eqb (autoFit ts) "merge") eqn:Em.
    + apply String.eqb_eq in Em. unfold geb. rewrite (leb_refl d Hdn).
      exists (intervals s), (mkInterval (current s) d). cbn [intervals end_].
      split; [reflexivity |]. split; [apply linked_snoc; exact Hch |].
      split; [apply Forall_app; split;
              [exact Hle | constructor; [apply leb_refl; exact Hdn | constructor]] |].
      split; [intros _; apply sameValue_refl |].
      intros Hd. rewrite Em in Hd. discriminate.
    + destruct (String.eqb (autoFit ts) "discard") eqn:Ed.
      * apply String.eqb_eq in Ed.
        exists (intervals s), (mkInterval (current s) end0). cbn [intervals end_].
        split; [reflexivity |]. split; [apply linked_snoc; exact Hch |].
        split; [apply Forall_app; split; [exact Hle | constructor; [exact Hle0 | constructor]] |].
        split; [intros Hn; contradiction |].
        intros _. split; [apply Hdis; exact Ed |].
        pose proof (Htest end0) as Hb. rewrite ?Et in Hb. rewrite Hb.
        apply andb_true_iff in Et. destruct Et as [Et _].
        rewrite (sub_pos_lt _ _ Et). split; intros _; reflexivity.
      * apply Hfinish. intros Hd. apply String.eqb_neq in Ed. contradiction.
  - apply Hfinish. intros _. pose proof (Htest end0) as Hb. rewrite ?Et in Hb.
    exact Hb.
Qed.

(** Whatever the fuel, a run that returns ends in the postcondition. *)
Lemma autoSplitLoop_partial64 (Inv Post : loopState -> Prop) :
  (forall s, Inv s -> ltb (current s) d = true ->
     match loopBody d ts s with
     | Continue s' => Inv s'
     | Break s' => Post s'
     end) ->
  (forall s, Inv s -> ltb (current s) d = false -> Post s) ->
  forall fuel s k s' n,
    Inv s -> autoSplitLoop d ts fuel s k = Some (s', n) -> Post s'.
Proof.
  intros Hbody Hexit. induction fuel as [| fuel IH]; intros s k s' n HI H.
  - cbn [autoSplitLoop] in H. destruct (ltb (current s) d) eqn:E; [discriminate |].
    injection H as <- _. apply Hexit; assumption.
  - cbn [autoSplitLoop] in H. destruct (ltb (current s) d) eqn:E.
    + specialize (Hbody s HI E).
      destruct (loopBody d ts s) as [s1 | s1].
      * apply (IH s1 (S k) s' n Hbody H).
      * injection H as <- _. exact Hbody.
    + injection H as <- _. apply Hexit; assumption.
Qed.

Lemma autoSplit_post64 fuel plan :
  gtb d zero = true ->
  autoSplit d ts fuel = Some plan ->
  exists s, plan = intervals s /\ loopPost d ts s.
Proof.
  intros Hd H. unfold autoSplit in H.
  destruct (autoSplitLoop d ts fuel (mkLoop zero []) 0) as [[s n] |] eqn:E;
    [| discriminate].
  cbn [option_map fst] in H. injection H as <-.
  exists s. split; [reflexivity |].
  apply (autoSplitLoop_partial64 (loopInv d ts) (loopPost d ts)) with
    (fuel := fuel) (s := mkLoop zero []) (k := 0%nat) (n := n).
  - intros s0 HI _. apply loopBody_keeps64. exact HI.
  - intros s0 [HI _] Hge. rewrite HI in Hge. discriminate.
  - unfold loopInv. cbn [current intervals linked].
    split; [exact Hd |]. split; [reflexivity |]. split; [constructor |].
    intros _. constructor.
  - exact E.
Qed.

Lemma autoSplitLoop_more_fuel64 fuel fuel' s k r :
  (fuel <= fuel')%nat ->
  autoSplitLoop d ts fuel s k = Some r -> autoSplitLoop d ts fuel' s k = Some r.
Proof.
  revert fuel' s k. induction fuel as [| fuel IH]; intros fuel' s k Hle H.
  - cbn [autoSplitLoop] in H. destruct fuel'; cbn [autoSplitLoop];
      destruct (ltb (current s) d); try discriminate; exact H.
  - destruct fuel' as [| fuel']; [lia |]. cbn [autoSplitLoop] in H |- *.
    destruct (ltb (current s) d); [| exact H].
    destruct (loopBody d ts s) as [s' | s']; [| exact H].
    apply IH; [lia | exact H].
Qed.

End AutoSplit64.

(** * Termination of the fixed-length loop *)

Section Termination64.

Import Planner64.

Variable d : Q.
Variable ts : trimSettings.

Lemma finish_continue64 e push s' :
  (if geb (Finite e) (Finite d)
   then Break (mkLoop (Finite e) push)
   else Continue (mkLoop (Finite e) push)) = Continue s' ->
  current s' = Finite e /\ e < d.
Proof.
  unfold geb. cbn [leb]. destruct (Qle_bool d e) eqn:E; [discriminate |].
  intros H. injection H as <-. split; [reflexivity |].
  destruct (Qlt_le_dec e d) as [Hlt | Hle]; [exact Hlt |].
  apply Qle_bool_iff in Hle. congruence.
Qed.

(** A pass that goes on has moved the cursor to the rounded sum, which
    lies below the duration. *)
Lemma loopBody_continue64 x L s' :
  0 <= x -> 0 < Planner.duration ts ->
  loopBody (Finite d) ts (mkLoop (Finite x) L) = Continue s' ->
  current s' = Finite (roundQ (x + Planner.duration ts)) /\
  roundQ (x + Planner.duration ts) < d.
Proof.
  intros Hx Hc. unfold loopBody. cbn [current intervals].
  set (c := Planner.duration ts) in *.
  assert (Hend : min (add (Finite x) (Finite c)) (Finite d) = Finite (roundQ (x + c))
                 \/ min (add (Finite x) (Finite c)) (Finite d) = Finite d).
  { cbn [add]. destruct (round_nonneg_cases (x + c)) as [[-> _] | [-> _]]; [lra | |].
    - cbn [min leb]. destruct (Qle_bool (roundQ (x + c)) d); [left | right]; reflexivity.
    - right. reflexivity. }
  assert (Hdd : forall push s0,
            (if geb (Finite d) (Finite d)
             then Break (mkLoop (Finite d) push)
             else Continue (mkLoop (Finite d) push)) = Continue s0 -> False).
  { intros push s0 H. apply finish_continue64 in H. destruct H as [_ H]. lra. }
  destruct Hend as [-> | ->].
  - destruct (gtb _ zero && ltb _ _).
    + destruct (String.eqb (autoFit ts) "merge");
        [intros H; exfalso; exact (Hdd _ _ H) |].
      destruct (String.eqb (autoFit ts) "discard"); [discriminate |].
      apply finish_continue64.
    + apply finish_continue64.
  - destruct (gtb _ zero && ltb _ _).
    + destruct (String.eqb (autoFit ts) "merge");
        [intros H; exfalso; exact (Hdd _ _ H) |].
      destruct (String.eqb (autoFit ts) "discard"); [discriminate |].
      intros H; exfalso; exact (Hdd _ _ H).
    + intros H; exfalso; exact (Hdd _ _ H).
Qed.

(** A cursor advancing by [delta] at least in every pass that goes on
    ends the loop within the passes that cover the duration. *)
Lemma autoSplitLoop_rule64 (delta : Q) (Inv : Q -> Prop) :
  0 < Planner.duration ts -> 0 < delta ->
  (forall x, Inv x -> 0 <= x) ->
  (forall x, Inv x -> x < d ->
     Inv (roundQ (x + Planner.duration ts)) /\
     x + delta <= roundQ (x + Planner.duration ts)) ->
  forall fuel x L k,
    Inv x ->
    d - x <= inject_Z (Z.of_nat fuel) * delta ->
    exists s' n,
      autoSplitLoop (Finite d) ts fuel (mkLoop (Finite x) L) k = Some (s', n) /\
      (k <= n <= k + fuel)%nat /\ (x < d -> (k < n)%nat).
Proof.
  intros Hc Hdelta Hpos Hstep. induction fuel as [| fuel IH]; intros x L k HI Hm.
  - cbn [autoSplitLoop current ltb]. destruct (Qltb x d) eqn:E.
    + apply Qltb_lt in E. change (inject_Z (Z.of_nat 0)) with 0 in Hm. lra.
    + apply Qltb_ge in E. exists (mkLoop (Finite x) L), k.
      split; [reflexivity |]. split; [lia | intros H; lra].
  - cbn [autoSplitLoop current ltb]. destruct (Qltb x d) eqn:E.
    + apply Qltb_lt in E. destruct (Hstep x HI E) as [HI' Hadv].
      destruct (loopBody (Finite d) ts (mkLoop (Finite x) L)) as [s1 | s1] eqn:Eb.
      * destruct (loopBody_continue64 x L s1 (Hpos x HI) Hc Eb) as [Hcur _].
        destruct s1 as [c1 L1]. cbn [current] in Hcur. subst c1.
        destruct (IH _ L1 (S k) HI') as [s'' [n [H1 [H2 _]]]].
        { rewrite fuel_succ_Q in Hm. lra. }
        exists s'', n. split; [exact H1 |]. split; [lia | intros _; lia].
      * exists s1, (S k). split; [reflexivity |]. split; [lia | intros _; lia].
    + apply Qltb_ge in E. exists (mkLoop (Finite x) L), k.
      split; [reflexivity |]. split; [lia | intros H; lra].
Qed.

(** A sum with a clip length that is not tiny beside it advances by
    half the clip length at least. *)
Lemma sum_progress x c :
  0 <= x -> 2 ^ (-1074) <= c -> x + c <= c * inject_Z (2 ^ 52) ->
  x + (1 # 2) * c <= roundQ (x + c).
Proof.
  intros Hx Hc Hbig.
  assert (Hc0 : 0 < c) by (pose proof (pow2_pos (-1074)); lra).
  assert (Hy : 0 < x + c) by lra.
  destruct (roundQ_error (x + c) Hy) as [_ He].
  pose proof (ulp_any (x + c) Hy) as Hu.
  assert (Hmax : Qmax ((x + c) * 2 ^ (-52)) (2 ^ (-1074)) <= c).
  { apply Q.max_lub; [| exact Hc].
    change (2 ^ (-52)) with (1 # 4503599627370496).
    change (inject_Z (2 ^ 52)) with (4503599627370496 # 1) in Hbig. lra. }
  set (u := 2 ^ ulpExp (x + c)) in *. lra.
Qed.

Lemma passBound64_enough fuel :
  0 < Planner.duration ts ->
  (Planner64.passBound d ts <= fuel)%nat ->
  d - 0 <= inject_Z (Z.of_nat fuel) * ((1 # 2) * Planner.duration ts).
Proof.
  intros Hc Hf. unfold Planner64.passBound in Hf.
  set (c := Planner.duration ts) in *.
  assert (H1 : 2 * d / c <= inject_Z (Qceiling (2 * d / c))) by apply Qle_ceiling.
  assert (H2 : inject_Z (Qceiling (2 * d / c)) <= inject_Z (Z.of_nat fuel)).
  { rewrite <- Zle_Qle. lia. }
  assert (H3 : 2 * d / c * c == 2 * d) by (field; lra).
  assert (H4 : 2 * d / c * c <= inject_Z (Z.of_nat fuel) * c).
  { apply Qmult_le_compat_r; lra. }
  lra.
Qed.

(** With a clip length of at least the smallest double and a duration
    of at most (2^52 - 1) clip lengths the loop returns within
    [passBound] passes. *)
Lemma autoSplitLoop_total64 fuel :
  0 < d -> 2 ^ (-1074) <= Planner.duration ts ->
  d <= Planner.duration ts * inject_Z (2 ^ 52 - 1) ->
  (Planner64.passBound d ts <= fuel)%nat ->
  exists s n,
    autoSplitLoop (Finite d) ts fuel (mkLoop zero []) 0 = Some (s, n) /\
    (1 <= n <= Planner64.passBound d ts)%nat.
Proof.
  intros Hd Hc Hbig Hf.
  assert (Hc0 : 0 < Planner.duration ts) by (pose proof (pow2_pos (-1074)); lra).
  destruct (autoSplitLoop_rule64 ((1 # 2) * Planner.duration ts) (fun x => 0 <= x)
              Hc0 ltac:(lra) (fun x H => H)) with
    (fuel := Planner64.passBound d ts) (x := 0) (L := @nil interval) (k := 0%nat)
    as [s [n [H1 [H2 H3]]]].
  - intros x Hx Hlt.
    assert (Hp : x + (1 # 2) * Planner.duration ts
                 <= roundQ (x + Planner.duration ts)).
    { apply sum_progress; [exact Hx | exact Hc |].
      change (inject_Z (2 ^ 52)) with (4503599627370496 # 1).
      change (inject_Z (2 ^ 52 - 1)) with (4503599627370495 # 1) in Hbig. lra. }
    split; [lra | exact Hp].
  - apply Qle_refl.
  - apply passBound64_enough; [exact Hc0 | apply Nat.le_refl].
  - exists s, n. split.
    + apply (autoSplitLoop_more_fuel64 _ _ _ _ _ _ _ Hf). exact H1.
    + specialize (H3 Hd). lia.
Qed.

(** With a whole number of seconds as clip length and sums below 2^53
    every sum is exact, and [ceil(duration / clipDur)] passes suffice. *)
Lemma autoSplitLoop_exact64 fuel m :
  0 < d -> (0 < m)%Z -> Planner.duration ts == inject_Z m ->
  d + Planner.duration ts <= inject_Z (2 ^ 53) ->
  (Planner.passBound d ts <= fuel)%nat ->
  exists s n,
    autoSplitLoop (Finite d) ts fuel (mkLoop zero []) 0 = Some (s, n) /\
    (1 <= n <= Planner.passBound d ts)%nat.
Proof.
  intros Hd Hm Hcm Hbig Hf.
  assert (Hc0 : 0 < Planner.duration ts).
  { rewrite Hcm. change 0 with (inject_Z 0). rewrite <- Zlt_Qlt. exact Hm. }
  destruct (autoSplitLoop_rule64 (Planner.duration ts)
              (fun x => exists j, (0 <= j)%Z /\ x == inject_Z j) Hc0 Hc0) with
    (fuel := Planner.passBound d ts) (x := 0) (L := @nil interval) (k := 0%nat)
    as [s [n [H1 [H2 H3]]]].
  - intros x [j [Hj ->]]. change 0 with (inject_Z 0). rewrite <- Zle_Qle. exact Hj.
  - intros x [j [Hj Hx]] Hlt.
    assert (Hsum : x + Planner.duration ts == inject_Z (j + m) * 2 ^ 0).
    { rewrite Hx, Hcm, inject_Z_plus. change (2 ^ 0) with 1. ring. }
    assert (Hex : roundQ (x + Planner.duration ts) == x + Planner.duration ts).
    { apply (roundQ_exact _ (j + m) 0); [| lia | exact Hsum].
      split; [lia |]. rewrite Zlt_Qlt. rewrite inject_Z_plus, <- Hx, <- Hcm. lra. }
    split; [| lra].
    exists (j + m)%Z. split; [lia |].
    rewrite Hex, Hsum. change (2 ^ 0) with 1. ring.
  - exists 0%Z. split; [lia | reflexivity].
  - apply passBound_enough; [exact Hc0 | apply Nat.le_refl].
  - exists s, n. split.
    + apply (autoSplitLoop_more_fuel64 _ _ _ _ _ _ _ Hf). exact H1.
    + specialize (H3 Hd). lia.
Qed.

End Termination64.

(** * Termination and the discard policy *)

Section FixedLoop64.

Import Planner64.

(** With the default clip length and an infinite duration the cursor
    stays below 2^60, where adding 30 no longer changes it. *)
Lemma infinite_duration_body x L :
  0 <= x -> x <= inject_Z (2 ^ 60) ->
  exists r,
    0 <= r /\ r <= inject_Z (2 ^ 60) /\
    loopBody PosInfinity defaultTrim (mkLoop (Finite x) L)
    = Continue (mkLoop (Finite r) (L ++ [mkInterval (Finite x) (Finite r)])).
Proof.
  intros H0 H1. exists (roundQ (x + 30)).
  assert (Hr0 : 0 <= roundQ (x + 30)) by (apply roundQ_nonneg; lra).
  assert (Hr1 : roundQ (x + 30) <= inject_Z (2 ^ 60)).
  { assert (E : roundQ (inject_Z (2 ^ 60) + 30) == inject_Z (2 ^ 60))
      by (vm_compute; reflexivity).
    rewrite <- E. apply roundQ_mono; lra. }
  split; [exact Hr0 |]. split; [exact Hr1 |].
  assert (Hmax : inject_Z (2 ^ 60) < maxDouble) by reflexivity.
  assert (Hround : round (x + 30) = Finite (roundQ (x + 30))).
  { destruct (round_nonneg_cases (x + 30)) as [[E _] | [_ E]]; [lra | exact E |].
    lra. }
  unfold loopBody. cbn [current intervals Planner.duration defaultTrim add].
  rewrite Hround. reflexivity.
Qed.

Lemma infinite_duration_loops fuel :
  forall x L k, 0 <= x -> x <= inject_Z (2 ^ 60) ->
    autoSplitLoop PosInfinity defaultTrim fuel (mkLoop (Finite x) L) k = None.
Proof.
  induction fuel as [| fuel IH]; intros x L k H0 H1; [reflexivity |].
  destruct (infinite_duration_body x L H0 H1) as [r [Hr0 [Hr1 E]]].
  cbn [autoSplitLoop current ltb]. rewrite E. apply IH; assumption.
Qed.

(** C10, as stated, fails: a video element may report the duration
    +Infinity (a stream without a known length); with the default clip
    length of 30 seconds no number of passes ends the loop. *)
Lemma C10_counterexample :
  gtb PosInfinity zero = true /\ 0 < Planner.duration defaultTrim /\
  forall fuel, autoSplit PosInfinity defaultTrim fuel = None.
Proof.
  split; [reflexivity |]. split; [reflexivity |].
  intros fuel. unfold autoSplit, zero.
  rewrite (infinite_duration_loops fuel 0 [] 0); [reflexivity | lra |].
  apply Qle_bool_iff. reflexivity.
Qed.

(** Rounding can add a pass to ceil(duration / clip length): ten sums of
    0.1 stay below 1, so a clip of one second in pieces of a tenth of a
    second with threshold 0 takes eleven passes. *)
Example eleven_tenths :
  option_map snd
    (autoSplitLoop (Finite 1) (trimWith tenthQ "merge" 0) 20 (mkLoop zero []) 0)
  = Some 11%nat /\
  Planner.passBound 1 (trimWith tenthQ "merge" 0) = 10%nat.
Proof. split; vm_compute; reflexivity. Qed.

(** C10 (amended): for a finite duration d > 0 and a clip length c with
    2^-1074 <= c and d <= c * (2^52 - 1), in double arithmetic, the
    fixed-length loop ends after at least one and at most
    ceil(2 * d / c) passes; when c is a whole number and d + c <= 2^53
    every sum is exact and the loop ends after at most ceil(d / c)
    passes; and a pass that does not leave the loop moves the cursor
    forward by c / 2 at least, to a time before d. *)
Theorem C10_loop_terminates fuel d ts :
  0 < d -> 2 ^ (-1074) <= Planner.duration ts ->
  d <= Planner.duration ts * inject_Z (2 ^ 52 - 1) ->
  (passBound d ts <= fuel)%nat ->
  (exists s passes,
     autoSplitLoop (Finite d) ts fuel (mkLoop zero []) 0 = Some (s, passes) /\
     (1 <= passes <= passBound d ts)%nat /\
     (forall m, (0 < m)%Z -> Planner.duration ts == inject_Z m ->
                d + Planner.duration ts <= inject_Z (2 ^ 53) ->
                (passes <= Z.to_nat (Qceiling (d / Planner.duration ts)))%nat)) /\
  (forall x l s',
     0 <= x -> x < d ->
     loopBody (Finite d) ts (mkLoop (Finite x) l) = Continue s' ->
     exists y, current s' = Finite y /\
               x + (1 # 2) * Planner.duration ts <= y /\ y < d).
Proof.
  intros Hd Hc Hbig Hf.
  assert (Hc0 : 0 < Planner.duration ts)
    by (pose proof (pow2_pos (-1074)); lra).
  split.
  2: { intros x l s' Hx Hlt Hb.
       destruct (loopBody_continue64 d ts x l s' Hx Hc0 Hb) as [E Hy].
       exists (roundQ (x + Planner.duration ts)).
       split; [exact E |]. split; [| exact Hy].
       apply sum_progress; [exact Hx | exact Hc |].
       change (inject_Z (2 ^ 52)) with (4503599627370496 # 1).
       change (inject_Z (2 ^ 52 - 1)) with (4503599627370495 # 1) in Hbig. lra. }
  destruct (autoSplitLoop_total64 d ts fuel Hd Hc Hbig Hf) as [s [n [H1 H2]]].
  exists s, n. split; [exact H1 |]. split; [exact H2 |].
  intros m Hm Em Hsum.
  destruct (autoSplitLoop_exact64 d ts (Planner.passBound d ts) m Hd Hm Em Hsum
              (Nat.le_refl _)) as [s2 [n2 [H3 H4]]].
  pose proof (autoSplitLoop_more_fuel64 (Finite d) ts fuel
                (Nat.max fuel (Planner.passBound d ts)) _ _ _
                (Nat.le_max_l _ _) H1) as E1.
  pose proof (autoSplitLoop_more_fuel64 (Finite d) ts (Planner.passBound d ts)
                (Nat.max fuel (Planner.passBound d ts)) _ _ _
                (Nat.le_max_r _ _) H3) as E2.
  rewrite E1 in E2. injection E2 as _ En. subst n2.
  unfold Planner.passBound in H4. lia.
Qed.

Lemma C10_loop_terminates_witness :
  exists s passes,
    autoSplitLoop (Finite 95) defaultTrim 7 (mkLoop zero []) 0 = Some (s, passes) /\
    (1 <= passes <= 7)%nat /\ (passes <= 4)%nat.
Proof.
  destruct (C10_loop_terminates 7 95 defaultTrim) as [[s [n [H1 [H2 H3]]]] _].
  - reflexivity.
  - apply Qle_bool_iff. vm_compute. reflexivity.
  - apply Qle_bool_iff. vm_compute. reflexivity.
  - vm_compute. lia.
  - exists s, n. split; [exact H1 |]. split; [exact H2 |].
    apply (H3 30%Z); [reflexivity | reflexivity |].
    apply Qle_bool_iff. vm_compute. reflexivity.
Defined.

(** In double arithmetic the plan of 93 seconds in clips of 30 with
    threshold 5 and the discard policy is [0,30], [30,60], [60,90]. *)
Example discard_drops_tail :
  option_map canonical (planIntervals 4 (Finite 93) [] (trimWith 30 "discard" 5))
  = Some [mkInterval (Finite 0) (Finite 30); mkInterval (Finite 30) (Finite 60);
          mkInterval (Finite 60) (Finite 90)].
Proof. vm_compute. reflexivity. Qed.



End FixedLoop64.

(** * The marker loop in double arithmetic *)

Section Markers64.

Import Planner64.

Lemma insert_finite x l :
  insert (Finite x) (map Finite l) = map Finite (Planner.insert x l).
Proof.
  induction l as [| y l IH]; [reflexivity |].
  cbn [map insert Planner.insert leb]. destruct (Qle_bool x y); [reflexivity |].
  cbn [map]. rewrite IH. reflexivity.
Qed.

Lemma sort_finite l : sort (map Finite l) = map Finite (Planner.sort l).
Proof.
  induction l as [| x l IH]; [reflexivity |].
  change (insert (Finite x) (sort (map Finite l))
          = map Finite (Planner.insert x (Planner.sort l))).
  rewrite IH. apply insert_finite.
Qed.

Lemma splitByMarkers_finite d ms :
  splitByMarkers (Finite d) (map Finite ms)
  = markerLoop (map Finite (Planner.sort (ms ++ [d]))) (Finite 0) [].
Proof.
  unfold splitByMarkers. rewrite <- sort_finite, map_app. reflexivity.
Qed.

Lemma markerLoop_acc64 bs : forall prev acc,
  markerLoop bs prev acc = acc ++ markerLoop bs prev [].
Proof.
  induction bs as [| b r IH]; intros prev acc; cbn [markerLoop].
  - rewrite app_nil_r. reflexivity.
  - destruct (guard prev b); [| apply IH].
    rewrite (IH b (acc ++ [mkInterval prev b])), (IH b ([] ++ [mkInterval prev b])).
    rewrite <- app_assoc. reflexivity.
Qed.

Lemma slack_nonneg d : 0 <= d -> 0 <= slack d.
Proof.
  intros H. unfold slack. apply Qmult_le_0_compat; [lra |].
  apply Qlt_le_weak, pow2_pos.
Qed.

(** The rounded sum [lastTime + 0.1] lies within the slack of the exact
    one. *)
Lemma tenth_sum_bounds a d :
  0 <= a -> a <= d ->
  a + (1 # 10) - slack d <= roundQ (a + tenthQ) /\
  roundQ (a + tenthQ) <= a + (1 # 10) + slack d.
Proof.
  intros H0 H1.
  assert (Ht : tenthQ == (1 # 10) + (1 # 180143985094819840)) by reflexivity.
  assert (Hn : 2 ^ (-1022) <= tenthQ)
    by (apply Qle_bool_iff; vm_compute; reflexivity).
  assert (Hz : 2 ^ (-1022) <= a + tenthQ) by lra.
  assert (Hp : 0 < a + tenthQ) by lra.
  destruct (roundQ_error _ Hp) as [E1 E2].
  pose proof (ulp_normal _ Hz) as U.
  unfold slack.
  change (2 ^ (-52)) with (1 # 4503599627370496) in *.
  split; lra.
Qed.

Lemma guard_true a b d :
  0 <= a -> a <= d -> b <= maxDouble -> a + (1 # 10) + slack d < b ->
  guard (Finite a) (Finite b) = true.
Proof.
  intros H0 H1 Hb Hgap. destruct (tenth_sum_bounds a d H0 H1) as [_ Hup].
  assert (Ht : 0 < tenthQ) by reflexivity.
  unfold guard, gtb, tenth. cbn [add].
  destruct (round_nonneg_cases (a + tenthQ)) as [[-> _] | [-> Hr]]; [lra | |].
  - cbn [ltb]. apply Qltb_lt. lra.
  - exfalso. lra.
Qed.

Lemma guard_false a b d :
  0 <= a -> a <= d -> b < a + (1 # 10) - slack d ->
  guard (Finite a) (Finite b) = false.
Proof.
  intros H0 H1 Hgap. destruct (tenth_sum_bounds a d H0 H1) as [Hlow _].
  assert (Ht : 0 < tenthQ) by reflexivity.
  unfold guard, gtb, tenth. cbn [add].
  destruct (round_nonneg_cases (a + tenthQ)) as [[-> _] | [-> Hr]]; [lra | |].
  - cbn [ltb]. apply Qltb_ge. lra.
  - reflexivity.
Qed.

Lemma guard_false_gap a b d :
  0 <= a -> a <= d -> b <= maxDouble ->
  guard (Finite a) (Finite b) = false -> b <= a + (1 # 10) + slack d.
Proof.
  intros H0 H1 Hb. destruct (tenth_sum_bounds a d H0 H1) as [_ Hup].
  assert (Ht : 0 < tenthQ) by reflexivity.
  unfold guard, gtb, tenth. cbn [add].
  destruct (round_nonneg_cases (a + tenthQ)) as [[-> _] | [-> Hr]]; [lra | |].
  - cbn [ltb]. intros H. apply Qltb_ge in H. lra.
  - intros _. lra.
Qed.

(** The marker loop on finite boundaries in ascending order. *)
Lemma markerLoop_finite bs : forall prev,
  ascending prev bs ->
  exists l : list Planner.interval,
    markerLoop (map Finite bs) (Finite prev) [] = map fromQ l /\
    (l = [] <-> allClose prev bs) /\
    (noSliver prev bs -> chain prev l (last bs prev)) /\
    (chain prev l (last bs prev) -> noSliver prev bs) /\
    (forall iv l', l = iv :: l' -> prev <= Planner.start iv) /\
    List.length l
    = List.length (filter (fun p => guard (Finite (fst p)) (Finite (snd p)))
                          (combine (prev :: bs) bs)).
Proof.
  induction bs as [| b r IH]; intros prev Ha.
  - exists []. split; [reflexivity |]. split; [split; [intros _; exact I | reflexivity] |].
    split; [intros _; cbn; reflexivity |]. split; [intros _; exact I |].
    split; [intros iv l' H; discriminate | reflexivity].
  - destruct Ha as [Hpb Ha].
    destruct (IH b Ha) as [l' [E [Hemp [Hch [Hcv [Hhd Hlen]]]]]].
    pose proof (ascending_last b r Ha) as Hlast.
    rewrite last_cons_default.
    cbn [map markerLoop combine filter fst snd noSliver allClose].
    destruct (guard (Finite prev) (Finite b)) eqn:G.
    + exists (Planner.mkInterval prev b :: l').
      split; [rewrite markerLoop_acc64, E; reflexivity |].
      split; [split; [discriminate | intros [H _]; discriminate] |].
      split; [intros [_ Hn]; cbn [chain Planner.start Planner.end_];
              split; [reflexivity | apply Hch; exact Hn] |].
      split; [intros [_ H]; split; [right; reflexivity | apply Hcv; exact H] |].
      split; [intros iv l'' H; injection H as <- _; apply Qle_refl |].
      cbn [List.length]. rewrite Hlen. reflexivity.
    + exists l'. split; [exact E |].
      split; [split; [intros H; split; [reflexivity | apply Hemp; exact H]
                     | intros [_ H]; apply Hemp; exact H] |].
      split.
      { intros [[Hle | Hg] Hn]; [| discriminate].
        apply (chain_start_eq b prev); [apply Qle_antisym; assumption |].
        apply Hch. exact Hn. }
      split.
      { intros H.
        assert (Hbp : b <= prev).
        { destruct l' as [| iv l'']; cbn [chain] in H.
          - lra.
          - destruct H as [H _]. specialize (Hhd iv l'' eq_refl). lra. }
        split; [left; exact Hbp |]. apply Hcv.
        apply (chain_start_eq prev b); [apply Qle_antisym; assumption | exact H]. }
      split; [| exact Hlen].
      intros iv l'' H. specialize (Hhd iv l'' H). lra.
Qed.

(** The two statements of the sequence invariant agree on finite
    intervals. *)
Lemma invariant_fromQ d l :
  sequenceInvariant (Finite d) (map fromQ l) <-> Planner.sequenceInvariant d l.
Proof.
  unfold sequenceInvariant, Planner.sequenceInvariant. rewrite length_map. split.
  - intros [[iv [H1 H2]] [Hc [iv' [H3 H4]]]].
    rewrite nth_error_map in H1, H3.
    destruct (nth_error l 0) as [iv0 |] eqn:E0; [| discriminate].
    destruct (nth_error l (pred (List.length l))) as [iv1 |] eqn:E1; [| discriminate].
    cbn [option_map] in H1, H3. injection H1 as <-. injection H3 as <-.
    split; [exists iv0; split; [reflexivity | exact H2] |].
    split; [| exists iv1; split; [reflexivity | exact H4]].
    intros i a b Ha Hb.
    apply (Hc i (fromQ a) (fromQ b)); rewrite nth_error_map;
      [rewrite Ha | rewrite Hb]; reflexivity.
  - intros [[iv [H1 H2]] [Hc [iv' [H3 H4]]]].
    split; [exists (fromQ iv); split;
            [rewrite nth_error_map, H1; reflexivity | exact H2] |].
    split; [| exists (fromQ iv'); split;
              [rewrite nth_error_map, H3; reflexivity | exact H4]].
    intros i a b Ha Hb. rewrite nth_error_map in Ha, Hb.
    destruct (nth_error l i) as [a0 |] eqn:Ea; [| discriminate].
    destruct (nth_error l (S i)) as [b0 |] eqn:Eb; [| discriminate].
    cbn [option_map] in Ha, Hb. injection Ha as <-. injection Hb as <-.
    exact (Hc i a0 b0 Ea Eb).
Qed.

Section Boundaries.

Variable d : Q.
Hypothesis Hmax : d <= maxDouble.

Lemma clearGaps_noSliver bs : forall prev,
  0 <= prev -> prev <= d -> ascending prev bs -> Forall (fun b => b <= d) bs ->
  clearGaps (slack d) prev bs -> noSliver prev bs.
Proof.
  induction bs as [| b r IH]; intros prev H0 H1 Ha Hr Hg; [exact I |].
  destruct Ha as [Hpb Ha]. destruct Hg as [Hb Hg].
  inversion Hr as [| ? ? Hbd Hr']; subst.
  split; [| apply IH; [lra | exact Hbd | exact Ha | exact Hr' | exact Hg]].
  destruct Hb as [Hb | Hb]; [left; exact Hb | right].
  apply (guard_true prev b d); [exact H0 | exact H1 | lra | exact Hb].
Qed.

Lemma wideGaps_count bs : forall prev,
  0 <= prev -> prev <= d -> Forall (fun b => b <= d) bs ->
  wideGaps (slack d) prev bs ->
  List.length (filter (fun p => guard (Finite (fst p)) (Finite (snd p)))
                      (combine (prev :: bs) bs))
  = List.length bs.
Proof.
  induction bs as [| b r IH]; intros prev H0 H1 Hr Hg; [reflexivity |].
  destruct Hg as [Hb Hg]. inversion Hr as [| ? ? Hbd Hr']; subst.
  pose proof (slack_nonneg d (Qle_trans _ _ _ H0 H1)) as Hs.
  change (combine (prev :: b :: r) (b :: r)) with ((prev, b) :: combine (b :: r) r).
  cbn [filter fst snd].
  rewrite (guard_true prev b d H0 H1); [| lra | exact Hb].
  cbn [List.length]. rewrite IH; [reflexivity | lra | exact Hbd | exact Hr' | exact Hg].
Qed.

Lemma noBand_count bs : forall prev,
  0 <= prev -> prev <= d -> ascending prev bs -> Forall (fun b => b <= d) bs ->
  noBand (slack d) prev bs ->
  filter (fun p => guard (Finite (fst p)) (Finite (snd p))) (combine (prev :: bs) bs)
  = filter (fun p => Qltb (fst p + (1 # 10)) (snd p)) (combine (prev :: bs) bs).
Proof.
  induction bs as [| b r IH]; intros prev H0 H1 Ha Hr Hg; [reflexivity |].
  destruct Ha as [Hpb Ha]. destruct Hg as [Hb Hg].
  inversion Hr as [| ? ? Hbd Hr']; subst.
  pose proof (slack_nonneg d (Qle_trans _ _ _ H0 H1)) as Hs.
  change (combine (prev :: b :: r) (b :: r)) with ((prev, b) :: combine (b :: r) r).
  cbn [filter fst snd].
  rewrite (IH b); [| lra | exact Hbd | exact Ha | exact Hr' | exact Hg].
  destruct Hb as [Hb | Hb].
  - rewrite (guard_false prev b d H0 H1 Hb).
    assert (E : Qltb (prev + (1 # 10)) b = false) by (apply Qltb_ge; lra).
    rewrite E. reflexivity.
  - rewrite (guard_true prev b d H0 H1); [| lra | exact Hb].
    assert (E : Qltb (prev + (1 # 10)) b = true) by (apply Qltb_lt; lra).
    rewrite E. reflexivity.
Qed.

Lemma allClose_bound64 bs : forall prev,
  0 <= prev -> prev <= d -> ascending prev bs -> Forall (fun b => b <= d) bs ->
  allClose prev bs ->
  last bs prev
  <= prev + ((1 # 10) + slack d) * inject_Z (Z.of_nat (List.length bs)).
Proof.
  induction bs as [| b r IH]; intros prev H0 H1 Ha Hr Hc.
  - cbn [last List.length]. change (inject_Z (Z.of_nat 0)) with 0. lra.
  - rewrite last_cons_default. destruct Ha as [Hpb Ha]. destruct Hc as [Hb Hc].
    inversion Hr as [| ? ? Hbd Hr']; subst.
    assert (H0b : 0 <= b) by lra.
    specialize (IH b H0b Hbd Ha Hr' Hc).
    pose proof (guard_false_gap prev b d H0 H1 (Qle_trans _ _ _ Hbd Hmax) Hb) as Hgap.
    change (List.length (b :: r)) with (S (List.length r)).
    rewrite fuel_succ_Q. lra.
Qed.

Lemma allClose_small bs : forall prev,
  0 <= prev -> prev <= d -> ascending prev bs -> Forall (fun b => b <= d) bs ->
  d < (1 # 10) - slack d -> allClose prev bs.
Proof.
  induction bs as [| b r IH]; intros prev H0 H1 Ha Hr Hd; [exact I |].
  destruct Ha as [Hpb Ha]. inversion Hr as [| ? ? Hbd Hr']; subst.
  split; [apply (guard_false prev b d H0 H1); lra |].
  apply IH; [lra | exact Hbd | exact Ha | exact Hr' | exact Hd].
Qed.

Lemma gapsBelow_allClose bs : forall prev,
  0 <= prev -> prev <= d -> ascending prev bs -> Forall (fun b => b <= d) bs ->
  gapsBelow ((1 # 10) - slack d) prev bs -> allClose prev bs.
Proof.
  induction bs as [| b r IH]; intros prev H0 H1 Ha Hr Hg; [exact I |].
  destruct Ha as [Hpb Ha]. destruct Hg as [Hb Hg].
  inversion Hr as [| ? ? Hbd Hr']; subst.
  split; [apply (guard_false prev b d H0 H1); lra |].
  apply IH; [lra | exact Hbd | exact Ha | exact Hr' | exact Hg].
Qed.

Lemma allClose_gapsWithin bs : forall prev,
  0 <= prev -> prev <= d -> ascending prev bs -> Forall (fun b => b <= d) bs ->
  allClose prev bs -> gapsWithin ((1 # 10) + slack d) prev bs.
Proof.
  induction bs as [| b r IH]; intros prev H0 H1 Ha Hr Hc; [exact I |].
  destruct Ha as [Hpb Ha]. destruct Hc as [Hb Hc].
  inversion Hr as [| ? ? Hbd Hr']; subst.
  split; [| apply IH; [lra | exact Hbd | exact Ha | exact Hr' | exact Hc]].
  pose proof (guard_false_gap prev b d H0 H1 (Qle_trans _ _ _ Hbd Hmax) Hb). lra.
Qed.

End Boundaries.

End Markers64.

(** * The planned sequence in double arithmetic *)

Section Sequence64.

Import Planner64.

Lemma linked_nth a l b :
  linked a l b ->
  forall i x y, nth_error l i = Some x -> nth_error l (S i) = Some y ->
                end_ x = start y.
Proof.
  revert a. induction l as [| iv l IH]; intros a H i x y Hx Hy;
    [destruct i; discriminate |].
  destruct H as [_ H2]. destruct i as [| i].
  - cbn in Hx. injection Hx as <-. destruct l as [| iv2 l2]; [discriminate |].
    cbn in Hy. injection Hy as <-. destruct H2 as [H2 _]. symmetry. exact H2.
  - exact (IH _ H2 i x y Hx Hy).
Qed.

Lemma linked_last a l b :
  linked a l b -> l <> [] ->
  exists iv, nth_error l (pred (List.length l)) = Some iv /\ end_ iv = b.
Proof.
  revert a. induction l as [| iv l IH]; intros a H Hne; [congruence |].
  destruct H as [_ H2]. destruct l as [| iv2 l2].
  - exists iv. split; [reflexivity | exact H2].
  - destruct (IH _ H2) as [iv' [E1 E2]]; [discriminate |].
    exists iv'. split; [exact E1 | exact E2].
Qed.

Lemma linked_invariant64 d l e :
  l <> [] -> linked zero l e -> sameValue e d -> sequenceInvariant d l.
Proof.
  intros Hne H Hs. split; [| split].
  - destruct l as [| iv l]; [congruence |]. exists iv.
    split; [reflexivity |]. destruct H as [H _]. rewrite H. apply sameValue_refl.
  - intros i x y Hx Hy. rewrite (linked_nth _ _ _ H i x y Hx Hy).
    apply sameValue_refl.
  - destruct (linked_last _ _ _ H Hne) as [iv [E1 E2]]. exists iv.
    split; [exact E1 |]. rewrite E2. exact Hs.
Qed.

Lemma planIntervals_markers64 fuel d markers ts :
  markers <> [] ->
  planIntervals fuel (Finite d) (map Finite markers) ts
  = Some (splitByMarkers (Finite d) (map Finite markers)).
Proof. destruct markers; [congruence | reflexivity]. Qed.

Lemma boundaries_le d ms :
  validMarkers d ms -> Forall (fun b => b <= d) (Planner.sort (ms ++ [d])).
Proof.
  intros Hv. apply Forall_forall. intros b Hb. apply sort_In in Hb.
  apply in_app_or in Hb. destruct Hb as [Hb | [<- | []]]; [| apply Qle_refl].
  unfold validMarkers in Hv. rewrite Forall_forall in Hv.
  destruct (Hv b Hb) as [_ H]. exact H.
Qed.

(** The plan in marker mode, for a finite duration and finite markers. *)
Lemma splitByMarkers_spec64 d ms :
  0 <= d -> validMarkers d ms ->
  exists l : list Planner.interval,
    splitByMarkers (Finite d) (map Finite ms) = map fromQ l /\
    (l = [] <-> allClose 0 (Planner.sort (ms ++ [d]))) /\
    (noSliver 0 (Planner.sort (ms ++ [d])) -> chain 0 l d) /\
    (chain 0 l d -> noSliver 0 (Planner.sort (ms ++ [d]))) /\
    List.length l
    = List.length
        (filter (fun p => guard (Finite (fst p)) (Finite (snd p)))
                (combine (0 :: Planner.sort (ms ++ [d])) (Planner.sort (ms ++ [d])))).
Proof.
  intros Hd Hv.
  assert (Hasc : ascending 0 (Planner.sort (ms ++ [d]))).
  { apply sort_ascending. apply validMarkers_boundaries; assumption. }
  destruct (markerLoop_finite _ 0 Hasc) as [l [E [H1 [H2 [H3 [_ H4]]]]]].
  rewrite (splitByMarkers_last d ms Hv) in H2, H3.
  exists l. rewrite splitByMarkers_finite.
  split; [exact E |]. split; [exact H1 |]. split; [exact H2 |].
  split; [exact H3 | exact H4].
Qed.

(** In marker mode the invariant holds exactly when every boundary
    that lies after its predecessor passes the test of the loop. *)
Lemma splitByMarkers_invariant64 d ms :
  0 < d -> validMarkers d ms ->
  (sequenceInvariant (Finite d) (splitByMarkers (Finite d) (map Finite ms))
   <-> noSliver 0 (Planner.sort (ms ++ [d]))).
Proof.
  intros Hd Hv.
  destruct (splitByMarkers_spec64 d ms (Qlt_le_weak _ _ Hd) Hv)
    as [l [-> [_ [H2 [H3 _]]]]].
  rewrite invariant_fromQ. split.
  - intros H. apply H3. apply invariant_chain. exact H.
  - intros H. specialize (H2 H). apply chain_invariant; [| exact H2].
    intros ->. cbn [chain] in H2. lra.
Qed.

(** C1, as stated, fails in marker mode: with the single marker 0.05 (the
    double nearest to it) in a clip of 20 seconds the first interval
    starts at that marker. *)
Lemma C1_marker_counterexample :
  0 < 20 /\
  roundQ (3602879701896397 # 72057594037927936)
  == 3602879701896397 # 72057594037927936 /\
  validMarkers 20 [3602879701896397 # 72057594037927936] /\
  exists plan,
    planIntervals 0 (Finite 20) [Finite (3602879701896397 # 72057594037927936)]
      defaultTrim = Some plan /\
    ~ sequenceInvariant (Finite 20) plan.
Proof.
  split; [reflexivity |]. split; [vm_compute; reflexivity |]. split.
  - constructor; [split; discriminate | constructor].
  - eexists. split; [vm_compute; reflexivity |].
    intros [[iv [H1 H2]] _]. cbn in H1. injection H1 as <-.
    vm_compute in H2. discriminate.
Qed.

(** The rounded sum decides: the double 1.1 is the rounded sum of 1 and
    0.1, so a marker there is not more than [lastTime + 0.1] after a
    marker at 1 and the plan has a gap, although 1.1 as a double exceeds
    1 + 1/10. *)
Example rounded_sum_skips_marker :
  option_map canonical
    (planIntervals 0 (Finite 20)
       [Finite 1; Finite (2476979795053773 # 2251799813685248)] defaultTrim)
  = Some [mkInterval (Finite 0) (Finite 1);
          mkInterval (Finite (2476979795053773 # 2251799813685248)) (Finite 20)] /\
  1 + (1 # 10) < 2476979795053773 # 2251799813685248.
Proof. split; [vm_compute; reflexivity | reflexivity]. Qed.

(** The test is strict: a marker at the double 0.1 is not more than
    0 + 0.1 after 0. *)
Example marker_at_a_tenth :
  option_map canonical (planIntervals 0 (Finite 20) [tenth] defaultTrim)
  = Some [mkInterval tenth (Finite 20)].
Proof. vm_compute. reflexivity. Qed.

(** C1 (amended): for every finite duration d > 0, in double arithmetic,
    the planned sequence starts at 0, has no gap and ends at d: in
    fixed-interval merge mode (no markers, autoFit = merge, a clip length
    c with 2^-1074 <= c and d <= c * (2^52 - 1), the loop given
    ceil(2 * d / c) passes), and in marker mode (markers in [0, d]),
    provided that no boundary of the sorted list markers + duration lies a
    positive distance of at most 0.1 + (d + 1) * 2^-52 after its
    predecessor (0 for the first). *)
Theorem C1_sequence_invariant fuel d markers ts :
  0 < d -> d <= maxDouble ->
  (markers <> [] /\ validMarkers d markers /\
     clearGaps (slack d) 0 (Planner.sort (markers ++ [d])))
  \/ (markers = [] /\ 2 ^ (-1074) <= Planner.duration ts /\
      d <= Planner.duration ts * inject_Z (2 ^ 52 - 1) /\
      Planner.autoFit ts = "merge"%string /\ (passBound d ts <= fuel)%nat) ->
  exists plan,
    planIntervals fuel (Finite d) (map Finite markers) ts = Some plan /\
    sequenceInvariant (Finite d) plan.
Proof.
  intros Hd Hmax [[Hne [Hv Hg]] | [-> [Hc [Hbig [Hm Hf]]]]].
  - exists (splitByMarkers (Finite d) (map Finite markers)).
    split; [apply planIntervals_markers64; exact Hne |].
    apply splitByMarkers_invariant64; [exact Hd | exact Hv |].
    apply (clearGaps_noSliver d Hmax);
      [apply Qle_refl | lra | | apply boundaries_le; exact Hv | exact Hg].
    apply sort_ascending. apply validMarkers_boundaries; [lra | exact Hv].
  - destruct (autoSplitLoop_total64 d ts fuel Hd Hc Hbig Hf) as [s [n [H1 _]]].
    assert (Hplan : autoSplit (Finite d) ts fuel = Some (intervals s))
      by (unfold autoSplit; rewrite H1; reflexivity).
    exists (intervals s). split; [exact Hplan |].
    assert (Hpos : gtb (Finite d) zero = true) by (apply Qltb_lt; exact Hd).
    destruct (autoSplit_post64 (Finite d) ts fuel _ Hpos Hplan) as [s' [E Hpost]].
    rewrite E. destruct Hpost as [l [final [Hl [Hch [_ [Hmerge _]]]]]].
    apply (linked_invariant64 _ _ (end_ final)); [| exact Hch |].
    + rewrite Hl. intros H. destruct (app_eq_nil _ _ H) as [_ H']. discriminate.
    + apply Hmerge. rewrite Hm. discriminate.
Qed.

Lemma C1_sequence_invariant_witness :
  (exists plan,
     planIntervals 0 (Finite 95) (map Finite [30; 60]) defaultTrim = Some plan /\
     sequenceInvariant (Finite 95) plan)
  /\ (exists plan,
        planIntervals 5 (Finite 65) (map Finite []) (trimWith 30 "merge" 6)
        = Some plan /\
        sequenceInvariant (Finite 65) plan).
Proof.
  split.
  - apply C1_sequence_invariant;
      [reflexivity | apply Qle_bool_iff; vm_compute; reflexivity |].
    left. split; [discriminate |]. split.
    + repeat constructor; discriminate.
    + change (Planner.sort ([30; 60] ++ [95])) with [30; 60; 95].
      cbn [clearGaps].
      repeat split; right; apply Qltb_lt; vm_compute; reflexivity.
  - apply C1_sequence_invariant;
      [reflexivity | apply Qle_bool_iff; vm_compute; reflexivity |].
    right. split; [reflexivity |].
    split; [apply Qle_bool_iff; vm_compute; reflexivity |].
    split; [apply Qle_bool_iff; vm_compute; reflexivity |].
    split; [reflexivity | vm_compute; lia].
Defined.

(** C6, as stated, fails: one marker at 30 in a clip of 95 seconds gives
    two intervals. *)
Lemma C6_counterexample :
  [30] <> [] /\ validMarkers 95 [30] /\ 0 < 95 /\
  exists plan,
    planIntervals 0 (Finite 95) (map Finite [30]) defaultTrim = Some plan /\
    List.length plan <> collapsedMarkerCount [30].
Proof.
  split; [discriminate |]. split; [repeat constructor; discriminate |].
  split; [reflexivity |].
  eexists. split; [vm_compute; reflexivity |]. vm_compute. discriminate.
Qed.

(** C6 (amended): for every non-empty marker set with all markers in
    [0, d], d finite, in double arithmetic, the plan has at most as many
    intervals as there are boundaries (the markers and the duration); it
    has exactly that many when every boundary of the sorted list markers +
    duration lies more than 0.1 + (d + 1) * 2^-52 after its predecessor (0
    for the first); and when no distance between a boundary and its
    predecessor lies within (d + 1) * 2^-52 of 0.1, the number of intervals
    is the number of boundaries that lie more than 0.1 after their
    predecessor. *)
Theorem C6_interval_count fuel d markers ts :
  markers <> [] -> validMarkers d markers -> d <= maxDouble ->
  exists plan,
    planIntervals fuel (Finite d) (map Finite markers) ts = Some plan /\
    (List.length plan <= List.length markers + 1)%nat /\
    (wideGaps (slack d) 0 (Planner.sort (markers ++ [d])) ->
     List.length plan = (List.length markers + 1)%nat) /\
    (noBand (slack d) 0 (Planner.sort (markers ++ [d])) ->
     List.length plan = distantBoundaries (Planner.sort (markers ++ [d]))).
Proof.
  intros Hne Hv Hmax.
  assert (Hd : 0 <= d).
  { destruct markers as [| m ms]; [congruence |].
    inversion Hv as [| x l [Hx1 Hx2] _]. lra. }
  exists (splitByMarkers (Finite d) (map Finite markers)).
  split; [apply planIntervals_markers64; exact Hne |].
  destruct (splitByMarkers_spec64 d markers Hd Hv) as [l [-> [_ [_ [_ Hlen]]]]].
  rewrite length_map, Hlen.
  assert (Hn : List.length (Planner.sort (markers ++ [d]))
               = (List.length markers + 1)%nat).
  { rewrite sort_length, length_app. reflexivity. }
  pose proof (boundaries_le d markers Hv) as Hle.
  assert (Hasc : ascending 0 (Planner.sort (markers ++ [d]))).
  { apply sort_ascending. apply validMarkers_boundaries; assumption. }
  split; [| split].
  - rewrite <- Hn. eapply Nat.le_trans; [apply filter_length_le |].
    rewrite length_combine. cbn [List.length]. lia.
  - intros Hw. rewrite <- Hn.
    apply (wideGaps_count d Hmax); [apply Qle_refl | exact Hd | exact Hle | exact Hw].
  - intros Hb. unfold distantBoundaries.
    rewrite (noBand_count d Hmax);
      [reflexivity | apply Qle_refl | exact Hd | exact Hasc | exact Hle | exact Hb].
Qed.

Lemma C6_interval_count_witness :
  exists plan,
    planIntervals 0 (Finite 95) (map Finite [30; 95]) defaultTrim = Some plan /\
    (List.length plan <= 3)%nat /\ List.length plan = 2%nat.
Proof.
  destruct (C6_interval_count 0 95 [30; 95] defaultTrim) as [plan [Hp [H1 [_ H3]]]].
  - discriminate.
  - repeat constructor; discriminate.
  - apply Qle_bool_iff. vm_compute. reflexivity.
  - exists plan. split; [exact Hp |]. split; [exact H1 |].
    apply H3. change (Planner.sort ([30; 95] ++ [95])) with [30; 95; 95].
    cbn [noBand]. split; [right; apply Qltb_lt; vm_compute; reflexivity |].
    split; [right; apply Qltb_lt; vm_compute; reflexivity |].
    split; [left; apply Qltb_lt; vm_compute; reflexivity | exact I].
Defined.

End Sequence64.

(** * The empty plan *)

Section EmptyPlan64.

Import Planner64.

Context {data : Type} {engineState : Type}.
Variable writeFile : string -> data -> engineState -> outcome unit * engineState.
Variable exec : list string -> engineState -> outcome unit * engineState.
Variable readFile : string -> engineState -> outcome data * engineState.

Variable file : videoFile (data := data).
Variable ts : trimSettings.
Variable ps : premiumSettings.
Variable u : user.

(** Without markers a duration that is not positive gives no interval,
    whatever the number of passes allowed. *)
Lemma autoSplit_nonpositive64 fuel d :
  d <= 0 -> autoSplit (Finite d) ts fuel = Some [].
Proof.
  intros Hd. unfold autoSplit.
  assert (E : ltb (current (mkLoop zero [])) (Finite d) = false)
    by (apply Qltb_ge; exact Hd).
  destruct fuel; cbn [autoSplitLoop]; rewrite E; reflexivity.
Qed.

(** Every plan of the fixed-length loop for a positive duration has an
    interval. *)
Lemma autoSplit_nonempty64 fuel d plan :
  gtb d zero = true -> autoSplit d ts fuel = Some plan -> plan <> [].
Proof.
  intros Hd H. destruct (autoSplit_post64 d ts fuel plan Hd H) as [s [-> Hpost]].
  destruct Hpost as [l [final [Hl _]]]. rewrite Hl.
  intros E. destruct (app_eq_nil _ _ E) as [_ E']. discriminate.
Qed.

(** C8 (amended): on valid input (a finite duration d, markers in [0, d];
    without markers and with d > 0 a clip length c with 2^-1074 <= c and
    d <= c * (2^52 - 1) and the loop given ceil(2 * d / c) passes), in
    double arithmetic, the planner returns a sequence that is empty when
    d <= 0, non-empty in fixed-interval mode whenever d > 0, and in marker
    mode empty exactly when no boundary of the sorted list markers +
    duration passes the test m > lastTime + 0.1 against its predecessor:
    empty when every boundary lies less than 0.1 - (d + 1) * 2^-52 after
    its predecessor, with every boundary at most 0.1 + (d + 1) * 2^-52
    after its predecessor when it is empty, hence non-empty whenever d
    exceeds 0.1 + (d + 1) * 2^-52 times the number of boundaries; a job
    with an empty sequence never invokes the engine's exec and, once the
    input file is written, reports the error that no clip can be made. *)
Theorem C8_empty_plan fuel d markers (st : appState) :
  validMarkers d markers -> d <= maxDouble ->
  (markers = [] -> 0 < d ->
   2 ^ (-1074) <= Planner.duration ts /\
   d <= Planner.duration ts * inject_Z (2 ^ 52 - 1) /\
   (passBound d ts <= fuel)%nat) ->
  exists plan,
    planIntervals fuel (Finite d) (map Finite markers) ts = Some plan /\
    (d <= 0 -> plan = []) /\
    (0 < d -> markers = [] -> plan <> []) /\
    (markers <> [] ->
     (plan = [] <-> allClose 0 (Planner.sort (markers ++ [d]))) /\
     (gapsBelow ((1 # 10) - slack d) 0 (Planner.sort (markers ++ [d])) ->
      plan = []) /\
     (plan = [] ->
      gapsWithin ((1 # 10) + slack d) 0 (Planner.sort (markers ++ [d]))) /\
     (((1 # 10) + slack d) * inject_Z (Z.of_nat (List.length markers + 1)) < d ->
      plan <> [])) /\
    (plan = [] ->
     exists st',
       runJob writeFile exec readFile file ts ps u [] st = (Returned tt, st') /\
       execLog st' = execLog st /\
       clips st' = [] /\
       (forall e, writeFile (inputName file) (contents file) (engine st)
                  = (Returned tt, e) ->
                  appMessage st'
                  = mkMessage "Tidak ada klip yang dapat dibuat." error)).
Proof.
  intros Hv Hmax Hfixed.
  assert (Hjob : exists st',
       runJob writeFile exec readFile file ts ps u [] st = (Returned tt, st') /\
       execLog st' = execLog st /\
       clips st' = [] /\
       (forall e, writeFile (inputName file) (contents file) (engine st)
                  = (Returned tt, e) ->
                  appMessage st'
                  = mkMessage "Tidak ada klip yang dapat dibuat." error)).
  { destruct (runJob_no_intervals writeFile exec readFile file ts ps u st)
      as [st' [Hr [Ha [Hb [_ Hc]]]]].
    exists st'. split; [exact Hr |]. split; [exact Ha |]. split; [exact Hb | exact Hc]. }
  destruct markers as [| m ms].
  - destruct (Qlt_le_dec 0 d) as [Hd | Hd].
    + destruct (Hfixed eq_refl Hd) as [Hc [Hbig Hf]].
      destruct (autoSplitLoop_total64 d ts fuel Hd Hc Hbig Hf) as [s [n [H1 _]]].
      assert (Hplan : autoSplit (Finite d) ts fuel = Some (intervals s))
        by (unfold autoSplit; rewrite H1; reflexivity).
      assert (Hne : intervals s <> []).
      { apply (autoSplit_nonempty64 fuel (Finite d)); [| exact Hplan].
        apply Qltb_lt. exact Hd. }
      exists (intervals s). split; [exact Hplan |].
      split; [intros H; lra |]. split; [intros _ _; exact Hne |].
      split; [intros H; congruence |].
      intros H. contradiction.
    + exists []. split; [apply autoSplit_nonpositive64; exact Hd |].
      split; [reflexivity |]. split; [intros H; lra |].
      split; [intros H; congruence |].
      intros _. exact Hjob.
  - set (ms' := m :: ms) in *.
    assert (Hne : ms' <> []) by discriminate.
    assert (Hd0 : 0 <= d).
    { inversion Hv as [| x l [Hx1 Hx2] _]. lra. }
    exists (splitByMarkers (Finite d) (map Finite ms')).
    split; [apply planIntervals_markers64; exact Hne |].
    destruct (splitByMarkers_spec64 d ms' Hd0 Hv) as [l [-> [Hemp _]]].
    assert (Hmap : map fromQ l = [] <-> l = []).
    { destruct l; split; intros H; try reflexivity; discriminate. }
    assert (Hasc : ascending 0 (Planner.sort (ms' ++ [d]))).
    { apply sort_ascending. apply validMarkers_boundaries; assumption. }
    pose proof (boundaries_le d ms' Hv) as Hle.
    pose proof (slack_nonneg d Hd0) as Hs.
    split; [| split; [intros _ H; discriminate | split]].
    + intros Hd. apply Hmap. apply Hemp.
      apply (allClose_small d);
        [apply Qle_refl | exact Hd0 | exact Hasc | exact Hle |].
      assert (E : d == 0) by (apply Qle_antisym; assumption).
      unfold slack. change (2 ^ (-52)) with (1 # 4503599627370496). lra.
    + intros _. split; [rewrite Hmap; exact Hemp |]. split; [| split].
      * intros Hg. apply Hmap. apply Hemp.
        apply (gapsBelow_allClose d);
          [apply Qle_refl | exact Hd0 | exact Hasc | exact Hle | exact Hg].
      * intros Hnil. apply Hmap in Hnil. apply Hemp in Hnil.
        apply (allClose_gapsWithin d Hmax);
          [apply Qle_refl | exact Hd0 | exact Hasc | exact Hle | exact Hnil].
      * intros Hbig Hnil. apply Hmap in Hnil. apply Hemp in Hnil.
        pose proof (allClose_bound64 d Hmax _ 0 (Qle_refl 0) Hd0 Hasc Hle Hnil) as Hb.
        rewrite (splitByMarkers_last _ _ Hv) in Hb.
        rewrite sort_length, length_app in Hb.
        change (List.length [d]) with 1%nat in Hb. lra.
    + intros _. exact Hjob.
Qed.

End EmptyPlan64.

(** C8, as stated, fails in marker mode: a clip of 0.1 seconds with one
    marker at 0.05 (both the nearest doubles) gives an empty sequence
    although the duration is positive. *)
Lemma C8_counterexample :
  0 < Double.tenthQ /\
  validMarkers Double.tenthQ [3602879701896397 # 72057594037927936] /\
  Planner64.planIntervals 0 Double.tenth
    [Finite (3602879701896397 # 72057594037927936)] defaultTrim = Some [].
Proof.
  split; [reflexivity |]. split; [| vm_compute; reflexivity].
  constructor; [split; discriminate | constructor].
Qed.

(** The rounded sum decides here too: with the marker 0.1 in a clip of
    0.2 seconds (the nearest doubles) both sums [0 + 0.1] and [0.1 + 0.1]
    reach the next boundary, and the plan is empty, although 0.2 as a
    double exceeds 2/10. *)
Example rounded_sum_empty_plan :
  Planner64.planIntervals 0 (Finite (3602879701896397 # 18014398509481984))
    [Double.tenth] defaultTrim = Some [] /\
  (1 # 10) * 2 < 3602879701896397 # 18014398509481984.
Proof. split; [vm_compute; reflexivity | reflexivity]. Qed.

Lemma C8_empty_plan_witness :
  exists plan,
    Planner64.planIntervals 0 Double.tenth
      (map Finite [3602879701896397 # 72057594037927936]) defaultTrim
    = Some plan /\ plan = [] /\
    exists st',
      runJob okWrite okExec okRead movie defaultTrim defaultPremium patientUser
        [] loadedState = (Returned tt, st') /\
      execLog st' = [] /\
      appMessage st' = mkMessage "Tidak ada klip yang dapat dibuat." error.
Proof.
  destruct (C8_empty_plan okWrite okExec okRead movie defaultTrim defaultPremium
              patientUser 0 Double.tenthQ [3602879701896397 # 72057594037927936]
              loadedState)
    as [plan [Hp [H1 [H2 [H3 H5]]]]].
  - constructor; [split; discriminate | constructor].
  - apply Qle_bool_iff. vm_compute. reflexivity.
  - intros H. discriminate.
  - exists plan. split; [exact Hp |].
    assert (Hl : plan = []).
    { destruct H3 as [H3 _]; [discriminate |]. apply H3.
      change (Planner.sort ([3602879701896397 # 72057594037927936] ++ [Double.tenthQ]))
        with [3602879701896397 # 72057594037927936; Double.tenthQ].
      cbn [Planner64.allClose].
      split; [vm_compute; reflexivity |]. split; [vm_compute; reflexivity | exact I]. }
    split; [exact Hl |].
    destruct (H5 Hl) as [st' [Ha [Hb [_ Hd]]]].
    exists st'. split; [exact Ha |]. split; [exact Hb |].
    apply (Hd tt). reflexivity.
Defined.

(** * The argument list in full *)

Section BuilderClaim.

Local Open Scope string_scope.





End BuilderClaim.

(** * Markers on the ends of the clip *)

Section BoundaryMarkers64.

Import Planner64.

Lemma guard_same d :
  0 <= d -> roundQ d == d -> guard (Finite d) (Finite d) = false.
Proof.
  intros Hd Hr.
  assert (Ht : 0 < tenthQ) by reflexivity.
  pose proof (roundQ_mono d (d + tenthQ) Hd ltac:(lra)) as Hm.
  unfold guard, gtb, tenth. cbn [add].
  destruct (round_nonneg_cases (d + tenthQ)) as [[-> _] | [-> _]]; [lra | |].
  - cbn [ltb]. apply Qltb_ge. lra.
  - reflexivity.
Qed.

Lemma markerLoop_snoc64 bs b : forall prev acc,
  markerLoop (map Finite (bs ++ [b])) (Finite prev) acc
  = if guard (Finite (last bs prev)) (Finite b)
    then markerLoop (map Finite bs) (Finite prev) acc
         ++ [mkInterval (Finite (last bs prev)) (Finite b)]
    else markerLoop (map Finite bs) (Finite prev) acc.
Proof.
  induction bs as [| c r IH]; intros prev acc.
  - cbn [app map markerLoop last]. destruct (guard (Finite prev) (Finite b)); reflexivity.
  - rewrite last_cons_default. cbn [app map markerLoop]. apply IH.
Qed.

(** X6: a marker at exactly 0 and a marker at exactly the duration change
    nothing, in double arithmetic: for a non-empty list of markers in
    [0, d], d a double, the plan with a marker 0 put first or a marker
    equal to the duration put last is the plan without it. *)
Theorem X6_boundary_markers fuel d markers ts :
  markers <> [] -> validMarkers d markers -> 0 <= d -> roundQ d == d ->
  planIntervals fuel (Finite d) (map Finite (0 :: markers)) ts
  = planIntervals fuel (Finite d) (map Finite markers) ts /\
  planIntervals fuel (Finite d) (map Finite (markers ++ [d])) ts
  = planIntervals fuel (Finite d) (map Finite markers) ts.
Proof.
  intros Hne Hv Hd Hr.
  rewrite (planIntervals_markers64 fuel d markers ts Hne).
  rewrite (planIntervals_markers64 fuel d (0 :: markers) ts) by discriminate.
  rewrite (planIntervals_markers64 fuel d (markers ++ [d]) ts)
    by (intros H; destruct (app_eq_nil _ _ H) as [_ H']; discriminate).
  rewrite !splitByMarkers_finite. split; f_equal.
  - change (Planner.sort ((0 :: markers) ++ [d]))
      with (Planner.insert 0 (Planner.sort (markers ++ [d]))).
    rewrite insert_zero
      by (apply sort_ascending; apply validMarkers_boundaries; assumption).
    cbn [map markerLoop].
    assert (E : guard (Finite 0) (Finite 0) = false) by (vm_compute; reflexivity).
    rewrite E. reflexivity.
  - assert (Hv' : Forall (fun m => m <= d) (markers ++ [d])).
    { apply Forall_app. split; [apply validMarkers_le; exact Hv |].
      constructor; [lra | constructor]. }
    rewrite (sort_snoc _ _ Hv'). rewrite markerLoop_snoc64.
    rewrite (splitByMarkers_last d markers Hv).
    rewrite (guard_same d Hd Hr). reflexivity.
Qed.

Lemma X6_boundary_markers_witness :
  planIntervals 0 (Finite 95) (map Finite (0 :: [30; 60])) defaultTrim
  = planIntervals 0 (Finite 95) (map Finite [30; 60]) defaultTrim /\
  planIntervals 0 (Finite 95) (map Finite ([30; 60] ++ [95])) defaultTrim
  = planIntervals 0 (Finite 95) (map Finite [30; 60]) defaultTrim.
Proof.
  apply X6_boundary_markers;
    [discriminate | repeat constructor; discriminate | discriminate
     | vm_compute; reflexivity].
Defined.

End BoundaryMarkers64.
